(** * check_games.py: council matchups announced through a webhook

    A shallow embedding of [.github/workflows/check_games.py] and the
    properties of its specification.

    Python values are an inductive type, a Python [str] is the list of its
    code points, a raised exception is a result of its own ([Raise]), and the
    outside world (the scoreboards, the issue that stores the posted ids, the
    webhook, the standard output) is an explicit argument of [main]. *)

From Stdlib Require Import ZArith NArith Ascii String Lia.
From stdpp Require Import gmap sets list sorting.

Local Open Scope N_scope.

(** ** Python strings *)

(** A [str] is a sequence of Unicode code points. *)
Abbreviation pystr := (list N).

(** Source literals are UTF-8 text: [lit] decodes one into code points, the
    way Python reads the literals of a source file. *)
Fixpoint utf8_decode (bs : list N) : pystr :=
  match bs with
  | [] => []
  | b :: r =>
      if b <? 0x80 then b :: utf8_decode r
      else if b <? 0xE0 then
        match r with
        | b1 :: r1 => ((b - 0xC0) * 64 + (b1 - 0x80)) :: utf8_decode r1
        | _ => [b]
        end
      else if b <? 0xF0 then
        match r with
        | b1 :: b2 :: r2 =>
            ((b - 0xE0) * 4096 + (b1 - 0x80) * 64 + (b2 - 0x80)) :: utf8_decode r2
        | _ => [b]
        end
      else
        match r with
        | b1 :: b2 :: b3 :: r3 =>
            ((b - 0xF0) * 262144 + (b1 - 0x80) * 4096 + (b2 - 0x80) * 64 + (b3 - 0x80))
              :: utf8_decode r3
        | _ => [b]
        end
  end.

Definition lit (s : string) : pystr :=
  utf8_decode (map N_of_ascii (list_ascii_of_string s)).

(** [str.isspace] of one character: the code points CPython's
    [_PyUnicode_IsWhitespace] accepts. *)
Definition isspace (c : N) : bool :=
  ((0x09 <=? c) && (c <=? 0x0D)) || ((0x1C <=? c) && (c <=? 0x20))
  || (c =? 0x85) || (c =? 0xA0) || (c =? 0x1680)
  || ((0x2000 <=? c) && (c <=? 0x200A))
  || (c =? 0x2028) || (c =? 0x2029) || (c =? 0x202F) || (c =? 0x205F)
  || (c =? 0x3000).

Fixpoint drop_while (p : N → bool) (s : pystr) : pystr :=
  match s with
  | [] => []
  | c :: r => if p c then drop_while p r else s
  end.

Definition lstrip_ws (s : pystr) : pystr := drop_while isspace s.

(** [s.strip()] *)
Definition strip (s : pystr) : pystr := reverse (lstrip_ws (reverse (lstrip_ws s))).

(** [s.split()]: the maximal runs of characters that are not whitespace. *)
Fixpoint split_ws (s : pystr) : list pystr :=
  match s with
  | [] => []
  | c :: r =>
      if isspace c then split_ws r
      else match r with
           | [] => [[c]]
           | d :: _ =>
               if isspace d then [c] :: split_ws r
               else match split_ws r with
                    | w :: ws => (c :: w) :: ws
                    | [] => [[c]]
                    end
           end
  end.

(** [sep.join(l)] *)
Fixpoint join (sep : pystr) (l : list pystr) : pystr :=
  match l with
  | [] => []
  | [w] => w
  | w :: ws => w ++ sep ++ join sep ws
  end.

Fixpoint starts_with (p s : pystr) : bool :=
  match p, s with
  | [], _ => true
  | a :: p', b :: s' => (a =? b) && starts_with p' s'
  | _ :: _, [] => false
  end.

(** [s.replace(old, new)] scans from the left and never looks again at what
    it has replaced; [skip] counts the characters of a match still to drop. *)
Fixpoint replace_from (old new : pystr) (skip : nat) (s : pystr) : pystr :=
  match s with
  | [] => []
  | c :: r =>
      match skip with
      | S k => replace_from old new k r
      | O =>
          if starts_with old s
          then new ++ replace_from old new (length old - 1) r
          else c :: replace_from old new 0 r
      end
  end.

Definition replace (old new s : pystr) : pystr :=
  match old with
  | [] => new ++ flat_map (λ c, c :: new) s
  | _ => replace_from old new 0 s
  end.

(** [s.lstrip("0")] *)
Definition lstrip_zero (s : pystr) : pystr := drop_while (N.eqb 0x30) s.

(** Decimal digits of a number, as [str(n)] prints them. *)
Fixpoint digits_pos (fuel : nat) (n : N) (acc : pystr) : pystr :=
  match fuel with
  | O => acc
  | S f =>
      let acc' := (0x30 + n mod 10) :: acc in
      if n <? 10 then acc' else digits_pos f (n / 10) acc'
  end.

Definition str_of_N (n : N) : pystr := digits_pos (S (N.to_nat (N.log2 n))) n [].

Definition str_of_Z (z : Z) : pystr :=
  match z with
  | Zneg p => 0x2D :: str_of_N (Npos p)
  | _ => str_of_N (Z.to_N z)
  end.

(** Lexicographic order on code points: [<=] on [str]. *)
Fixpoint str_leb (a b : pystr) : bool :=
  match a, b with
  | [], _ => true
  | _ :: _, [] => false
  | x :: a', y :: b' => (x <? y) || ((x =? y) && str_leb a' b')
  end.

(** ** Python values *)

(** The values [json.loads] produces. A float is kept as the literal it was
    read from; a dict is the list of its items in insertion order. *)
#[warnings="-register-all"]
Inductive pyval :=
  | PNone
  | PBool (b : bool)
  | PInt (z : Z)
  | PFloat (lexeme : pystr)
  | PStr (s : pystr)
  | PList (l : list pyval)
  | PDict (d : list (pystr * pyval)).

(** The hashable values among them: the possible elements of a [set]. *)
Inductive atom :=
  | ANone
  | ABool (b : bool)
  | AInt (z : Z)
  | AFloat (lexeme : pystr)
  | AStr (s : pystr).

#[export] Instance atom_eq_dec : EqDecision atom.
Proof. solve_decision. Defined.

Definition atom_code (a : atom) : unit + bool + Z + pystr + pystr :=
  match a with
  | ANone => inl (inl (inl (inl ())))
  | ABool b => inl (inl (inl (inr b)))
  | AInt z => inl (inl (inr z))
  | AFloat x => inl (inr x)
  | AStr s => inr s
  end.

Definition atom_decode (c : unit + bool + Z + pystr + pystr) : atom :=
  match c with
  | inl (inl (inl (inl _))) => ANone
  | inl (inl (inl (inr b))) => ABool b
  | inl (inl (inr z)) => AInt z
  | inl (inr x) => AFloat x
  | inr s => AStr s
  end.

#[export] Instance atom_countable : Countable atom.
Proof. apply (inj_countable' atom_code atom_decode). by intros []. Defined.

(** A Python [set] of hashable values. Elements are told apart by their
    constructor: that [1], [1.0] and [True] are one element for Python is not
    modelled. A string is never equal to a value of another type, so the
    membership and the insertion of an id, which is a string, are exact. *)
Abbreviation pyset := (gset atom).

Inductive error :=
  | AttributeError | TypeError | KeyError | IndexError | ValueError
  | RuntimeError | HTTPError | RequestException | SystemExit
  | UnicodeEncodeError.

(** The outcome of a computation that may raise. *)
Inductive exc (A : Type) :=
  | Ok (a : A)
  | Raise (e : error).
Arguments Ok {A} a.
Arguments Raise {A} e.

#[export] Instance exc_ret : MRet exc := λ A a, Ok a.
#[export] Instance exc_bind : MBind exc := λ A B f m,
  match m with Ok a => f a | Raise e => Raise e end.

(** [try: ... except Exception: handler] *)
Definition try_except {A} (m : exc A) (handler : A) : A :=
  match m with Ok a => a | Raise _ => handler end.

(** ** What the model takes from the Python runtime as it is

    The Unicode character database, the [repr] of floats and containers, the
    order of numbers and the date and time-zone libraries are not
    re-implemented: they are the fields of [PyRuntime]. *)

(** [datetime] fields of an aware local time, with the abbreviation of its
    zone ([%Z]). *)
Record local_time := LocalTime {
  lt_year : N; lt_month : N; lt_day : N;
  lt_hour : N; lt_minute : N;
  lt_zone : pystr
}.

Class PyRuntime := {
  (** the lowercase mapping of one code point ([_PyUnicode_ToLowerFull]) *)
  lower_full : N → pystr;
  (** the properties Cased and Case_Ignorable *)
  is_cased : N → bool;
  is_case_ignorable : N → bool;
  (** [repr] of a float, a list or a dict *)
  py_repr : pyval → pystr;
  (** whether the float of a literal is different from zero *)
  float_nonzero : pystr → bool;
  (** what [json.dumps] prints for the float of a literal *)
  float_json : pystr → pystr;
  (** [sorted] on two or more numbers *)
  sort_numbers : list atom → list atom;
  (** [datetime.fromisoformat(text).astimezone(pytz.timezone(zone))], as
      [localize zone text]: [None] when one of the three calls raises *)
  localize : pystr → pystr → option local_time
}.

(** Facts of the Unicode character database that [normalize] relies on. *)
Class UnicodeLaws (R : PyRuntime) : Prop := {
  lower_ascii : ∀ c, c < 0x80 →
    lower_full c = [if (0x41 <=? c) && (c <=? 0x5A) then c + 0x20 else c];
  lower_stable : ∀ c d, d ∈ lower_full c → lower_full d = [d] ∧ d ≠ 0x3A3;
  lower_final_sigma : lower_full 0x3C2 = [0x3C2];
  lower_small_sigma : lower_full 0x3C3 = [0x3C3];
  lower_A_diaeresis : lower_full 0xC4 ≠ [0xC4]
}.

(** [repr] is never empty. *)
Class ReprLaws (R : PyRuntime) : Prop := {
  py_repr_nonempty : ∀ v, py_repr v ≠ []
}.

Section Program.
Context {R : PyRuntime}.

(** [bool(v)] *)
Definition truthy (v : pyval) : bool :=
  match v with
  | PNone => false
  | PBool b => b
  | PInt z => negb (z =? 0)%Z
  | PFloat x => float_nonzero x
  | PStr s => match s with [] => false | _ => true end
  | PList l => match l with [] => false | _ => true end
  | PDict d => match d with [] => false | _ => true end
  end.

(** [v == s] for a str [s]: a value of another type is not equal to it. *)
Definition str_eq (v : pyval) (s : pystr) : bool :=
  match v with
  | PStr x => bool_decide (x = s)
  | _ => false
  end.

(** [a or b] *)
Definition py_or (a b : pyval) : pyval := if truthy a then a else b.

(** [str(v)] *)
Definition py_str (v : pyval) : pystr :=
  match v with
  | PNone => lit "None"
  | PBool true => lit "True"
  | PBool false => lit "False"
  | PInt z => str_of_Z z
  | PStr s => s
  | _ => py_repr v
  end.

(** The first non case-ignorable character of a string. *)
Definition first_cased_candidate (s : pystr) : option N :=
  list_find (λ c, is_case_ignorable c = false) s ≫= λ p, Some p.2.

(** CPython's [handle_capital_sigma]: [before] is the text before the
    sigma, nearest character first, [after] the text after it. *)
Definition capital_sigma (before after : pystr) : N :=
  let final :=
    match first_cased_candidate before with
    | Some c =>
        is_cased c &&
        match first_cased_candidate after with
        | Some d => negb (is_cased d)
        | None => true
        end
    | None => false
    end in
  if final then 0x3C2 else 0x3C3.

Fixpoint lower_from (before s : pystr) : pystr :=
  match s with
  | [] => []
  | c :: r =>
      (if c =? 0x3A3 then [capital_sigma before r] else lower_full c)
        ++ lower_from (c :: before) r
  end.

(** [s.lower()] *)
Definition py_lower (s : pystr) : pystr := lower_from [] s.

(** ** The name normalizer *)

(** The [replace] dict of [normalize], in insertion order. *)
Definition replace_table : list (pystr * pystr) :=
  [ (lit "&", lit " and ");
    (lit ".", []);
    (lit ",", []);
    (lit "-", lit " ");
    (lit "‚Äî", lit " ");
    (lit "'", []);
    (lit "‚Äô", []) ].

Definition replace_all (table : list (pystr * pystr)) (s : pystr) : pystr :=
  fold_left (λ acc kv, replace kv.1 kv.2 acc) table s.

Definition normalize_str (s : pystr) : pystr :=
  join (lit " ") (split_ws (replace_all replace_table (strip (py_lower s)))).

(** [normalize(s)]: a falsy argument of any type gives the empty string;
    only a [str] has [lower]. *)
Definition normalize (s : pyval) : exc pystr :=
  if negb (truthy s) then Ok []
  else match s with
       | PStr x => Ok (normalize_str x)
       | _ => Raise AttributeError
       end.

(** ** Dicts, iteration, subscripts *)

Fixpoint assoc (k : pystr) (d : list (pystr * pyval)) : option pyval :=
  match d with
  | [] => None
  | (k', v) :: r => if decide (k = k') then Some v else assoc k r
  end.

(** [d[k] = v] on an insertion-ordered dict *)
Fixpoint dict_set (k : pystr) (v : pyval) (d : list (pystr * pyval)) : list (pystr * pyval) :=
  match d with
  | [] => [(k, v)]
  | (k', v') :: r => if decide (k = k') then (k, v) :: r else (k', v') :: dict_set k v r
  end.

(** [d.get(key, dflt)]: only a dict has [get]. *)
Definition dict_get (d : pyval) (key : pystr) (dflt : pyval) : exc pyval :=
  match d with
  | PDict items => Ok (default dflt (assoc key items))
  | _ => Raise AttributeError
  end.

(** [d.values()] and [d.items()] *)
Definition py_values (d : pyval) : exc (list pyval) :=
  match d with
  | PDict items => Ok (map snd items)
  | _ => Raise AttributeError
  end.

Definition py_items (d : pyval) : exc (list (pystr * pyval)) :=
  match d with
  | PDict items => Ok items
  | _ => Raise AttributeError
  end.

(** [for x in v]: a list gives its elements, a str its characters, a dict
    its keys; nothing else is iterable. *)
Definition py_iter (v : pyval) : exc (list pyval) :=
  match v with
  | PList l => Ok l
  | PStr s => Ok (map (λ c, PStr [c]) s)
  | PDict items => Ok (map (λ kv, PStr kv.1) items)
  | _ => Raise TypeError
  end.

(** [len(v)] *)
Definition py_len (v : pyval) : exc nat :=
  match v with
  | PList l => Ok (length l)
  | PStr s => Ok (length s)
  | PDict items => Ok (length items)
  | _ => Raise TypeError
  end.

(** [v[i]] for an index [i >= 0]; the keys of a dict are strings. *)
Definition subscript_index (v : pyval) (i : nat) : exc pyval :=
  match v with
  | PList l => match l !! i with Some x => Ok x | None => Raise IndexError end
  | PStr s => match s !! i with Some c => Ok (PStr [c]) | None => Raise IndexError end
  | PDict _ => Raise KeyError
  | _ => Raise TypeError
  end.

(** [v[k]] for a string [k] *)
Definition subscript_key (v : pyval) (k : pystr) : exc pyval :=
  match v with
  | PDict items => match assoc k items with Some x => Ok x | None => Raise KeyError end
  | _ => Raise TypeError
  end.

(** [sep.join(l)]: every item must be a str. *)
Fixpoint str_items (l : list pyval) : exc (list pystr) :=
  match l with
  | [] => Ok []
  | PStr s :: r => ws ← str_items r; Ok (s :: ws)
  | _ :: _ => Raise TypeError
  end.

Definition py_join (sep : pystr) (l : list pyval) : exc pystr :=
  ws ← str_items l; Ok (join sep ws).

(** A loop whose body may raise. *)
Fixpoint foldM {A S : Type} (f : S → A → exc S) (l : list A) (s : S) : exc S :=
  match l with
  | [] => Ok s
  | a :: r => s' ← f s a; foldM f r s'
  end.

(** ** JSON

    [json.loads] as CPython's scanner does it (module [_json]), and
    [json.dumps(..., indent=2)] on a list of hashable values. One limit of
    the interpreter is left out: the recursion limit on deeply nested
    documents. *)

Inductive parsed (A : Type) :=
  | Parsed (a : A) (rest : pystr)
  | Malformed
  | OutOfFuel.
#[global] Arguments Parsed {A} a rest.
#[global] Arguments Malformed {A}.
#[global] Arguments OutOfFuel {A}.

Definition is_json_ws (c : N) : bool :=
  (c =? 0x20) || (c =? 0x09) || (c =? 0x0A) || (c =? 0x0D).

Definition skip_ws (s : pystr) : pystr := drop_while is_json_ws s.

Definition is_digit (c : N) : bool := (0x30 <=? c) && (c <=? 0x39).

Definition hex_value (c : N) : option N :=
  if (0x30 <=? c) && (c <=? 0x39) then Some (c - 0x30)
  else if (0x61 <=? c) && (c <=? 0x66) then Some (c - 0x61 + 10)
  else if (0x41 <=? c) && (c <=? 0x46) then Some (c - 0x41 + 10)
  else None.

Definition hex4 (a b c d : N) : option N :=
  x ← hex_value a; y ← hex_value b; z ← hex_value c; w ← hex_value d;
  Some (x * 4096 + y * 256 + z * 16 + w).

Definition is_high_surrogate (c : N) : bool := (0xD800 <=? c) && (c <=? 0xDBFF).
Definition is_low_surrogate (c : N) : bool := (0xDC00 <=? c) && (c <=? 0xDFFF).

Definition join_surrogates (hi lo : N) : N :=
  0x10000 + (hi - 0xD800) * 1024 + (lo - 0xDC00).

(** The character a backslash escape other than [\u] stands for. *)
Definition unescape (e : N) : option N :=
  if e =? 0x22 then Some 0x22
  else if e =? 0x5C then Some 0x5C
  else if e =? 0x2F then Some 0x2F
  else if e =? 0x62 then Some 0x08
  else if e =? 0x66 then Some 0x0C
  else if e =? 0x6E then Some 0x0A
  else if e =? 0x72 then Some 0x0D
  else if e =? 0x74 then Some 0x09
  else None.

(** After an escaped high surrogate: the low surrogate that the next
    escape stands for, if it does. [None] is an escape that is not made of
    four hexadecimal digits. *)
Definition escaped_low_surrogate (s : pystr) : option (option N) :=
  match s with
  | b :: v :: l1 :: l2 :: l3 :: l4 :: _ =>
      if (b =? 0x5C) && (v =? 0x75) then
        match hex4 l1 l2 l3 l4 with
        | None => None
        | Some u2 => Some (if is_low_surrogate u2 then Some u2 else None)
        end
      else Some None
  | _ => Some None
  end.

(** [scanstring], after the opening quote: the string and what follows its
    closing quote. An escaped high surrogate followed by an escaped low
    surrogate is one character. *)
Fixpoint scan_string (s : pystr) : option (pystr * pystr) :=
  match s with
  | [] => None
  | c :: r =>
      if c =? 0x22 then Some ([], r)
      else if c =? 0x5C then
        match r with
        | [] => None
        | e :: r1 =>
            if e =? 0x75 then
              match r1 with
              | h1 :: h2 :: h3 :: h4 :: r2 =>
                  match hex4 h1 h2 h3 h4 with
                  | None => None
                  | Some u =>
                      let single := '(t, rest) ← scan_string r2; Some (u :: t, rest) in
                      if is_high_surrogate u then
                        match escaped_low_surrogate r2 with
                        | None => None
                        | Some None => single
                        | Some (Some u2) =>
                            match r2 with
                            | _ :: _ :: _ :: _ :: _ :: _ :: r3 =>
                                '(t, rest) ← scan_string r3;
                                Some (join_surrogates u u2 :: t, rest)
                            | _ => None
                            end
                        end
                      else single
                  end
              | _ => None
              end
            else
              match unescape e with
              | Some x => '(t, rest) ← scan_string r1; Some (x :: t, rest)
              | None => None
              end
        end
      else if c <? 0x20 then None
      else '(t, rest) ← scan_string r; Some (c :: t, rest)
  end.

Fixpoint span_digits (s : pystr) : pystr * pystr :=
  match s with
  | c :: r => if is_digit c then let '(ds, rest) := span_digits r in (c :: ds, rest)
              else ([], s)
  | [] => ([], [])
  end.

Definition digits_value (ds : pystr) : Z :=
  fold_left (λ acc d, acc * 10 + Z.of_N (d - 0x30))%Z ds 0%Z.

(** The most digits that [int] takes from a decimal literal
    ([sys.get_int_max_str_digits()], as the interpreter starts): on a longer
    one it raises a [ValueError]. *)
Definition int_max_str_digits : nat := 4300.

(** [_match_number]: an integer, or a float when a fraction or an exponent
    follows. An integer with too many digits is the [ValueError] of [int]. *)
Definition scan_number (s : pystr) : option (pyval * pystr) :=
  let '(sign, s1) := match s with
                     | c :: r => if c =? 0x2D then ([c], r) else ([], s)
                     | [] => ([], s)
                     end in
  match s1 with
  | [] => None
  | d :: r =>
      if is_digit d then
        let '(int, r1) := if d =? 0x30 then ([d], r)
                          else let '(ds, rest) := span_digits r in (d :: ds, rest) in
        let '(frac, r2) :=
          match r1 with
          | p :: r' =>
              if p =? 0x2E then
                match span_digits r' with
                | ([], _) => ([], r1)
                | (fs, rest) => (p :: fs, rest)
                end
              else ([], r1)
          | [] => ([], r1)
          end in
        let '(exp, r3) :=
          match r2 with
          | e :: r' =>
              if (e =? 0x65) || (e =? 0x45) then
                let '(sg, r'') := match r' with
                                  | g :: t => if (g =? 0x2B) || (g =? 0x2D) then ([g], t) else ([], r')
                                  | [] => ([], r')
                                  end in
                match span_digits r'' with
                | ([], _) => ([], r2)
                | (es, rest) => (e :: sg ++ es, rest)
                end
              else ([], r2)
          | [] => ([], r2)
          end in
        match frac, exp with
        | [], [] =>
            if (int_max_str_digits <? length int)%nat then None
            else
              Some (PInt (match sign with [] => digits_value int | _ => - digits_value int end)%Z,
                    r3)
        | _, _ => Some (PFloat (sign ++ int ++ frac ++ exp), r3)
        end
      else None
  end.

(** A literal word of the grammar at the head of the input. *)
Definition scan_word (w : string) (v : pyval) (s : pystr) : option (pyval * pystr) :=
  if starts_with (lit w) s then Some (v, drop (length (lit w)) s) else None.

Definition scan_constant (s : pystr) : option (pyval * pystr) :=
  match scan_word "null" PNone s with Some r => Some r | None =>
  match scan_word "true" (PBool true) s with Some r => Some r | None =>
  match scan_word "false" (PBool false) s with Some r => Some r | None =>
  match scan_number s with Some r => Some r | None =>
  match scan_word "NaN" (PFloat (lit "NaN")) s with Some r => Some r | None =>
  match scan_word "Infinity" (PFloat (lit "Infinity")) s with Some r => Some r | None =>
  scan_word "-Infinity" (PFloat (lit "-Infinity")) s
  end end end end end end.

(** [scan_once] at the first character of a value, with the loops of
    [_parse_array] and [_parse_object]. Every call uses one unit of fuel. *)
Fixpoint parse_value (fuel : nat) (s : pystr) : parsed pyval :=
  match fuel with
  | O => OutOfFuel
  | S f =>
      match s with
      | [] => Malformed
      | c :: r =>
          if c =? 0x22 then
            match scan_string r with
            | Some (t, rest) => Parsed (PStr t) rest
            | None => Malformed
            end
          else if c =? 0x5B then
            match skip_ws r with
            | [] => Malformed
            | d :: r' =>
                if d =? 0x5D then Parsed (PList []) r'
                else match parse_elements f (d :: r') with
                     | Parsed vs rest => Parsed (PList vs) rest
                     | Malformed => Malformed
                     | OutOfFuel => OutOfFuel
                     end
            end
          else if c =? 0x7B then
            match skip_ws r with
            | [] => Malformed
            | d :: r' =>
                if d =? 0x7D then Parsed (PDict []) r'
                else match parse_members f (d :: r') with
                     | Parsed kvs rest =>
                         Parsed (PDict (fold_left (λ d kv, dict_set kv.1 kv.2 d) kvs [])) rest
                     | Malformed => Malformed
                     | OutOfFuel => OutOfFuel
                     end
            end
          else
            match scan_constant s with
            | Some (v, rest) => Parsed v rest
            | None => Malformed
            end
      end
  end
with parse_elements (fuel : nat) (s : pystr) : parsed (list pyval) :=
  match fuel with
  | O => OutOfFuel
  | S f =>
      match parse_value f s with
      | Parsed v rest =>
          match skip_ws rest with
          | d :: r =>
              if d =? 0x5D then Parsed [v] r
              else if d =? 0x2C then
                match parse_elements f (skip_ws r) with
                | Parsed vs rest' => Parsed (v :: vs) rest'
                | Malformed => Malformed
                | OutOfFuel => OutOfFuel
                end
              else Malformed
          | [] => Malformed
          end
      | Malformed => Malformed
      | OutOfFuel => OutOfFuel
      end
  end
with parse_members (fuel : nat) (s : pystr) : parsed (list (pystr * pyval)) :=
  match fuel with
  | O => OutOfFuel
  | S f =>
      match s with
      | q :: r0 =>
          if q =? 0x22 then
            match scan_string r0 with
            | Some (k, rest0) =>
                match skip_ws rest0 with
                | colon :: r1 =>
                    if colon =? 0x3A then
                      match parse_value f (skip_ws r1) with
                      | Parsed v rest =>
                          match skip_ws rest with
                          | d :: r =>
                              if d =? 0x7D then Parsed [(k, v)] r
                              else if d =? 0x2C then
                                match parse_members f (skip_ws r) with
                                | Parsed kvs rest' => Parsed ((k, v) :: kvs) rest'
                                | Malformed => Malformed
                                | OutOfFuel => OutOfFuel
                                end
                              else Malformed
                          | [] => Malformed
                          end
                      | Malformed => Malformed
                      | OutOfFuel => OutOfFuel
                      end
                    else Malformed
                | [] => Malformed
                end
            | None => Malformed
            end
          else Malformed
      | [] => Malformed
      end
  end.

(** [json.loads(s)] for a str [s]: [None] stands for [JSONDecodeError] and
    for the [ValueError] of an integer with too many digits. *)
Definition json_loads (s : pystr) : option pyval :=
  match parse_value (2 * length s + 2) (skip_ws s) with
  | Parsed v rest => match skip_ws rest with [] => Some v | _ => None end
  | _ => None
  end.

(** [json.loads(v)]: anything that is not a str is a [TypeError]. *)
Definition json_loads_val (v : pyval) : exc pyval :=
  match v with
  | PStr s => match json_loads s with Some d => Ok d | None => Raise ValueError end
  | _ => Raise TypeError
  end.

Definition hex_digit (n : N) : N := if n <? 10 then 0x30 + n else 0x61 + (n - 10).

(** [\uXXXX] *)
Definition escape_u (n : N) : pystr :=
  [0x5C; 0x75; hex_digit (n / 4096); hex_digit (n / 256 mod 16);
   hex_digit (n / 16 mod 16); hex_digit (n mod 16)].

(** [encode_basestring_ascii] on one character *)
Definition escape_char (c : N) : pystr :=
  if c =? 0x22 then [0x5C; 0x22]
  else if c =? 0x5C then [0x5C; 0x5C]
  else if c =? 0x0A then [0x5C; 0x6E]
  else if c =? 0x0D then [0x5C; 0x72]
  else if c =? 0x09 then [0x5C; 0x74]
  else if c =? 0x08 then [0x5C; 0x62]
  else if c =? 0x0C then [0x5C; 0x66]
  else if (0x20 <=? c) && (c <=? 0x7E) then [c]
  else if c <? 0x10000 then escape_u c
  else escape_u (0xD800 + (c - 0x10000) / 1024 mod 1024)
         ++ escape_u (0xDC00 + (c - 0x10000) mod 1024).

Definition json_string (s : pystr) : pystr :=
  0x22 :: flat_map escape_char s ++ [0x22].

Definition json_atom (a : atom) : pystr :=
  match a with
  | ANone => lit "null"
  | ABool true => lit "true"
  | ABool false => lit "false"
  | AInt z => str_of_Z z
  | AFloat x => float_json x
  | AStr s => json_string s
  end.

(** [json.dumps(l, indent=2)] for a list [l] of hashable values *)
Definition json_dumps_list (l : list atom) : pystr :=
  match l with
  | [] => lit "[]"
  | _ => 0x5B :: 0x0A :: 0x20 :: 0x20 ::
         join [0x2C; 0x0A; 0x20; 0x20] (map json_atom l) ++ [0x0A; 0x5D]
  end.

(** ** The lookup builder *)

(** normalized alias -> canonical id, ESPN team id -> canonical id,
    council number -> canonical id *)
Record lookups := Lookups {
  alias_lookup : gmap pystr pystr;
  espn_id_lookup : gmap pystr pystr;
  council_by_number : gmap pystr pystr
}.

(** The two loops over the alias groups of one entry. *)
Definition register_group (cid : pystr) (al : gmap pystr pystr) (group : pyval)
  : exc (gmap pystr pystr) :=
  names ← py_iter group;
  foldM (λ al a, k ← normalize a; Ok (<[k := cid]> al)) names al.

(** The body of the loop of [build_lookup] for one registry entry. *)
Definition register_entry (t : lookups) (entry : pystr * pyval) : exc lookups :=
  let '(cid, info) := entry in
  council ← dict_get info (lit "council") (PStr []);
  let num := py_str council in
  let by_number := <[num := cid]> (council_by_number t) in
  aliases ← dict_get info (lit "aliases") (PDict []);
  groups ← py_values aliases;
  al ← foldM (register_group cid) groups (alias_lookup t);
  name ← dict_get info (lit "official_name") PNone;
  official ← (if truthy name then Ok name else dict_get info (lit "official") (PStr []));
  al ← (if truthy official then k ← normalize official; Ok (<[k := cid]> al) else Ok al);
  ids ← dict_get info (lit "espn_ids") (PList []);
  ids ← py_iter ids;
  let el := fold_left (λ el espn_id, <[py_str espn_id := cid]> el) ids (espn_id_lookup t) in
  Ok (Lookups al el by_number).

Definition build_lookup (councils : pyval) : exc lookups :=
  entries ← py_items councils;
  foldM register_entry entries (Lookups ∅ ∅ ∅).

(** ** The matcher *)

(** The name fields [resolve_team] falls back on, in the order of the source. *)
Definition fallback_keys : list pystr :=
  [lit "name"; lit "displayName"; lit "shortDisplayName"; lit "location"; lit "abbreviation"].

(** The loop over the fallback fields: the first field that is set and whose
    normal form is an alias decides. *)
Fixpoint resolve_fallback (team : pyval) (al : gmap pystr pystr) (keys : list pystr)
  : exc (option pystr) :=
  match keys with
  | [] => Ok None
  | key :: rest =>
      v ← dict_get team key PNone;
      if truthy v then
        k ← normalize v;
        match al !! k with
        | Some cid => Ok (Some cid)
        | None => resolve_fallback team al rest
        end
      else resolve_fallback team al rest
  end.

(** [resolve_team(team_obj, alias_lookup, espn_id_lookup)]: the canonical
    id, or [None]. *)
Definition resolve_team (team_obj : pyval) (al el : gmap pystr pystr) : exc (option pystr) :=
  team ← dict_get team_obj (lit "team") (PDict []);
  team_id ← dict_get team (lit "id") PNone;
  d ← dict_get team (lit "displayName") (PStr []);
  display ← (if truthy d then Ok d else dict_get team (lit "shortDisplayName") (PStr []));
  match (if truthy team_id then el !! py_str team_id else None) with
  | Some cid => Ok (Some cid)
  | None =>
      norm ← normalize display;
      match al !! norm with
      | Some cid => Ok (Some cid)
      | None => resolve_fallback team al fallback_keys
      end
  end.

(** ** HTTP *)

(** What a call of [requests] gives: no response at all (the call raises),
    or a response with its status code and, when its body is JSON, the value
    of [r.json()]. *)
Inductive http_result :=
  | NoResponse
  | Response (status_code : Z) (json : option pyval).

(** [r.raise_for_status()] raises on the codes from 400 to 599. *)
Definition raise_for_status (status_code : Z) : exc unit :=
  if ((400 <=? status_code) && (status_code <? 600))%Z then Raise HTTPError else Ok ().

(** [r.json()] *)
Definition response_json (json : option pyval) : exc pyval :=
  match json with Some v => Ok v | None => Raise ValueError end.

(** ** The dedup store *)

(** [find_or_create_issue(title)], from the replies to the listing of the
    open issues and to the creation of one: the number and the body. *)
Definition find_or_create_issue (token repository title : pystr)
    (listing creation : http_result) : exc (pyval * pyval) :=
  match token, repository with
  | [], _ | _, [] => Raise RuntimeError
  | _, _ =>
      match listing with
      | NoResponse => Raise RequestException
      | Response code js =>
          _ ← raise_for_status code;
          issues ← response_json js;
          issues ← py_iter issues;
          found ← foldM (λ found issue,
                     match found with
                     | Some _ => Ok found
                     | None =>
                         t ← dict_get issue (lit "title") PNone;
                         if str_eq t title then
                           number ← subscript_key issue (lit "number");
                           body ← dict_get issue (lit "body") PNone;
                           Ok (Some (number, py_or body (PStr [])))
                         else Ok None
                     end) issues None;
          match found with
          | Some r => Ok r
          | None =>
              match creation with
              | NoResponse => Raise RequestException
              | Response code2 js2 =>
                  _ ← raise_for_status code2;
                  issue ← response_json js2;
                  number ← subscript_key issue (lit "number");
                  body ← dict_get issue (lit "body") PNone;
                  Ok (number, py_or body (PStr []))
              end
          end
      end
  end.

(** The hashable form of a value; a list or a dict has none. *)
Definition atom_of (v : pyval) : option atom :=
  match v with
  | PNone => Some ANone
  | PBool b => Some (ABool b)
  | PInt z => Some (AInt z)
  | PFloat x => Some (AFloat x)
  | PStr s => Some (AStr s)
  | PList _ | PDict _ => None
  end.

(** [set(data)]: an unhashable element is a [TypeError]. *)
Fixpoint py_set (data : list pyval) : exc pyset :=
  match data with
  | [] => Ok ∅
  | v :: r =>
      match atom_of v with
      | Some a => s ← py_set r; Ok ({[a]} ∪ s)
      | None => Raise TypeError
      end
  end.

(** The [try] block of [read_posted_set_from_issue] on the body of the issue. *)
Definition parse_posted_body (body : pyval) : pyset :=
  try_except
    (data ← json_loads_val body;
     match data with
     | PList l => py_set l
     | _ => Ok ∅
     end)
    ∅.

(** [read_posted_set_from_issue(issue_number)], from the reply to the
    request for the issue. *)
Definition read_posted_set_from_issue (reply : http_result) : exc pyset :=
  match reply with
  | NoResponse => Raise RequestException
  | Response code js =>
      _ ← raise_for_status code;
      issue ← response_json js;
      b ← dict_get issue (lit "body") PNone;
      Ok (parse_posted_body (py_or b (PStr [])))
  end.

Definition atom_str (a : atom) : option pystr :=
  match a with AStr s => Some s | _ => None end.

Definition is_number (a : atom) : bool :=
  match a with ABool _ | AInt _ | AFloat _ => true | _ => false end.

Definition str_le (a b : pystr) : Prop := str_leb a b = true.

#[export] Instance str_le_dec : RelDecision str_le.
Proof. intros a b. unfold str_le. apply _. Defined.

(** [sorted(l)]: strings are ordered by code points; one element needs no
    comparison; numbers are ordered by the runtime; any other mix of types is
    a [TypeError]. *)
Definition py_sorted (l : list atom) : exc (list atom) :=
  match mapM atom_str l with
  | Some strs => Ok (AStr <$> merge_sort str_le strs)
  | None =>
      match l with
      | [_] => Ok l
      | _ => if forallb is_number l then Ok (sort_numbers l) else Raise TypeError
      end
  end.

(** The body [write_posted_set_to_issue] sends:
    [json.dumps(sorted(list(posted_set)), indent=2)]. *)
Definition posted_body (posted : pyset) : exc pystr :=
  l ← py_sorted (elements posted); Ok (json_dumps_list l).

(** [write_posted_set_to_issue(issue_number, posted_set)]: [patch] is the
    reply to the request that replaces the body of the issue. The result is
    the body that was stored. *)
Definition write_posted_set_to_issue (patch : pystr → http_result) (posted : pyset)
  : exc pystr :=
  body ← posted_body posted;
  match patch body with
  | NoResponse => Raise RequestException
  | Response code _ => _ ← raise_for_status code; Ok body
  end.

(** ** The message formatter *)

Definition month_abbr (m : N) : pystr :=
  nth (N.to_nat (m - 1))
    [lit "Jan"; lit "Feb"; lit "Mar"; lit "Apr"; lit "May"; lit "Jun";
     lit "Jul"; lit "Aug"; lit "Sep"; lit "Oct"; lit "Nov"; lit "Dec"] [].

(** Two digits, zero-padded. *)
Definition two_digits (n : N) : pystr := [0x30 + n / 10 mod 10; 0x30 + n mod 10].

Definition hour12 (h : N) : N := if h mod 12 =? 0 then 12 else h mod 12.

(** [local.strftime("%b %d, %Y %I:%M %p %Z")] *)
Definition strftime (t : local_time) : pystr :=
  month_abbr (lt_month t) ++ lit " " ++ two_digits (lt_day t) ++ lit ", "
  ++ str_of_N (lt_year t) ++ lit " " ++ two_digits (hour12 (lt_hour t)) ++ lit ":"
  ++ two_digits (lt_minute t) ++ lit " "
  ++ (if lt_hour t <? 12 then lit "AM" else lit "PM") ++ lit " " ++ lt_zone t.

(** [format_time(iso_time)]: any exception gives the argument back. Only a
    str has [replace]. *)
Definition format_time (timezone : pystr) (iso_time : pyval) : pyval :=
  match iso_time with
  | PStr s =>
      match localize timezone (replace (lit "Z") (lit "+00:00") s) with
      | Some local => PStr (lstrip_zero (strftime local))
      | None => iso_time
      end
  | _ => iso_time
  end.

(** [get_tv_channel(competition)] *)
Definition get_tv_channel (competition : pyval) : exc pystr :=
  broadcasts ← dict_get competition (lit "broadcasts") (PList []);
  if negb (truthy broadcasts) then Ok (lit "TBD")
  else
    bs ← py_iter broadcasts;
    names ← foldM (λ names b,
               ns ← dict_get b (lit "names") (PList []);
               ns ← py_iter ns;
               Ok (names ++ ns)) bs [];
    match names with
    | [] => Ok (lit "TBD")
    | _ => py_join (lit ", ") names
    end.

(** [f"Council {num} ({councils[num]['official_name']})"] *)
Definition council_label (num : pystr) (councils : pyval) : exc pystr :=
  info ← subscript_key councils num;
  name ← subscript_key info (lit "official_name");
  Ok (lit "Council " ++ num ++ lit " (" ++ py_str name ++ lit ")").

(** One mention: the role id when the map has one, the textual name
    otherwise. *)
Definition mention (role_id : pyval) (num : pystr) (councils : pyval) : exc pystr :=
  if truthy role_id then Ok (lit "<@&" ++ py_str role_id ++ lit ">")
  else council_label num councils.

(** [build_role_mentions(council_home_num, council_away_num, councils, role_id_map)] *)
Definition build_role_mentions (home_num away_num : pystr) (councils role_id_map : pyval)
  : exc pystr :=
  if truthy role_id_map then
    home_id ← dict_get role_id_map home_num PNone;
    away_id ← dict_get role_id_map away_num PNone;
    m1 ← mention home_id home_num councils;
    m2 ← mention away_id away_num councils;
    Ok (join (lit " ") [m1; m2])
  else
    name1 ← council_label home_num councils;
    name2 ← council_label away_num councils;
    Ok (join (lit " ") [name1; name2]).

(** ** The notifier *)

(** [post_to_discord(webhook_url, content)], from the reply of the webhook *)
Definition post_to_discord (reply : http_result) : exc http_result :=
  match reply with
  | NoResponse => Raise RequestException
  | Response code _ =>
      if (400 <=? code)%Z then _ ← raise_for_status code; Ok reply
      else Ok reply
  end.

(** ** The run *)

(** The environment variables, after their defaults. An unset variable and
    an empty one are both [[]]: the script only tests them with [not]. *)
Record config := Config {
  DISCORD_WEBHOOK : pystr;
  GITHUB_TOKEN : pystr;
  GITHUB_REPOSITORY : pystr;
  POSTED_STORE_ISSUE_TITLE : pystr;
  TIMEZONE : pystr;
  ROLE_ID_MAP_JSON : pystr
}.

(** What the run reads from outside and how the outside answers. *)
Record world := World {
  (** the text of the council file, [None] when the file does not exist *)
  council_file : option pystr;
  (** the listing of the open issues and the creation of the store issue *)
  issue_listing : http_result;
  issue_creation : http_result;
  (** the request for the issue of a given number *)
  issue_get : pyval → http_result;
  (** the scoreboard of a given URL *)
  scoreboard : pystr → http_result;
  (** the webhook, on the [k]-th message of the batch *)
  webhook : nat → pystr → http_result;
  (** the replacement of the body of the issue of a given number *)
  issue_patch : pyval → pystr → http_result;
  (** the texts with surrogate code points that the standard output takes
      all the same: none under the error handler [strict], more under
      [surrogateescape] or [replace] *)
  stdout_accepts : pystr → bool
}.

(** The standard output is UTF-8, which encodes every code point but the
    surrogates: a text without surrogates is written, a text with one only
    when the error handler of the stream lets it pass. *)
Definition is_surrogate (c : N) : bool := is_high_surrogate c || is_low_surrogate c.

Definition writable (w : world) (text : pystr) : bool :=
  forallb (λ c, negb (is_surrogate c)) text || stdout_accepts w text.

(** [print(a, b, ...)] encodes its arguments one by one and raises on the
    first that the stream does not take. *)
Definition py_print (w : world) (args : list pystr) : exc unit :=
  if forallb (writable w) args then Ok () else Raise UnicodeEncodeError.

Definition BASKETBALL_URL : pystr :=
  lit "https://site.api.espn.com/apis/site/v2/sports/basketball/mens-college-basketball/scoreboard".
Definition FOOTBALL_URL : pystr :=
  lit "https://site.api.espn.com/apis/site/v2/sports/football/college-football/scoreboard".

Definition sources : list (pystr * pystr) :=
  [ (BASKETBALL_URL, lit "üèÄ Men's Basketball");
    (FOOTBALL_URL, lit "üèà Football") ].

(** [load_councils(path)] *)
Definition load_councils (file : option pystr) : exc pyval :=
  match file with
  | None => Raise SystemExit
  | Some text => match json_loads text with Some v => Ok v | None => Raise ValueError end
  end.

(** The loop that finds the home and the away competitor, and the
    positional fallback. *)
Definition pick_side (sides : pyval * pyval) (t : pyval) : exc (pyval * pyval) :=
  side ← dict_get t (lit "homeAway") PNone;
  if str_eq side (lit "home") then Ok (t, sides.2)
  else if str_eq side (lit "away") then Ok (sides.1, t)
  else Ok sides.

Definition home_and_away (competitors : pyval) : exc (pyval * pyval) :=
  ts ← py_iter competitors;
  sides ← foldM pick_side ts (PNone, PNone);
  if negb (truthy sides.1) || negb (truthy sides.2) then
    home ← subscript_index competitors 0;
    away ← subscript_index competitors 1;
    Ok (home, away)
  else Ok sides.

(** The text of the announcement of a match. *)
Definition build_message (cfg : config) (councils role_id_map : pyval) (sport : pystr)
    (comp : pyval) (home_cid away_cid : pystr) : exc pystr :=
  home_info ← subscript_key councils home_cid;
  away_info ← subscript_key councils away_cid;
  hc ← dict_get home_info (lit "council") PNone;
  let home_cnum := py_str hc in
  ac ← dict_get away_info (lit "council") PNone;
  let away_cnum := py_str ac in
  neutral ← dict_get comp (lit "neutralSite") (PBool false);
  v ← dict_get comp (lit "venue") (PDict []);
  let venue := py_or v (PDict []) in
  full ← dict_get venue (lit "fullName") PNone;
  stadium ← (if truthy full then Ok full
             else n ← dict_get venue (lit "name") PNone; Ok (py_or n (PStr (lit "TBD"))));
  address ← dict_get venue (lit "address") (PDict []);
  city ← dict_get address (lit "city") (PStr []);
  address ← dict_get venue (lit "address") (PDict []);
  state ← dict_get address (lit "state") (PStr []);
  let location :=
    if truthy city
    then py_str stadium ++ lit " (" ++ py_str city ++ lit ", " ++ py_str state ++ lit ")"
    else py_str stadium in
  site_label ← (if truthy neutral then Ok (lit "üèüÔ∏è Neutral Site")
                else name ← dict_get home_info (lit "official_name") PNone;
                     Ok (lit "üè† " ++ py_str name ++ lit " home game"));
  start_iso ← dict_get comp (lit "startDate") PNone;
  let start_str :=
    if truthy start_iso then py_str (format_time (TIMEZONE cfg) start_iso) else lit "TBD" in
  tv ← get_tv_channel comp;
  role_mentions ← build_role_mentions home_cnum away_cnum councils role_id_map;
  home_name ← dict_get home_info (lit "official_name") PNone;
  away_name ← dict_get away_info (lit "official_name") PNone;
  Ok (join [0x0A]
        [ lit "‚öîÔ∏è **COLLEGE COUNCIL MATCHUP**";
          [];
          sport;
          lit "üïñ " ++ start_str;
          lit "üì∫ " ++ tv;
          lit "üìç " ++ location;
          site_label;
          [];
          lit "üéì " ++ py_str home_name ++ lit " (Council " ++ home_cnum ++ lit ")";
          lit "vs";
          lit "üéì " ++ py_str away_name ++ lit " (Council " ++ away_cnum ++ lit ")";
          [];
          role_mentions ]).

(** The cid of a resolved participant: [None] and the empty string are
    both falsy. *)
Definition resolved (cid : option pystr) : option pystr :=
  match cid with
  | Some (c :: r) => Some (c :: r)
  | _ => None
  end.

(** The competition of an event and its two participants: [None] where
    the source says [continue] for want of two competitors. *)
Definition participants (event : pyval) : exc (option (pyval * pyval * pyval)) :=
  comps ← dict_get event (lit "competitions") (PList [PDict []]);
  comp ← subscript_index comps 0;
  competitors ← dict_get comp (lit "competitors") (PList []);
  n ← py_len competitors;
  if (n <? 2)%nat then Ok None
  else '(home, away) ← home_and_away competitors; Ok (Some (comp, home, away)).

(** [game_id = str(event.get("id"))] *)
Definition game_id_of (event : pyval) : exc pystr :=
  id ← dict_get event (lit "id") PNone; Ok (py_str id).

(** The body of the loop over the events of one scoreboard: [None] where
    the source says [continue], the pair appended to [to_post] otherwise. *)
Definition scan_event (cfg : config) (councils role_id_map : pyval) (t : lookups)
    (posted : pyset) (sport : pystr) (event : pyval) : exc (option (pystr * pystr)) :=
  game_id ← game_id_of event;
  if negb (truthy (PStr game_id)) || bool_decide (AStr game_id ∈ posted) then Ok None
  else
    sides ← participants event;
    match sides with
    | None => Ok None
    | Some (comp, home, away) =>
        home_cid ← resolve_team home (alias_lookup t) (espn_id_lookup t);
        away_cid ← resolve_team away (alias_lookup t) (espn_id_lookup t);
        match resolved home_cid, resolved away_cid with
        | Some h, Some a =>
            message ← build_message cfg councils role_id_map sport comp h a;
            Ok (Some (game_id, message))
        | _, _ => Ok None
        end
    end.

(** The fetch of one scoreboard: [None] where the [try] block fails. *)
Definition fetch (reply : http_result) : option pyval :=
  match reply with
  | NoResponse => None
  | Response code js =>
      match raise_for_status code, js with
      | Ok _, Some data => Some data
      | _, _ => None
      end
  end.

(** The events of one scoreboard, appended to [to_post]. *)
Definition scan_source (cfg : config) (councils role_id_map : pyval) (t : lookups)
    (posted : pyset) (w : world) (to_post : list (pystr * pystr)) (source : pystr * pystr)
  : exc (list (pystr * pystr)) :=
  match fetch (scoreboard w source.1) with
  | None => Ok to_post
  | Some data =>
      events ← dict_get data (lit "events") (PList []);
      events ← py_iter events;
      foldM (λ to_post event,
               r ← scan_event cfg councils role_id_map t posted source.2 event;
               Ok (match r with Some p => to_post ++ [p] | None => to_post end))
            events to_post
  end.

(** The loop that posts the batch: the set of posted ids and the messages
    sent to the webhook, in order. The [k]-th message of the run gets the
    [k]-th reply. The [try] block is the post, [posted.add(game_id)] and a
    print of the id; the handler prints the id again, and what the handler
    raises leaves the loop and [main]. *)
Fixpoint post_all (w : world) (k : nat)
    (to_post : list (pystr * pystr)) (posted : pyset) : exc (pyset * list pystr) :=
  match to_post with
  | [] => Ok (posted, [])
  | (game_id, message) :: rest =>
      let reply := post_to_discord (webhook w k message) in
      let posted' :=
        match reply with
        | Ok _ => {[AStr game_id]} ∪ posted
        | Raise _ => posted
        end in
      _ ← match reply ≫= λ _, py_print w [lit "Posted game"; game_id] with
          | Ok _ => Ok ()
          | Raise _ => py_print w [lit "Failed to post game"; game_id]
          end;
      '(final, sent) ← post_all w (S k) rest posted';
      Ok (final, message :: sent)
  end.

(** What a run that reaches its end has done. *)
Record run := Run {
  (** the matches found, as appended to [to_post] *)
  run_batch : list (pystr * pystr);
  (** the messages sent to the webhook *)
  run_sent : list pystr;
  (** the set handed to [write_posted_set_to_issue] *)
  run_posted : pyset;
  (** the body stored in the issue, [None] when the write failed *)
  run_stored : option pystr
}.

(** [main()]: [Raise] is a run that ends on an uncaught exception or on
    [sys.exit(1)]. The prints of [main] outside the loop that posts write
    literals and counts, which every stream takes. *)
Definition main (cfg : config) (w : world) : exc run :=
  match DISCORD_WEBHOOK cfg, GITHUB_TOKEN cfg, GITHUB_REPOSITORY cfg with
  | [], _, _ | _, [], _ | _, _, [] => Raise SystemExit
  | _, _, _ =>
      councils ← load_councils (council_file w);
      t ← build_lookup councils;
      let role_id_map :=
        match ROLE_ID_MAP_JSON cfg with
        | [] => PDict []
        | text => default (PDict []) (json_loads text)
        end in
      '(issue_num, _) ← find_or_create_issue (GITHUB_TOKEN cfg) (GITHUB_REPOSITORY cfg)
                          (POSTED_STORE_ISSUE_TITLE cfg) (issue_listing w) (issue_creation w);
      posted ← read_posted_set_from_issue (issue_get w issue_num);
      to_post ← foldM (scan_source cfg councils role_id_map t posted w) sources [];
      '(final, sent) ← post_all w 0 to_post posted;
      let stored :=
        match write_posted_set_to_issue (issue_patch w issue_num) final with
        | Ok body => Some body
        | Raise _ => None
        end in
      Ok (Run to_post sent final stored)
  end.

End Program.

(** ** The specification's resolution order

    The resolution of a participant as the specification words it: an
    ordered list of strategies, of which the first that succeeds decides. *)

Section Spec.
Context {R : PyRuntime}.

(** The first strategy that gives an id decides; a strategy that raises
    ends the resolution when it is reached. *)
Fixpoint first_success (strategies : list (exc (option pystr))) : exc (option pystr) :=
  match strategies with
  | [] => Ok None
  | Ok (Some cid) :: _ => Ok (Some cid)
  | Ok None :: rest => first_success rest
  | Raise e :: _ => Raise e
  end.

(** (a) the external-id table, keyed by the id the source gave the team *)
Definition by_external_id (team : pyval) (el : gmap pystr pystr) : exc (option pystr) :=
  team_id ← dict_get team (lit "id") PNone;
  Ok (if truthy team_id then el !! py_str team_id else None).

(** (b) the alias table, keyed by the normalized primary display name *)
Definition by_display_name (team : pyval) (al : gmap pystr pystr) : exc (option pystr) :=
  d ← dict_get team (lit "displayName") (PStr []);
  display ← (if truthy d then Ok d else dict_get team (lit "shortDisplayName") (PStr []));
  norm ← normalize display;
  Ok (al !! norm).

(** (c) the alias table, keyed by one fallback name field *)
Definition by_name_field (team : pyval) (al : gmap pystr pystr) (key : pystr)
  : exc (option pystr) :=
  v ← dict_get team key PNone;
  if truthy v then k ← normalize v; Ok (al !! k) else Ok None.

(** The fallback name fields, in the order the specification gives them. *)
Definition spec_name_fields : list pystr :=
  [lit "name"; lit "displayName"; lit "shortDisplayName"; lit "location";
   lit "abbreviation"].

Definition resolve_team_spec (team_obj : pyval) (al el : gmap pystr pystr)
  : exc (option pystr) :=
  team ← dict_get team_obj (lit "team") (PDict []);
  first_success
    (by_external_id team el :: by_display_name team al
       :: map (by_name_field team al) spec_name_fields).

(** The aliases one registry entry registers, normalized, in the order of
    their registration: every name of every alias group, then the official
    name. *)
Definition entry_aliases (info : pyval) : exc (list pystr) :=
  aliases ← dict_get info (lit "aliases") (PDict []);
  groups ← py_values aliases;
  ks ← foldM (λ ks group,
          names ← py_iter group;
          foldM (λ ks a, k ← normalize a; Ok (ks ++ [k])) names ks) groups [];
  name ← dict_get info (lit "official_name") PNone;
  official ← (if truthy name then Ok name else dict_get info (lit "official") (PStr []));
  if truthy official then k ← normalize official; Ok (ks ++ [k]) else Ok ks.

End Spec.

(** A str that [json.dumps] and [json.loads] carry unchanged: its code
    points are in the range of Unicode, and no high surrogate stands right
    before a low surrogate (the two would be read back as one character). *)
Fixpoint json_text (s : pystr) : Prop :=
  match s with
  | [] => True
  | c :: r =>
      c ≤ 0x10FFFF
      ∧ match r with
        | d :: _ => ¬ (is_high_surrogate c = true ∧ is_low_surrogate d = true)
        | [] => True
        end
      ∧ json_text r
  end.

(** ** A small runtime, to run the model on examples

    It serves to evaluate the model on the examples below, and is not the
    runtime of Python beyond them: it knows the characters of Latin-1 and
    the Greek sigmas, prints a float as its literal, orders booleans and
    integers (it does not know the value of a float), and knows the zone UTC
    for times written to the minute or to the second with a zero offset;
    any other zone or form of time is [None] for it. *)

Definition latin_upper (c : N) : bool :=
  ((0x41 <=? c) && (c <=? 0x5A)) || ((0xC0 <=? c) && (c <=? 0xD6))
  || ((0xD8 <=? c) && (c <=? 0xDE)).

Definition latin_lower (c : N) : pystr :=
  if latin_upper c then [c + 0x20]
  else if c =? 0x3A3 then [0x3C3]
  else [c].

Definition latin_cased (c : N) : bool :=
  latin_upper c || ((0x61 <=? c) && (c <=? 0x7A))
  || (c =? 0xAA) || (c =? 0xB5) || (c =? 0xBA)
  || ((0xDF <=? c) && (c <=? 0xF6)) || ((0xF8 <=? c) && (c <=? 0xFF))
  || (c =? 0x3A3) || (c =? 0x3C3) || (c =? 0x3C2).

Definition latin_case_ignorable (c : N) : bool :=
  (c =? 0x27) || (c =? 0x2E) || (c =? 0x3A) || (c =? 0x5E) || (c =? 0x60)
  || (c =? 0xA8) || (c =? 0xAD) || (c =? 0xAF) || (c =? 0xB4) || (c =? 0xB7)
  || (c =? 0xB8).

Fixpoint plain_repr (v : pyval) : pystr :=
  match v with
  | PNone => lit "None"
  | PBool true => lit "True"
  | PBool false => lit "False"
  | PInt z => str_of_Z z
  | PFloat [] => lit "0.0"
  | PFloat x => x
  | PStr s => lit "'" ++ s ++ lit "'"
  | PList l => lit "[" ++ join (lit ", ") (map plain_repr l) ++ lit "]"
  | PDict d =>
      lit "{"
      ++ join (lit ", ")
           (map (λ kv, let '(k, x) := kv in lit "'" ++ k ++ lit "': " ++ plain_repr x) d)
      ++ lit "}"
  end.

Definition atom_number (a : atom) : Z :=
  match a with
  | ABool true => 1
  | AInt z => z
  | _ => 0
  end.

Definition number_le (a b : atom) : Prop := (atom_number a ≤ atom_number b)%Z.

#[export] Instance number_le_dec : RelDecision number_le.
Proof. intros a b. unfold number_le. apply _. Defined.

Definition decimal (ds : pystr) : option N :=
  if forallb is_digit ds then Some (Z.to_N (digits_value ds)) else None.

Definition leap_year (y : N) : bool :=
  ((y mod 4 =? 0) && negb (y mod 100 =? 0)) || (y mod 400 =? 0).

Definition days_in_month (y m : N) : N :=
  if m =? 2 then (if leap_year y then 29 else 28)
  else if (m =? 4) || (m =? 6) || (m =? 9) || (m =? 11) then 30
  else 31.

(** The time of day after [YYYY-MM-DDT]: [HH:MM] or [HH:MM:SS], and the
    offset [+00:00]. *)
Definition utc_time_of_day (s : pystr) : option (N * N) :=
  match s with
  | [h1; h2; c; n1; n2; p; z1; z2; c2; z3; z4] =>
      if bool_decide ([c; p; z1; z2; c2; z3; z4] = lit ":+00:00") then
        h ← decimal [h1; h2]; n ← decimal [n1; n2];
        if (h <? 24) && (n <? 60) then Some (h, n) else None
      else None
  | [h1; h2; c; n1; n2; c'; s1; s2; p; z1; z2; c2; z3; z4] =>
      if bool_decide ([c; c'; p; z1; z2; c2; z3; z4] = lit "::+00:00") then
        h ← decimal [h1; h2]; n ← decimal [n1; n2]; sec ← decimal [s1; s2];
        if (h <? 24) && (n <? 60) && (sec <? 60) then Some (h, n) else None
      else None
  | _ => None
  end.

(** [YYYY-MM-DDTHH:MM+00:00] and [YYYY-MM-DDTHH:MM:SS+00:00], a date of the
    calendar, in the zone UTC *)
Definition utc_localize (zone text : pystr) : option local_time :=
  if bool_decide (zone = lit "UTC") then
    match text with
    | y1 :: y2 :: y3 :: y4 :: d1 :: m1 :: m2 :: d2 :: a1 :: a2 :: t :: time =>
        if bool_decide ([d1; d2; t] = lit "--T") then
          y ← decimal [y1; y2; y3; y4]; m ← decimal [m1; m2]; d ← decimal [a1; a2];
          '(h, n) ← utc_time_of_day time;
          if (1 <=? y) && (1 <=? m) && (m <=? 12) && (1 <=? d) && (d <=? days_in_month y m)
          then Some (LocalTime y m d h n (lit "UTC"))
          else None
        else None
    | _ => None
    end
  else None.

(** Whether the float of a literal is not zero, short of underflow: it is
    [NaN] or an infinity, or its mantissa has a digit other than zero. *)
Fixpoint mantissa (x : pystr) : pystr :=
  match x with
  | [] => []
  | c :: r => if (c =? 0x65) || (c =? 0x45) then [] else c :: mantissa r
  end.

Definition literal_nonzero (x : pystr) : bool :=
  existsb (λ c, (c =? 0x4E) || (c =? 0x49)) x
  || existsb (λ c, (0x31 <=? c) && (c <=? 0x39)) (mantissa x).

Definition latin_runtime : PyRuntime := {|
  lower_full := latin_lower;
  is_cased := latin_cased;
  is_case_ignorable := latin_case_ignorable;
  py_repr := plain_repr;
  float_nonzero := literal_nonzero;
  float_json := λ x, x;
  sort_numbers := merge_sort number_le;
  localize := utc_localize
|}.

(** JSON text is written between apostrophes in the examples: [dq] turns
    them into the double quotes of JSON. *)
Definition dq (s : string) : pystr := map (λ c, if c =? 0x27 then 0x22 else c) (lit s).

(** The examples run on one registry of two councils, a matching game
    between them, and the store issue number 7. *)

Definition example_registry : pystr := dq
  "{'foo': {'official_name': 'Foo University', 'council': 100,
            'aliases': {'espn': ['Foo U']}, 'espn_ids': [11]},
    'bar': {'official_name': 'Bar Tech', 'council': 200,
            'aliases': {'espn': ['Bar Tech'], 'common': ['Bar-Tech Inst.']}}}".

Definition example_councils : pyval := default PNone (json_loads example_registry).

Definition example_roles : pystr := dq "{'100': 'r100', '200': 'r200'}".

(** A game of Foo (ESPN id 11) against Bar Tech; [id_field] is the text of
    its id field, with the comma that follows. *)
Definition example_event_text (id_field : string) : string :=
  ("{" ++ id_field ++ "'competitions': [{'competitors': [
       {'homeAway': 'home', 'team': {'id': '11', 'displayName': 'Foo'}},
       {'homeAway': 'away', 'team': {'displayName': 'BAR-TECH INST.'}}],
     'startDate': '2025-01-05T07:00Z',
     'venue': {'fullName': 'Hall', 'address': {'city': 'Ames', 'state': 'IA'}},
     'broadcasts': [{'names': ['ESPN', 'ABC']}]}]}")%string.

Definition example_event (id_field : string) : pyval :=
  default PNone (json_loads (dq (example_event_text id_field))).

(** A scoreboard with the events of the given id fields. *)
Definition example_scoreboard (id_fields : list string) : option pyval :=
  json_loads
    (lit "{" ++ dq "'events': ["
     ++ join (lit ", ") ((λ f, dq (example_event_text f)) <$> id_fields)
     ++ lit "]}").

Definition example_config : config := {|
  DISCORD_WEBHOOK := lit "https://discord.example/hook";
  GITHUB_TOKEN := lit "token";
  GITHUB_REPOSITORY := lit "owner/repo";
  POSTED_STORE_ISSUE_TITLE := lit "KofC-posted-games-store";
  TIMEZONE := lit "UTC";
  ROLE_ID_MAP_JSON := example_roles
|}.

(** A world whose store issue has the body [stored], whose two scoreboards
    are [basketball] and [football], and whose webhook answers [hook]. *)
Definition example_world (stored : string) (basketball football : http_result)
    (hook : nat → pystr → http_result) : world := {|
  council_file := Some example_registry;
  issue_listing :=
    Response 200
      (json_loads (dq "[{'title': 'other', 'number': 3},
                        {'title': 'KofC-posted-games-store', 'number': 7, 'body': '[]'}]"));
  issue_creation := NoResponse;
  issue_get := λ number,
    Response 200 (Some (PDict [(lit "number", number); (lit "body", PStr (dq stored))]));
  scoreboard := λ url,
    if bool_decide (url = BASKETBALL_URL) then basketball
    else if bool_decide (url = FOOTBALL_URL) then football
    else NoResponse;
  webhook := hook;
  issue_patch := λ _ _, Response 200 None;
  stdout_accepts := λ _, false
|}.

Definition example_lookups : lookups :=
  match build_lookup (R := latin_runtime) example_councils with
  | Ok t => t
  | Raise _ => Lookups ∅ ∅ ∅
  end.

Definition example_role_map : pyval := default (PDict []) (json_loads example_roles).

(** The webhook that refuses the first message of a run with the status
    500 and takes the others. *)
Definition first_post_fails (k : nat) (message : pystr) : http_result :=
  match k with
  | O => Response 500 None
  | S _ => Response 204 None
  end.

(** One scoreboard with the games 401 and 402; the other does not answer. *)
Definition two_games_world : world :=
  example_world "[]"
    (Response 200 (example_scoreboard ["'id': '401', "; "'id': '402', "]%string))
    NoResponse
    first_post_fails.

(** The store holds the id 402, one scoreboard does not answer, the other
    has the games 401 and 402, and the webhook takes every message. *)
Definition one_source_down_world : world :=
  example_world "['402']"
    NoResponse
    (Response 200 (example_scoreboard ["'id': '401', "; "'id': '402', "]%string))
    (λ _ _, Response 204 None).

(** Each scoreboard has a game with the id 401. *)
Definition same_id_world : world :=
  example_world "[]"
    (Response 200 (example_scoreboard ["'id': '401', "]%string))
    (Response 200 (example_scoreboard ["'id': '401', "]%string))
    first_post_fails.

Definition run_of (outcome : exc run) : run :=
  match outcome with
  | Ok r => r
  | Raise _ => Run [] [] ∅ None
  end.

(** Two entries that register the alias Foo U. *)
Definition shared_alias_registry : pystr := dq
  "{'first': {'council': 1, 'aliases': {'espn': ['Foo U']}},
    'second': {'council': 2, 'aliases': {'common': ['foo u.']}}}".

(** ** Notions used in the proofs *)

(** A word of [split]: not empty, without whitespace. *)
Definition word (w : pystr) : Prop := w ≠ [] ∧ Forall (λ c, isspace c = false) w.

(** No whitespace at the head. *)
Definition tight (s : pystr) : Prop :=
  match s with [] => True | c :: _ => isspace c = false end.

(** A character that [normalize] leaves alone when it replaces. *)
Definition clean (c : N) : Prop :=
  c ≠ 0x26 ∧ c ≠ 0x2E ∧ c ≠ 0x2C ∧ c ≠ 0x2D ∧ c ≠ 0x27 ∧ c ≠ 0xC4.

(** A character that [lower] leaves alone. *)
Definition low {R : PyRuntime} (c : N) : Prop := lower_full c = [c] ∧ c ≠ 0x3A3.

(** The alias table after the registration of the keys [ks] for [cid]. *)
Definition register_keys (cid : pystr) (ks : list pystr) (al : gmap pystr pystr)
  : gmap pystr pystr :=
  foldl (λ m k, <[k := cid]> m) al ks.

(** The separator of [json.dumps(..., indent=2)] between two items. *)
Definition item_separator : pystr := [0x2C; 0x0A; 0x20; 0x20].

(** The shapes of an escaped character. *)
Inductive escape_shape (c : N) : pystr → Prop :=
  | shape_short e :
      e ≠ 0x75 → unescape e = Some c → escape_shape c [0x5C; e]
  | shape_raw :
      c ≠ 0x22 → c ≠ 0x5C → 0x20 ≤ c → escape_shape c [c]
  | shape_u :
      c < 0x10000 → escape_shape c (escape_u c)
  | shape_pair hi lo :
      is_high_surrogate hi = true → is_low_surrogate lo = true →
      join_surrogates hi lo = c →
      escape_shape c (escape_u hi ++ escape_u lo).

(** ** Notions used in the properties of the whole program *)

(** The punctuation that [normalize] removes or turns into a space. *)
Definition punctuation (c : N) : bool :=
  (c =? 0x26) || (c =? 0x2E) || (c =? 0x2C) || (c =? 0x2D) || (c =? 0x27).

Definition ascii_upper (c : N) : bool := (0x41 <=? c) && (c <=? 0x5A).

(** The entries of a replacement table whose key is made of ASCII
    characters. *)
Definition ascii_keys (table : list (pystr * pystr)) : list (pystr * pystr) :=
  List.filter (λ kv, forallb (λ c, c <? 0x80) kv.1) table.

(** The ESPN ids one registry entry registers, as the strings that key the
    table, in the order of their registration. *)
Definition entry_espn_ids {R : PyRuntime} (info : pyval) : exc (list pystr) :=
  ids ← dict_get info (lit "espn_ids") (PList []);
  ids ← py_iter ids;
  Ok (map py_str ids).

(** A value that [normalize] takes: a str, or [None]. *)
Definition name_like (v : pyval) : Prop := v = PNone ∨ ∃ s, v = PStr s.

Definition is_dict (v : pyval) : Prop := ∃ d, v = PDict d.

(** A competitor marked for one side: its [homeAway] field is [side]. *)
Definition side_is (side : string) (t : pyval) : bool :=
  match t with
  | PDict d => str_eq (default PNone (assoc (lit "homeAway") d)) (lit side)
  | _ => false
  end.

(** An issue of the listing that does not have the title looked for. *)
Definition other_issue (title : pystr) (issue : pyval) : Prop :=
  ∃ d, issue = PDict d ∧ str_eq (default PNone (assoc (lit "title") d)) title = false.

(** The names one broadcast of a competition lists. *)
Definition broadcast_names (b : pyval) (ns : list pystr) : Prop :=
  ∃ d, b = PDict d ∧ default (PList []) (assoc (lit "names") d) = PList (PStr <$> ns).

(** The shapes that the program expects of what it reads. *)

Section Shapes.
Context {R : PyRuntime}.

(** A registry entry of the expected shape: an object whose alias groups
    are lists of names, whose official name is a name, and whose ESPN ids
    are a list. *)
Definition well_formed_entry (info : pyval) : Prop :=
  ∃ d, info = PDict d
    ∧ (∃ groups, default (PDict []) (assoc (lit "aliases") d) = PDict groups
         ∧ Forall (λ g, ∃ names, g.2 = PList names ∧ Forall name_like names) groups)
    ∧ name_like (default PNone (assoc (lit "official_name") d))
    ∧ name_like (default (PStr []) (assoc (lit "official") d))
    ∧ (∃ ids, default (PList []) (assoc (lit "espn_ids") d) = PList ids).

(** A competitor of the expected shape: an object whose team is an object
    with names that are strings or null. *)
Definition well_formed_competitor (c : pyval) : Prop :=
  ∃ d team,
    c = PDict d
    ∧ default (PDict []) (assoc (lit "team") d) = PDict team
    ∧ ∀ key v, key ∈ lit "shortDisplayName" :: fallback_keys →
               assoc key team = Some v → name_like v.

(** A venue of the expected shape: nothing, or an object whose address,
    when it has one, is an object. *)
Definition well_formed_venue (v : pyval) : Prop :=
  truthy v = false
  ∨ ∃ d, v = PDict d ∧ is_dict (default (PDict []) (assoc (lit "address") d)).

(** A competition of the expected shape: a list of competitors, a venue,
    and broadcasts that are objects with lists of names. *)
Definition well_formed_competition (comp : list (pystr * pyval)) : Prop :=
  (∃ cs, default (PList []) (assoc (lit "competitors") comp) = PList cs
         ∧ Forall well_formed_competitor cs)
  ∧ well_formed_venue (default (PDict []) (assoc (lit "venue") comp))
  ∧ (∃ bs nss, default (PList []) (assoc (lit "broadcasts") comp) = PList bs
               ∧ Forall2 broadcast_names bs nss).

(** An event of the expected shape: an object whose first competition is
    of the expected shape. *)
Definition well_formed_event (event : pyval) : Prop :=
  ∃ d comp comps,
    event = PDict d
    ∧ default (PList [PDict []]) (assoc (lit "competitions") d) = PList (PDict comp :: comps)
    ∧ well_formed_competition comp.

(** A registry whose entries are objects, with a role id in the role map
    for the council number of each. *)
Definition registry_with_roles (entries role_id_map : list (pystr * pyval)) : Prop :=
  Forall (λ entry, ∃ d role_id,
            entry.2 = PDict d
            ∧ assoc (py_str (default PNone (assoc (lit "council") d))) role_id_map
              = Some role_id
            ∧ truthy role_id = true) entries.

End Shapes.

(** The events of a scoreboard, as the loop of [main] goes through them:
    none when the scoreboard cannot be fetched. *)
Definition source_events (w : world) (source : pystr * pystr) : list pyval :=
  match fetch (scoreboard w source.1) with
  | Some data =>
      match dict_get data (lit "events") (PList []) ≫= py_iter with
      | Ok events => events
      | Raise _ => []
      end
  | None => []
  end.

(** The matches among some events, in the order of the events. *)
Definition event_matches {R : PyRuntime} (cfg : config) (councils role_id_map : pyval)
    (t : lookups) (posted : pyset) (sport : pystr) (events : list pyval)
  : list (pystr * pystr) :=
  omap (λ event,
          match scan_event cfg councils role_id_map t posted sport event with
          | Ok (Some p) => Some p
          | _ => None
          end) events.

(** An event whose id the standard output can write. *)
Definition writable_id {R : PyRuntime} (w : world) (event : pyval) : Prop :=
  ∀ gid, game_id_of event = Ok gid → writable w gid = true.

(** The role map of a run: what [main] makes of [ROLE_ID_MAP_JSON]. *)
Definition run_role_map (cfg : config) : pyval :=
  match ROLE_ID_MAP_JSON cfg with
  | [] => PDict []
  | text => default (PDict []) (json_loads text)
  end.

(** The world with another webhook and other replies to the final write. *)
Definition with_replies (w : world) (hook : nat → pystr → http_result)
    (patch : pyval → pystr → http_result) : world :=
  World (council_file w) (issue_listing w) (issue_creation w) (issue_get w)
        (scoreboard w) hook patch (stdout_accepts w).

(** The world in which the requests for the store issue get other replies:
    the world of a later run. *)
Definition with_store (w : world) (get : pyval → http_result) : world :=
  World (council_file w) (issue_listing w) (issue_creation w) get
        (scoreboard w) (webhook w) (issue_patch w) (stdout_accepts w).

(** The matches of a batch whose ids are not in a set of posted ids. *)
Definition unrecorded (posted : pyset) (batch : list (pystr * pystr)) : list (pystr * pystr) :=
  List.filter (λ p, negb (bool_decide (AStr p.1 ∈ posted))) batch.

(** More examples: the entries of the registries, a registry whose
    canonical ids are the council numbers, and worlds in which something
    fails. *)

Definition entries_of (text : pystr) : list (pystr * pyval) :=
  match json_loads text with
  | Some (PDict d) => d
  | _ => []
  end.

Definition example_entries : list (pystr * pyval) := entries_of example_registry.

Definition shared_alias_entries : list (pystr * pyval) := entries_of shared_alias_registry.

Definition example_role_entries : list (pystr * pyval) := entries_of example_roles.

Definition numbered_entries : list (pystr * pyval) := entries_of (dq
  "{'100': {'official_name': 'Foo University', 'council': 100},
    '200': {'official_name': 'Bar Tech', 'council': 200}}").

(** A game of Foo against Bar Tech of which the scoreboard gives the two
    sides only, and a world whose basketball scoreboard has this game. *)
Definition plain_event : pyval :=
  PDict [(lit "id", PStr (lit "500"));
         (lit "competitions",
          PList [PDict [(lit "competitors",
                         PList [PDict [(lit "homeAway", PStr (lit "home"));
                                       (lit "team", PDict [(lit "id", PStr (lit "11"))])];
                                PDict [(lit "homeAway", PStr (lit "away"));
                                       (lit "team",
                                        PDict [(lit "displayName", PStr (lit "Bar Tech"))])]])]])].

Definition plain_world : world :=
  example_world "[]"
    (Response 200 (Some (PDict [(lit "events", PList [plain_event])])))
    NoResponse
    (λ _ _, Response 204 None).

(** The store holds the id 402 and no scoreboard answers. *)
Definition both_down_world : world :=
  example_world "['402']" NoResponse NoResponse (λ _ _, Response 204 None).

(** A scoreboard with an event whose list of competitions is empty. *)
Definition empty_competitions_world : world :=
  example_world "[]"
    (Response 200 (json_loads (dq "{'events': [{'id': '9', 'competitions': []}]}")))
    NoResponse
    (λ _ _, Response 204 None).

(** The listing of the issues does not answer. *)
Definition store_down_world : world := {|
  council_file := Some example_registry;
  issue_listing := NoResponse;
  issue_creation := NoResponse;
  issue_get := λ _, NoResponse;
  scoreboard := λ _, NoResponse;
  webhook := λ _ _, Response 204 None;
  issue_patch := λ _ _, Response 200 None;
  stdout_accepts := λ _, false
|}.

(** The store issue, once it holds [body]. *)
Definition serving (body : pystr) (number : pyval) : http_result :=
  Response 200 (Some (PDict [(lit "number", number); (lit "body", PStr body)])).

(** A listing of two open issues, the second of which is the store. *)
Definition example_listing : list pyval :=
  [ PDict [(lit "title", PStr (lit "other")); (lit "number", PInt 3)];
    PDict [(lit "title", PStr (lit "KofC-posted-games-store")); (lit "number", PInt 7);
           (lit "body", PStr (lit "[]"))] ].

(** The store issue is listed, and the request for it is refused. *)
Definition unreadable_store_world : world := {|
  council_file := Some example_registry;
  issue_listing := Response 200 (Some (PList example_listing));
  issue_creation := NoResponse;
  issue_get := λ _, Response 404 None;
  scoreboard := λ _, NoResponse;
  webhook := λ _ _, Response 204 None;
  issue_patch := λ _ _, Response 200 None;
  stdout_accepts := λ _, false
|}.

(** A scoreboard with a game whose id is the lone surrogate [U+D800]; the
    webhook takes every message and the standard output is strict. *)
Definition surrogate_id_world : world :=
  example_world "[]"
    (Response 200 (example_scoreboard ["'id': '401', "; "'id': '\ud800', "]%string))
    NoResponse
    (λ _ _, Response 204 None).

(** * Properties *)

(** ** Strings *)

Lemma drop_while_Forall (P : N → Prop) p s : Forall P s → Forall P (drop_while p s).
Proof. induction 1; simpl; [constructor|]. destruct (p x); auto. Qed.

Lemma strip_Forall (P : N → Prop) s : Forall P s → Forall P (strip s).
Proof.
  intros H. unfold strip, lstrip_ws.
  apply Forall_reverse, drop_while_Forall, Forall_reverse, drop_while_Forall, H.
Qed.

Lemma replace_from_Forall (P : N → Prop) old new s :
  Forall P new → Forall P s → ∀ k, Forall P (replace_from old new k s).
Proof.
  intros Hn Hs. induction Hs as [|c r Hc Hr IH]; intros k; simpl; [constructor|].
  destruct k; [|apply IH].
  destruct (starts_with old (c :: r)).
  - apply Forall_app; split; [done | apply IH].
  - constructor; [done | apply IH].
Qed.

Lemma replace_Forall (P : N → Prop) old new s :
  Forall P new → Forall P s → Forall P (replace old new s).
Proof.
  intros Hn Hs. destruct old as [|a old]; simpl.
  - apply Forall_app; split; [done|].
    induction Hs; simpl; [constructor|]. constructor; [done|]. apply Forall_app; auto.
  - by apply replace_from_Forall.
Qed.

Lemma replace_char_absent c new s :
  Forall (λ x, x ≠ c) new → Forall (λ x, x ≠ c) (replace [c] new s).
Proof.
  intros Hn. unfold replace. induction s as [|x r IH]; simpl; [constructor|].
  destruct (N.eqb_spec c x) as [->|Hne]; simpl.
  - apply Forall_app; split; [done | apply IH].
  - constructor; [congruence | apply IH].
Qed.

Lemma starts_with_elem old s k : starts_with old s = true → k ∈ old → k ∈ s.
Proof.
  revert s. induction old as [|a old IH]; intros s H Hk; [by apply elem_of_nil in Hk|].
  destruct s as [|b s]; simpl in H; [done|].
  apply andb_true_iff in H as [Hab H]. apply N.eqb_eq in Hab as ->.
  apply elem_of_cons in Hk as [->|Hk]; [left | right; by apply IH].
Qed.

Lemma replace_from_absent old new s k :
  k ∈ old → k ∉ s → replace_from old new 0 s = s.
Proof.
  intros Hk. induction s as [|c r IH]; intros Hs; simpl; [done|].
  destruct (starts_with old (c :: r)) eqn:E.
  - exfalso. apply Hs. by eapply starts_with_elem.
  - f_equal. apply IH. intros H. apply Hs. by right.
Qed.

Lemma replace_absent old new s k : k ∈ old → k ∉ s → replace old new s = s.
Proof.
  intros Hk Hs. destruct old as [|a old]; [by apply elem_of_nil in Hk|].
  simpl. by eapply replace_from_absent.
Qed.

Lemma split_ws_words s : Forall word (split_ws s).
Proof.
  induction s as [|c r IH]; simpl; [constructor|].
  destruct (isspace c) eqn:Ec; [done|].
  destruct r as [|d r']; [repeat constructor; by rewrite ?Ec|].
  destruct (isspace d) eqn:Ed.
  - constructor; [|done]. split; [done | by constructor].
  - destruct (split_ws (d :: r')) as [|w ws] eqn:Ew.
    + repeat constructor; done.
    + inversion IH as [|? ? [Hw1 Hw2] Hws]; subst. constructor; [|done].
      split; [done | by constructor].
Qed.

Lemma split_ws_Forall (P : N → Prop) s : Forall P s → Forall (Forall P) (split_ws s).
Proof.
  induction 1 as [|c r Hc Hr IH]; simpl; [constructor|].
  destruct (isspace c); [done|].
  destruct r as [|d r']; [by repeat constructor|].
  destruct (isspace d).
  - constructor; [by repeat constructor | done].
  - destruct (split_ws (d :: r')) as [|w ws]; [by repeat constructor|].
    inversion IH; subst. constructor; [by constructor | done].
Qed.

Lemma join_Forall (P : N → Prop) sep ws :
  Forall P sep → Forall (Forall P) ws → Forall P (join sep ws).
Proof.
  intros Hsep. induction 1 as [|w ws Hw Hws IH]; simpl; [constructor|].
  destruct ws; [done|]. apply Forall_app; split; [done|]. apply Forall_app; split; done.
Qed.

Lemma split_ws_word_app w rest :
  word w → split_ws (w ++ 0x20 :: rest) = w :: split_ws rest.
Proof.
  intros [Hne Hw]. induction Hw as [|c w Hc Hw IH]; [done|].
  simpl. rewrite Hc. destruct w as [|d w'].
  - simpl. reflexivity.
  - simpl app. inversion Hw as [|? ? Hd _]; subst. rewrite Hd.
    simpl app in IH. rewrite IH; [done | done].
Qed.

Lemma split_ws_word w : word w → split_ws w = [w].
Proof.
  intros [Hne Hw]. induction Hw as [|c w Hc Hw IH]; [done|].
  simpl. rewrite Hc. destruct w as [|d w']; [done|].
  inversion Hw as [|? ? Hd _]; subst. rewrite Hd. rewrite IH; done.
Qed.

Lemma split_ws_join ws : Forall word ws → split_ws (join [0x20] ws) = ws.
Proof.
  induction 1 as [|w ws Hw Hws IH]; [done|].
  simpl. destruct ws as [|w' ws'].
  - by apply split_ws_word.
  - change (w ++ [0x20] ++ join [0x20] (w' :: ws')) with (w ++ 0x20 :: join [0x20] (w' :: ws')).
    rewrite split_ws_word_app by done. by rewrite IH.
Qed.

Lemma join_split_ws_idem s :
  join [0x20] (split_ws (join [0x20] (split_ws s))) = join [0x20] (split_ws s).
Proof. by rewrite split_ws_join by apply split_ws_words. Qed.

Lemma lstrip_ws_tight s : tight s → lstrip_ws s = s.
Proof. destruct s as [|c r]; [done|]. unfold lstrip_ws; simpl. by intros ->. Qed.

Lemma join_nonempty ws : Forall word ws → ws ≠ [] → join [0x20] ws ≠ [].
Proof.
  destruct 1 as [|w ws [Hne Hw] Hws]; [done|]. intros _.
  simpl. destruct ws; [done|]. destruct w; done.
Qed.

Lemma join_tight ws : Forall word ws → tight (join [0x20] ws).
Proof.
  destruct 1 as [|w ws [Hne Hw] Hws]; [done|].
  simpl. destruct w as [|c w]; [done|]. inversion Hw; subst.
  destruct ws; simpl; done.
Qed.

Lemma tight_app a b : a ≠ [] → tight a → tight (a ++ b).
Proof. destruct a; done. Qed.

Lemma word_reverse_tight w : Forall (λ c, isspace c = false) w → tight (reverse w).
Proof.
  intros Hw. apply Forall_reverse in Hw. destruct (reverse w); [done|]. by inversion Hw.
Qed.

Lemma join_reverse_tight ws : Forall word ws → tight (reverse (join [0x20] ws)).
Proof.
  induction 1 as [|w ws [Hne Hw] Hws IH]; [done|].
  simpl. destruct ws as [|w' ws'].
  - by apply word_reverse_tight.
  - rewrite !reverse_app, reverse_cons, <- !app_assoc. apply tight_app; [|done].
    intros E. apply (f_equal reverse) in E. rewrite reverse_involutive in E.
    by apply (join_nonempty (w' :: ws')) in E.
Qed.

Lemma strip_join ws : Forall word ws → strip (join [0x20] ws) = join [0x20] ws.
Proof.
  intros H. unfold strip.
  rewrite (lstrip_ws_tight (join _ _)) by by apply join_tight.
  rewrite lstrip_ws_tight by by apply join_reverse_tight.
  apply reverse_involutive.
Qed.

(** ** The name normalizer *)

Section Normalizer.
Context `{L : UnicodeLaws}.

Lemma lower_from_low before s : Forall low (lower_from before s).
Proof.
  revert before. induction s as [|c r IH]; intros before; simpl; [constructor|].
  apply Forall_app; split; [|apply IH].
  destruct (c =? 0x3A3).
  - constructor; [|constructor]. unfold capital_sigma.
    match goal with |- low (if ?b then _ else _) => destruct b end;
      split; auto using lower_final_sigma, lower_small_sigma; done.
  - apply Forall_forall. intros d Hd. by apply (lower_stable c).
Qed.

Lemma lower_from_fixed before s : Forall low s → lower_from before s = s.
Proof.
  intros H. revert before. induction H as [|c r [Hc Hne] Hr IH]; intros before; simpl; [done|].
  apply N.eqb_neq in Hne. rewrite Hne, Hc, IH. reflexivity.
Qed.

Lemma low_ascii c : c < 0x80 → ((0x41 <=? c) && (c <=? 0x5A)) = false → low c.
Proof.
  intros Hc Hu. split; [|lia]. rewrite lower_ascii by done. by rewrite Hu.
Qed.

Lemma replace_all_low s : Forall low s → Forall low (replace_all replace_table s).
Proof.
  intros H. unfold replace_all, replace_table. cbn [fold_left fst snd].
  repeat (apply replace_Forall; [repeat constructor; by apply low_ascii|]).
  done.
Qed.

Lemma low_not_C4 c : low c → c ≠ 0xC4.
Proof. intros [H _] ->. by apply lower_A_diaeresis. Qed.

Lemma replace_all_clean s : Forall low s → Forall clean (replace_all replace_table s).
Proof.
  intros H. unfold replace_all, replace_table. cbn [fold_left fst snd].
  set (t1 := replace (lit "&") (lit " and ") s).
  set (t2 := replace (lit ".") [] t1).
  set (t3 := replace (lit ",") [] t2).
  set (t4 := replace (lit "-") (lit " ") t3).
  set (t5 := replace (lit "‚Äî") (lit " ") t4).
  set (t6 := replace (lit "'") [] t5).
  set (t7 := replace (lit "‚Äô") [] t6).
  assert (H1 : Forall (λ x, x ≠ 0x26) t7).
  { do 6 (apply replace_Forall; [by repeat constructor|]).
    apply (replace_char_absent 0x26). by repeat constructor. }
  assert (H2 : Forall (λ x, x ≠ 0x2E) t7).
  { do 5 (apply replace_Forall; [by repeat constructor|]).
    apply (replace_char_absent 0x2E). by repeat constructor. }
  assert (H3 : Forall (λ x, x ≠ 0x2C) t7).
  { do 4 (apply replace_Forall; [by repeat constructor|]).
    apply (replace_char_absent 0x2C). by repeat constructor. }
  assert (H4 : Forall (λ x, x ≠ 0x2D) t7).
  { do 3 (apply replace_Forall; [by repeat constructor|]).
    apply (replace_char_absent 0x2D). by repeat constructor. }
  assert (H5 : Forall (λ x, x ≠ 0x27) t7).
  { do 1 (apply replace_Forall; [by repeat constructor|]).
    apply (replace_char_absent 0x27). by repeat constructor. }
  assert (H6 : Forall (λ x, x ≠ 0xC4) t7).
  { eapply Forall_impl; [apply (replace_all_low s H)|]. apply low_not_C4. }
  rewrite Forall_forall in *. intros x Hx. repeat split; eauto.
Qed.

Lemma replace_all_fixed s : Forall clean s → replace_all replace_table s = s.
Proof.
  intros H. unfold replace_all, replace_table. cbn [fold_left fst snd].
  assert (Hk : ∀ k, ¬ clean k → k ∉ s).
  { intros k Hk Hin. apply Hk. rewrite Forall_forall in H. by apply H. }
  rewrite (replace_absent (lit "&") _ s 0x26); [|by left| apply Hk; unfold clean; tauto].
  rewrite (replace_absent (lit ".") _ s 0x2E); [|by left| apply Hk; unfold clean; tauto].
  rewrite (replace_absent (lit ",") _ s 0x2C); [|by left| apply Hk; unfold clean; tauto].
  rewrite (replace_absent (lit "-") _ s 0x2D); [|by left| apply Hk; unfold clean; tauto].
  rewrite (replace_absent (lit "‚Äî") _ s 0xC4); [|by right; left| apply Hk; unfold clean; tauto].
  rewrite (replace_absent (lit "'") _ s 0x27); [|by left| apply Hk; unfold clean; tauto].
  rewrite (replace_absent (lit "‚Äô") _ s 0xC4); [|by right; left| apply Hk; unfold clean; tauto].
  done.
Qed.

Lemma normalize_str_idempotent s : normalize_str (normalize_str s) = normalize_str s.
Proof.
  unfold normalize_str at 1.
  set (t := replace_all replace_table (strip (py_lower s))).
  assert (Hlow : Forall low t).
  { apply replace_all_low, strip_Forall, lower_from_low. }
  assert (Hclean : Forall clean t).
  { apply replace_all_clean, strip_Forall, lower_from_low. }
  assert (Hout : normalize_str s = join [0x20] (split_ws t)) by done.
  rewrite Hout.
  unfold py_lower. rewrite lower_from_fixed.
  2:{ apply join_Forall; [|by apply split_ws_Forall]. repeat constructor; by apply low_ascii. }
  rewrite strip_join by apply split_ws_words.
  rewrite replace_all_fixed.
  2:{ apply join_Forall; [|by apply split_ws_Forall]. repeat constructor; done. }
  apply join_split_ws_idem.
Qed.

(** C7. The name normalizer is idempotent: for every string [s],
    normalizing the normal form of [s] gives that normal form again. *)
Theorem normalize_idempotent (s : pystr) :
  normalize (PStr s) ≫= (λ t, normalize (PStr t)) = normalize (PStr s).
Proof.
  unfold normalize. destruct s as [|c s]; [done|].
  cbn [truthy negb mbind exc_bind].
  destruct (normalize_str (c :: s)) as [|d t] eqn:E; [done|].
  cbn [truthy negb]. by rewrite <- E, normalize_str_idempotent.
Qed.

End Normalizer.

(** ** Computations that may raise *)

Lemma bind_Ok {A B} (m : exc A) (f : A → exc B) b :
  m ≫= f = Ok b → ∃ a, m = Ok a ∧ f a = Ok b.
Proof. destruct m as [a|e]; simpl; [eauto | done]. Qed.

(** One step of a computation that ends well. *)
Tactic Notation "step" hyp(H) "as" ident(a) ident(E) :=
  apply bind_Ok in H as (a & E & H).

Lemma foldM_invariant_in {A S} (I : S → Prop) (f : S → A → exc S) l s0 s :
  (∀ s a s', a ∈ l → I s → f s a = Ok s' → I s') → I s0 → foldM f l s0 = Ok s → I s.
Proof.
  revert s0. induction l as [|a l IH]; simpl; intros s0 Hf H0 H.
  - by injection H as <-.
  - step H as s1 E. eapply IH; [| |done].
    + intros s2 b s3 Hb. apply Hf. by right.
    + eapply Hf; [by left|done..].
Qed.

Lemma foldM_invariant {A S} (I : S → Prop) (f : S → A → exc S) l s0 s :
  (∀ s a s', I s → f s a = Ok s' → I s') → I s0 → foldM f l s0 = Ok s → I s.
Proof. intros Hf. apply foldM_invariant_in. intros s1 a s2 _. apply Hf. Qed.

Lemma foldM_app {A S} (f : S → A → exc S) l1 l2 s :
  foldM f (l1 ++ l2) s = foldM f l1 s ≫= foldM f l2.
Proof.
  revert s. induction l1 as [|a l1 IH]; intros s; [done|].
  simpl. destruct (f s a); simpl; [apply IH | done].
Qed.

Section Matcher.
Context {R : PyRuntime}.

(** ** The resolution of a participant *)

Lemma resolve_fallback_spec team al keys :
  resolve_fallback team al keys = first_success (map (by_name_field team al) keys).
Proof.
  induction keys as [|key keys IH]; [done|].
  simpl. unfold by_name_field at 1.
  destruct (dict_get team key PNone) as [v|e]; simpl; [|done].
  destruct (truthy v); simpl; [|done].
  destruct (normalize v) as [k|e]; simpl; [|done].
  destruct (al !! k); [done | exact IH].
Qed.

(** C4. [resolve_team] tries (a) the external-id table keyed by the id the
    source gave the participant, (b) the alias table keyed by the normalized
    primary display name, (c) the alias table keyed by each of the fallback
    name fields name, displayName, shortDisplayName, location, abbreviation,
    in this order, and returns what the first strategy that succeeds gives:
    it is the first-success of the specification, on every participant. *)
Theorem resolve_team_refines_spec team_obj al el :
  resolve_team team_obj al el = resolve_team_spec team_obj al el.
Proof.
  unfold resolve_team, resolve_team_spec.
  destruct (dict_get team_obj (lit "team") (PDict [])) as [team|e]; simpl; [|done].
  unfold by_external_id, by_display_name.
  destruct (dict_get team (lit "id") PNone) as [team_id|e] eqn:Eid; simpl; [|done].
  destruct (dict_get team (lit "displayName") (PStr [])) as [d|e] eqn:Ed; simpl.
  2:{ destruct team; simpl in *; congruence. }
  assert (Hs : ∃ x, dict_get team (lit "shortDisplayName") (PStr []) = Ok x).
  { destruct team; simpl in *; try congruence; eauto. }
  destruct Hs as [x Hx].
  assert (Hdisp : (if truthy d then Ok d else dict_get team (lit "shortDisplayName") (PStr []))
                  = Ok (if truthy d then d else x)).
  { destruct (truthy d); [done | exact Hx]. }
  rewrite Hdisp. simpl.
  destruct (if truthy team_id then el !! py_str team_id else None) as [cid|]; [done|].
  destruct (normalize (if truthy d then d else x)) as [norm|e]; simpl; [|done].
  destruct (al !! norm); [done|]. exact (resolve_fallback_spec team al fallback_keys).
Qed.

(** ** The events that match *)

Lemma resolved_Some cid h : resolved cid = Some h → cid = Some h ∧ h ≠ [].
Proof. destruct cid as [[|c r]|]; simpl; intros [= <-]; done. Qed.

(** What a match tells about the event it comes from. *)
Lemma scan_event_match cfg councils role_id_map t posted sport event gid message :
  scan_event cfg councils role_id_map t posted sport event = Ok (Some (gid, message)) →
  game_id_of event = Ok gid ∧ gid ≠ [] ∧ (AStr gid ∉ posted)
  ∧ ∃ comp home away h a,
      participants event = Ok (Some (comp, home, away))
      ∧ resolve_team home (alias_lookup t) (espn_id_lookup t) = Ok (Some h)
      ∧ resolve_team away (alias_lookup t) (espn_id_lookup t) = Ok (Some a)
      ∧ h ≠ [] ∧ a ≠ []
      ∧ build_message cfg councils role_id_map sport comp h a = Ok message.
Proof.
  unfold scan_event. intros H. step H as game_id Eid.
  destruct (negb (truthy (PStr game_id))) eqn:Et; [done|].
  destruct (bool_decide (AStr game_id ∈ posted)) eqn:Ep; [done|]. simpl in H.
  step H as sides Es. destruct sides as [[[comp home] away]|]; [|done].
  step H as home_cid Eh. step H as away_cid Ea.
  destruct (resolved home_cid) as [h|] eqn:Erh; [|done].
  destruct (resolved away_cid) as [a|] eqn:Era; [|done].
  apply resolved_Some in Erh as [-> Hh], Era as [-> Ha].
  step H as msg Em. injection H as <- <-.
  split; [done|]. split; [by destruct game_id|].
  split; [by apply bool_decide_eq_false in Ep|].
  by exists comp, home, away, h, a.
Qed.

(** C2. An event gives an outbound message only if both of its
    participants resolve to a canonical id: a match comes with two
    participants for which [resolve_team] returned an id. *)
Theorem match_needs_both_participants cfg councils role_id_map t posted sport event p :
  scan_event cfg councils role_id_map t posted sport event = Ok (Some p) →
  ∃ comp home away h a,
    participants event = Ok (Some (comp, home, away))
    ∧ resolve_team home (alias_lookup t) (espn_id_lookup t) = Ok (Some h)
    ∧ resolve_team away (alias_lookup t) (espn_id_lookup t) = Ok (Some a).
Proof.
  destruct p as [gid message].
  intros (_ & _ & _ & comp & home & away & h & a & Hp & Hh & Ha & _)%scan_event_match.
  by exists comp, home, away, h, a.
Qed.

(** The same, read the other way: when [resolve_team] returns no id for
    one of the two participants, the event gives no match. *)
Lemma unresolved_participant_no_match
    cfg councils role_id_map t posted sport event comp home away :
  participants event = Ok (Some (comp, home, away)) →
  resolve_team home (alias_lookup t) (espn_id_lookup t) = Ok None
  ∨ resolve_team away (alias_lookup t) (espn_id_lookup t) = Ok None →
  ∀ p, scan_event cfg councils role_id_map t posted sport event ≠ Ok (Some p).
Proof.
  intros Hp Hnone [gid message] H.
  apply scan_event_match in H as (_ & _ & _ & c & h' & a' & h & a & Hp' & Hh & Ha & _).
  rewrite Hp in Hp'. injection Hp' as <- <- <-.
  destruct Hnone as [Hn|Hn]; congruence.
Qed.

(** C3. An event whose id is in the set of posted ids is skipped, whatever
    its competitions hold and whatever the lookup tables are: the loop goes
    on to the next event before it looks at the participants. *)
Theorem posted_event_skipped cfg councils role_id_map t posted sport event game_id :
  game_id_of event = Ok game_id →
  AStr game_id ∈ posted →
  scan_event cfg councils role_id_map t posted sport event = Ok None.
Proof.
  intros Hid Hin. unfold scan_event. rewrite Hid. simpl.
  rewrite bool_decide_eq_true_2 by done. by rewrite orb_true_r.
Qed.

(** ** The id of an event *)

Lemma digits_pos_nonempty fuel n acc : fuel ≠ O → digits_pos fuel n acc ≠ [].
Proof.
  revert n acc. induction fuel as [|f IH]; intros n acc Hf; [done|].
  simpl. destruct (n <? 10); [done|].
  destruct f as [|f']; [done|]. by apply IH.
Qed.

Lemma str_of_Z_nonempty z : str_of_Z z ≠ [].
Proof.
  destruct z; simpl; [done| |done]. unfold str_of_N. by apply digits_pos_nonempty.
Qed.

Lemma py_str_empty `{!ReprLaws R} v : py_str v = [] → v = PStr [].
Proof.
  destruct v as [|[]| | | | |]; simpl; try done.
  - intros H. by apply str_of_Z_nonempty in H.
  - intros H. by apply py_repr_nonempty in H.
  - by intros ->.
  - intros H. by apply py_repr_nonempty in H.
  - intros H. by apply py_repr_nonempty in H.
Qed.

(** C10, as the code has it. The id of an event is a non-empty string
    unless its id field is the empty string: for every event whose id field
    is missing or holds anything else, the guard on a falsy id does not
    fire. An event without an id field has the id "None" and is handled
    as the same event with the id field "None" is. *)
Theorem missing_id_is_None `{!ReprLaws R} cfg councils role_id_map t posted sport items :
  assoc (lit "id") items ≠ Some (PStr []) →
  (∃ game_id, game_id_of (PDict items) = Ok game_id ∧ truthy (PStr game_id) = true)
  ∧ (assoc (lit "id") items = None →
       game_id_of (PDict items) = Ok (lit "None")
       ∧ scan_event cfg councils role_id_map t posted sport (PDict items)
         = scan_event cfg councils role_id_map t posted sport
             (PDict ((lit "id", PStr (lit "None")) :: items))).
Proof.
  intros Hid. split.
  - unfold game_id_of. simpl. eexists; split; [done|].
    destruct (py_str _) eqn:E; [|done].
    apply py_str_empty in E. destruct (assoc (lit "id") items); simpl in E; congruence.
  - intros Hnone. unfold scan_event, game_id_of, participants. simpl.
    rewrite Hnone. simpl. done.
Qed.

End Matcher.

Section Run.
Context {R : PyRuntime}.

(** ** The notifier *)

Lemma post_to_discord_raises code js :
  (400 ≤ code ≤ 599)%Z → post_to_discord (Response code js) = Raise HTTPError.
Proof.
  intros H. unfold post_to_discord, raise_for_status.
  destruct (Z.leb_spec 400 code); [|lia].
  destruct (Z.ltb_spec code 600); [done | lia].
Qed.

(** The two prints of the loop go through exactly when the id can be
    written. *)
Lemma print_posted w gid :
  py_print w [lit "Posted game"; gid]
  = if writable w gid then Ok () else Raise UnicodeEncodeError.
Proof.
  unfold py_print. cbn [forallb].
  change (writable w (lit "Posted game")) with true.
  rewrite andb_true_r. done.
Qed.

Lemma print_failed w gid :
  py_print w [lit "Failed to post game"; gid]
  = if writable w gid then Ok () else Raise UnicodeEncodeError.
Proof.
  unfold py_print. cbn [forallb].
  change (writable w (lit "Failed to post game")) with true.
  rewrite andb_true_r. done.
Qed.

(** One turn of the loop: whatever the webhook answers, an id that cannot
    be written ends the loop on an exception, and an id that can be written
    leaves it to go on. *)
Lemma post_all_cons w k gid message rest posted :
  post_all w k ((gid, message) :: rest) posted
  = if writable w gid then
      '(final, sent) ← post_all w (S k) rest
                         (match post_to_discord (webhook w k message) with
                          | Ok _ => {[AStr gid]} ∪ posted
                          | Raise _ => posted
                          end);
      Ok (final, message :: sent)
    else Raise UnicodeEncodeError.
Proof.
  cbn [post_all]. rewrite print_posted, print_failed.
  destruct (post_to_discord (webhook w k message)); cbn [mbind exc_bind];
    by destruct (writable w gid).
Qed.

Lemma post_all_nil w k posted : post_all w k [] posted = Ok (posted, []).
Proof. done. Qed.

(** The loop ends normally exactly when every id of the batch can be
    written. *)
Lemma post_all_writable w k batch posted :
  (∃ out, post_all w k batch posted = Ok out)
  ↔ Forall (λ p, writable w p.1 = true) batch.
Proof.
  revert k posted. induction batch as [|[gid msg] rest IH]; intros k posted.
  - split; [constructor | by eexists].
  - rewrite post_all_cons. split.
    + intros [out H]. destruct (writable w gid) eqn:Ew; [|done].
      constructor; [done|]. step H as o Eo. eapply IH. by exists o.
    + intros H. inversion H as [|p l Hw Hrest]; subst. simpl in Hw. rewrite Hw.
      eapply (IH (S k)) in Hrest as [[final sent] ->]. by eexists.
Qed.

(** The only exception of the loop is the one of its prints. *)
Lemma post_all_raises w k batch posted e :
  post_all w k batch posted = Raise e →
  e = UnicodeEncodeError ∧ Exists (λ p, writable w p.1 = false) batch.
Proof.
  revert k posted. induction batch as [|[gid msg] rest IH]; intros k posted; [done|].
  rewrite post_all_cons. destruct (writable w gid) eqn:Ew.
  - intros H.
    destruct (post_all w (S k) rest _) as [[final sent]|e'] eqn:E; [done|].
    injection H as <-. apply IH in E as [-> E]. split; [done|]. by right.
  - intros [= <-]. split; [done|]. by left.
Qed.

Lemma post_all_sent w k batch posted final sent :
  post_all w k batch posted = Ok (final, sent) → sent = batch.*2.
Proof.
  revert k posted final sent.
  induction batch as [|[gid msg] rest IH]; intros k posted final sent.
  - by intros [= <- <-].
  - rewrite post_all_cons. destruct (writable w gid); [|done]. intros H.
    step H as o Eo. destruct o as [final' sent']. injection H as <- <-.
    simpl. f_equal. by eapply IH.
Qed.

(** The set after the loop: what was in it, and the ids of the messages
    that the webhook took. *)
Lemma post_all_posted w k batch posted final sent a :
  post_all w k batch posted = Ok (final, sent) →
  a ∈ final
  ↔ a ∈ posted
    ∨ ∃ i gid message reply,
        batch !! i = Some (gid, message) ∧ a = AStr gid
        ∧ post_to_discord (webhook w (k + i)%nat message) = Ok reply.
Proof.
  revert k posted final sent.
  induction batch as [|[gid msg] rest IH]; intros k posted final sent.
  - intros [= <- <-]. split; [by left|]. intros [H|(i & g & m & r & H & _)]; [done|].
    by rewrite lookup_nil in H.
  - rewrite post_all_cons. destruct (writable w gid); [|done]. intros H.
    step H as o Eo. destruct o as [final' sent']. injection H as <- <-.
    rewrite (IH _ _ _ _ Eo). clear IH Eo. split.
    + intros [H|(i & g & m & r & Hi & -> & Hp)].
      * destruct (post_to_discord (webhook w k msg)) as [r|e] eqn:Ep; [|by left].
        apply elem_of_union in H as [->%elem_of_singleton|H]; [|by left].
        right. exists 0%nat, gid, msg, r. by rewrite Nat.add_0_r.
      * right. exists (S i), g, m, r. by rewrite Nat.add_succ_r.
    + intros [H|(i & g & m & r & Hi & -> & Hp)].
      * left. destruct (post_to_discord (webhook w k msg)); [|done].
        apply elem_of_union. by right.
      * destruct i as [|i]; simpl in Hi.
        -- injection Hi as <- <-. rewrite Nat.add_0_r in Hp. rewrite Hp. left.
           apply elem_of_union. left. by apply elem_of_singleton.
        -- right. exists i, g, m, r. by rewrite Nat.add_succ_r in Hp.
Qed.

(** ** The run *)

Lemma write_posted_set_body patch posted body :
  write_posted_set_to_issue patch posted = Ok body → posted_body posted = Ok body.
Proof.
  unfold write_posted_set_to_issue. intros H. step H as b Eb.
  destruct (patch b); [done|]. step H as u Eu. by injection H as <-.
Qed.

(** What a run that reaches its end has gone through. *)
Lemma main_Ok cfg w r :
  main cfg w = Ok r →
  ∃ councils t issue_num body posted,
    load_councils (council_file w) = Ok councils
    ∧ build_lookup councils = Ok t
    ∧ find_or_create_issue (GITHUB_TOKEN cfg) (GITHUB_REPOSITORY cfg)
        (POSTED_STORE_ISSUE_TITLE cfg) (issue_listing w) (issue_creation w)
      = Ok (issue_num, body)
    ∧ read_posted_set_from_issue (issue_get w issue_num) = Ok posted
    ∧ (∀ p, p ∈ run_batch r → AStr p.1 ∉ posted)
    ∧ post_all w 0 (run_batch r) posted = Ok (run_posted r, run_sent r)
    ∧ (∀ stored, run_stored r = Some stored → posted_body (run_posted r) = Ok stored).
Proof.
  unfold main. intros H.
  destruct (DISCORD_WEBHOOK cfg); [done|].
  destruct (GITHUB_TOKEN cfg) eqn:Et; [done|].
  destruct (GITHUB_REPOSITORY cfg) eqn:Er; [done|].
  step H as councils Ec. step H as t Eb. step H as issue Ei.
  destruct issue as [issue_num body].
  step H as posted Ep. step H as to_post Es. step H as out Epost.
  destruct out as [final sent]. injection H as <-.
  exists councils, t, issue_num, body, posted.
  cbn [run_batch run_sent run_posted run_stored].
  repeat split; try done.
  - revert Es. apply (foldM_invariant (λ b, ∀ p, p ∈ b → AStr p.1 ∉ posted)).
    + intros b src b' Hb Hs. unfold scan_source in Hs.
      destruct (fetch _); [|by injection Hs as <-].
      step Hs as events Ee. step Hs as evs Ev. revert Hs.
      apply (foldM_invariant (λ b, ∀ p, p ∈ b → AStr p.1 ∉ posted)); [|done].
      intros b1 ev b2 Hb1 He. step He as found Ef. injection He as <-.
      destruct found as [[gid msg]|]; [|done].
      intros q [Hq|Hq]%elem_of_app; [by apply Hb1|].
      apply list_elem_of_singleton in Hq as ->.
      by apply scan_event_match in Ef as (_ & _ & ? & _).
    + intros q Hq. by apply elem_of_nil in Hq.
  - intros stored Hs.
    destruct (write_posted_set_to_issue _ final) as [b|e] eqn:Ew; [|done].
    injection Hs as <-. by apply write_posted_set_body in Ew.
Qed.

(** A run announces no event whose id was in the store when it started. *)
Lemma run_skips_posted_ids cfg w r :
  main cfg w = Ok r →
  ∃ issue_num posted,
    read_posted_set_from_issue (issue_get w issue_num) = Ok posted
    ∧ ∀ gid message, (gid, message) ∈ run_batch r → AStr gid ∉ posted.
Proof.
  intros (c & t & n & b & posted & _ & _ & _ & Hr & Hf & _)%main_Ok.
  exists n, posted. split; [done|]. intros gid msg Hin. by apply (Hf (gid, msg)).
Qed.

(** C1, as the code has it. [post_to_discord] raises on every status from
    400 to 599. The loop that posts prints the id of each match, in the [try]
    block after a post that succeeded and in the handler after one that
    failed: a run ends normally only if every id of its batch can be
    written to the standard output. In such a run every message of the batch
    is sent to the webhook, whichever posts fail; the id of every event whose
    post succeeds is in the set handed to [write_posted_set_to_issue]; and
    the id of an event is not in that set when the post fails for every
    message of the batch that carries this id. When the write succeeds, the
    stored body is the serialization of that set. *)
Theorem post_failure_is_local cfg w r :
  main cfg w = Ok r →
  (∀ code js, (400 ≤ code ≤ 599)%Z → post_to_discord (Response code js) = Raise HTTPError)
  ∧ (∀ gid, gid ∈ (run_batch r).*1 → writable w gid = true)
  ∧ run_sent r = (run_batch r).*2
  ∧ (∀ i gid message reply,
       run_batch r !! i = Some (gid, message) →
       post_to_discord (webhook w i message) = Ok reply →
       AStr gid ∈ run_posted r)
  ∧ (∀ gid,
       gid ∈ (run_batch r).*1 →
       (∀ i message, run_batch r !! i = Some (gid, message) →
                     ∃ e, post_to_discord (webhook w i message) = Raise e) →
       AStr gid ∉ run_posted r)
  ∧ (∀ stored, run_stored r = Some stored → posted_body (run_posted r) = Ok stored).
Proof.
  intros (c & t & n & b & posted & _ & _ & _ & _ & Hfresh & Hpost & Hstored)%main_Ok.
  split; [apply post_to_discord_raises|].
  split.
  { intros gid [[g m] [-> Hin]]%list_elem_of_fmap.
    assert (Hw : Forall (λ p, writable w p.1 = true) (run_batch r)).
    { eapply post_all_writable. by eexists. }
    rewrite Forall_forall in Hw. by apply (Hw (g, m)). }
  split; [by eapply post_all_sent|].
  split; [|split; [|done]].
  - intros i gid msg reply Hi Hp. apply (post_all_posted _ _ _ _ _ _ _ Hpost).
    right. by exists i, gid, msg, reply.
  - intros gid [[g m] [-> Hin]]%list_elem_of_fmap Hfail.
    intros [H|(i & g' & m' & reply & Hi & [= <-] & Hp)]%(post_all_posted _ _ _ _ _ _ _ Hpost).
    + by apply (Hfresh (g, m)).
    + destruct (Hfail i m' Hi) as [e He]. simpl in Hp. congruence.
Qed.

End Run.

Section Store.
Context {R : PyRuntime}.

(** ** Reading the store *)



(** Whatever the issue holds, the read ends well once the request has. *)
Lemma read_posted_set_total code issue :
  ¬ (400 ≤ code < 600)%Z →
  read_posted_set_from_issue (Response code (Some (PDict issue)))
  = Ok (parse_posted_body (py_or (default PNone (assoc (lit "body") issue)) (PStr []))).
Proof.
  intros H. unfold read_posted_set_from_issue, raise_for_status.
  destruct (Z.leb_spec 400 code), (Z.ltb_spec code 600); simpl; try done. lia.
Qed.

(** ** The start time *)

Lemma drop_while_head p c r : p c = false → drop_while p (c :: r) = c :: r.
Proof. intros H. cbn [drop_while]. by rewrite H. Qed.

Lemma month_abbr_head m :
  1 ≤ m ≤ 12 → ∃ c r, month_abbr m = c :: r ∧ c ≠ 0x30.
Proof.
  intros H. unfold month_abbr.
  assert (Hn : (N.to_nat (m - 1) < 12)%nat) by lia.
  destruct (N.to_nat (m - 1)) as [|[|[|[|[|[|[|[|[|[|[|[|n]]]]]]]]]]]];
    try lia; vm_compute; eexists _, _; (split; [reflexivity|done]).
Qed.

(** C6, what the code does. When the start time parses, [format_time]
    returns the text of [strftime] as it is: [lstrip] finds no zero to
    strip, because the text begins with the name of the month, and the day
    and the hour keep their two digits. *)
Theorem format_time_keeps_zero_padding timezone s local :
  localize timezone (replace (lit "Z") (lit "+00:00") s) = Some local →
  1 ≤ lt_month local ≤ 12 →
  format_time timezone (PStr s) = PStr (strftime local)
  ∧ ∃ before after,
      strftime local
      = before ++ two_digits (lt_day local) ++ lit ", " ++ str_of_N (lt_year local)
          ++ lit " " ++ two_digits (hour12 (lt_hour local)) ++ after.
Proof.
  intros Hl Hm. split.
  - unfold format_time. rewrite Hl. f_equal.
    unfold strftime. destruct (month_abbr_head _ Hm) as (c & r & -> & Hc).
    unfold lstrip_zero. rewrite <- app_comm_cons. apply drop_while_head.
    apply N.eqb_neq. congruence.
  - unfold strftime. eexists (month_abbr (lt_month local) ++ lit " "), _.
    rewrite <- !app_assoc. reflexivity.
Qed.

(** A start time that does not parse comes back as it is. *)
Lemma format_time_unparsed timezone s :
  localize timezone (replace (lit "Z") (lit "+00:00") s) = None →
  format_time timezone (PStr s) = PStr s.
Proof. intros H. unfold format_time. by rewrite H. Qed.

(** ** The lookup builder *)

Lemma register_keys_app cid ks1 ks2 al :
  register_keys cid (ks1 ++ ks2) al = register_keys cid ks2 (register_keys cid ks1 al).
Proof. apply foldl_app. Qed.

Lemma register_keys_lookup_notin cid ks al k :
  k ∉ ks → register_keys cid ks al !! k = al !! k.
Proof.
  revert al. induction ks as [|x ks IH]; intros al Hk; [done|].
  simpl. rewrite IH by (intros ?; apply Hk; by right).
  apply lookup_insert_ne. intros ->. apply Hk. by left.
Qed.

Lemma register_keys_lookup_in cid ks al k :
  k ∈ ks → register_keys cid ks al !! k = Some cid.
Proof.
  revert al. induction ks as [|x ks IH]; intros al Hk; [by apply elem_of_nil in Hk|].
  simpl. destruct (decide (k ∈ ks)) as [Hin|Hout]; [by apply IH|].
  rewrite register_keys_lookup_notin by done.
  apply elem_of_cons in Hk as [->|Hk]; [apply lookup_insert_eq | done].
Qed.

Lemma register_names_aliases cid names al al' ks0 :
  foldM (λ al a, k ← normalize a; Ok (<[k := cid]> al)) names al = Ok al' →
  ∃ ks, foldM (λ ks a, k ← normalize a; Ok (ks ++ [k])) names ks0 = Ok (ks0 ++ ks)
        ∧ al' = register_keys cid ks al.
Proof.
  revert al ks0. induction names as [|a names IH]; simpl; intros al ks0 H.
  - injection H as <-. exists []. by rewrite app_nil_r.
  - step H as al1 E. step E as key Ek. injection E as <-. rewrite Ek. simpl.
    destruct (IH _ (ks0 ++ [key]) H) as (ks & Hks & ->).
    exists (key :: ks). rewrite Hks. by rewrite <- app_assoc.
Qed.

Lemma register_groups_aliases cid groups al al' ks0 :
  foldM (register_group cid) groups al = Ok al' →
  ∃ ks, foldM (λ ks group,
                 names ← py_iter group;
                 foldM (λ ks a, k ← normalize a; Ok (ks ++ [k])) names ks) groups ks0
        = Ok (ks0 ++ ks)
        ∧ al' = register_keys cid ks al.
Proof.
  revert al ks0. induction groups as [|g groups IH]; simpl; intros al ks0 H.
  - injection H as <-. exists []. by rewrite app_nil_r.
  - step H as al1 E. unfold register_group in E. step E as names En.
    destruct (register_names_aliases _ _ _ _ ks0 E) as (ks1 & Hk1 & ->).
    rewrite En. simpl. rewrite Hk1. simpl.
    destruct (IH _ (ks0 ++ ks1) H) as (ks2 & Hk2 & ->).
    exists (ks1 ++ ks2). rewrite Hk2, <- app_assoc. split; [done|].
    by rewrite register_keys_app.
Qed.

(** One entry registers its aliases, and nothing else, in the alias table. *)
Lemma register_entry_aliases t cid info t' :
  register_entry t (cid, info) = Ok t' →
  ∃ ks, entry_aliases info = Ok ks
        ∧ alias_lookup t' = register_keys cid ks (alias_lookup t).
Proof.
  unfold register_entry, entry_aliases. intros H.
  step H as council Ec. step H as aliases Ea. step H as groups Eg.
  step H as al Eal. step H as name En. step H as official Eo.
  step H as al' Eal'. step H as ids Ei. step H as ids' Ei'.
  injection H as <-. simpl.
  rewrite Ea. simpl. rewrite Eg. simpl.
  destruct (register_groups_aliases _ _ _ _ [] Eal) as (ks & Hks & ->).
  rewrite Hks. simpl. rewrite En. simpl. rewrite Eo. simpl.
  destruct (truthy official).
  - step Eal' as key Ek. injection Eal' as <-. rewrite Ek. simpl.
    exists (ks ++ [key]). split; [done|]. by rewrite register_keys_app.
  - injection Eal' as <-. by exists ks.
Qed.

(** C5, as the code has it. When several registry entries register the
    same alias (after normalization), the alias table maps it to the
    canonical id of the entry registered last: the entry [cid] that
    registers [k] owns [k] in the table when no entry after it registers
    [k]. *)
Theorem last_registered_alias_wins before cid info after t ks k :
  build_lookup (PDict (before ++ (cid, info) :: after)) = Ok t →
  entry_aliases info = Ok ks →
  k ∈ ks →
  (∀ cid' info' ks', (cid', info') ∈ after → entry_aliases info' = Ok ks' → k ∉ ks') →
  alias_lookup t !! k = Some cid.
Proof.
  unfold build_lookup. simpl. rewrite foldM_app. intros H Hks Hk Hafter.
  step H as t1 E1. simpl in H. step H as t2 E2.
  apply register_entry_aliases in E2 as (ks' & Hks' & Hal).
  rewrite Hks in Hks'. injection Hks' as <-.
  revert H. apply (foldM_invariant_in (λ t, alias_lookup t !! k = Some cid)).
  - intros t3 [cid' info'] t4 Hin Ht3 Hreg.
    apply register_entry_aliases in Hreg as (ks2 & Hks2 & ->).
    rewrite register_keys_lookup_notin; [done|]. by eapply Hafter.
  - rewrite Hal. by apply register_keys_lookup_in.
Qed.

End Store.

(** ** The JSON scanner *)

Lemma drop_while_length p s : (length (drop_while p s) ≤ length s)%nat.
Proof. induction s as [|c r IH]; simpl; [done|]. destruct (p c); simpl; lia. Qed.

Lemma skip_ws_length s : (length (skip_ws s) ≤ length s)%nat.
Proof. apply drop_while_length. Qed.

Lemma scan_string_length s t r :
  scan_string s = Some (t, r) → (length r < length s)%nat.
Proof.
  remember (length s) as n eqn:Hn. revert s t r Hn.
  induction n as [n IH] using lt_wf_ind. intros s t r -> H.
  assert (Hrec : ∀ s' t' r', (length s' < length s)%nat →
                   scan_string s' = Some (t', r') → (length r' < length s)%nat).
  { intros s' t' r' Hlt Hs'. specialize (IH _ Hlt s' t' r' eq_refl Hs'). lia. }
  clear IH. destruct s as [|c s1]; [done|]. cbn [scan_string] in H.
  destruct (c =? 34). { injection H as <- <-. simpl. lia. }
  destruct (c =? 92).
  - destruct s1 as [|e s2]; [done|].
    destruct (e =? 117).
    + destruct s2 as [|h1 [|h2 [|h3 [|h4 s3]]]]; try done.
      destruct (hex4 h1 h2 h3 h4) as [u|]; [|done].
      assert (Hsingle : ∀ x, ('(t0, rest) ← scan_string s3; Some (x :: t0, rest)) = Some (t, r)
                             → (length r < length (c :: e :: h1 :: h2 :: h3 :: h4 :: s3))%nat).
      { intros x Hx. destruct (scan_string s3) as [[t0 rest]|] eqn:E; [|done].
        injection Hx as <- <-. eapply Hrec; [|exact E]. simpl. lia. }
      destruct (is_high_surrogate u); [|by eapply Hsingle].
      destruct (escaped_low_surrogate s3) as [[u2|]|]; [| by eapply Hsingle | done].
      destruct s3 as [|a1 [|a2 [|a3 [|a4 [|a5 [|a6 s4]]]]]]; try done.
      destruct (scan_string s4) as [[t0 rest]|] eqn:E; [|done].
      injection H as <- <-. eapply Hrec; [|exact E]. simpl. lia.
    + destruct (unescape e); [|done].
      destruct (scan_string s2) as [[t0 rest]|] eqn:E; [|done].
      injection H as <- <-. eapply Hrec; [|exact E]. simpl. lia.
  - destruct (c <? 32); [done|].
    destruct (scan_string s1) as [[t0 rest]|] eqn:E; [|done].
    injection H as <- <-. eapply Hrec; [|exact E]. simpl. lia.
Qed.

Lemma span_digits_length s ds r :
  span_digits s = (ds, r) → (length r ≤ length s)%nat.
Proof.
  revert ds r. induction s as [|c s IH]; intros ds r H; simpl in H.
  - by injection H as <- <-.
  - destruct (is_digit c).
    + destruct (span_digits s) as [ds' r'] eqn:E. injection H as <- <-.
      specialize (IH _ _ eq_refl). simpl. lia.
    + injection H as <- <-. done.
Qed.

Lemma scan_word_length w v s x r :
  lit w ≠ [] → scan_word w v s = Some (x, r) → (length r < length s)%nat.
Proof.
  unfold scan_word. intros Hw H.
  destruct (starts_with (lit w) s) eqn:E; [|done]. injection H as <- <-.
  assert (Hlen : ∀ p s, starts_with p s = true → (length p ≤ length s)%nat).
  { clear. induction p as [|a p IH]; intros [|b s] H; simpl in *; try done; try lia.
    apply andb_true_iff in H as [_ H]. apply IH in H. lia. }
  apply Hlen in E. rewrite length_drop. destruct (lit w); [done|]. simpl in *. lia.
Qed.

Lemma scan_number_length s v r :
  scan_number s = Some (v, r) → (length r < length s)%nat.
Proof.
  unfold scan_number. intros H.
  set (start := match s with
                | c :: r0 => if c =? 45 then ([c], r0) else ([], s)
                | [] => ([], s)
                end) in H.
  assert (Hstart : (length start.2 ≤ length s)%nat).
  { unfold start. destruct s as [|c r0]; [done|]. destruct (c =? 45); simpl; lia. }
  destruct start as [sign s1]. simpl in Hstart.
  destruct s1 as [|d r0]; [done|]. destruct (is_digit d); [|done].
  set (ip := if d =? 48 then ([d], r0)
             else let '(ds, rest) := span_digits r0 in (d :: ds, rest)) in H.
  assert (Hip : (length ip.2 ≤ length r0)%nat).
  { unfold ip. destruct (d =? 48); [done|].
    destruct (span_digits r0) as [ds rest] eqn:E. simpl.
    by apply span_digits_length in E. }
  destruct ip as [int r1]. simpl in Hip.
  set (fp := match r1 with
             | p :: r' =>
                 if p =? 46 then
                   match span_digits r' with
                   | ([], _) => ([], r1)
                   | (fs, rest) => (p :: fs, rest)
                   end
                 else ([], r1)
             | [] => ([], r1)
             end) in H.
  assert (Hfp : (length fp.2 ≤ length r1)%nat).
  { unfold fp. destruct r1 as [|p r']; [done|]. destruct (p =? 46); [|done].
    destruct (span_digits r') as [[|f fs] rest] eqn:E; [done|]. simpl.
    apply span_digits_length in E. lia. }
  destruct fp as [frac r2]. simpl in Hfp.
  set (ep := match r2 with
             | e :: r' =>
                 if (e =? 101) || (e =? 69) then
                   let '(sg, r'') := match r' with
                                     | g :: t => if (g =? 43) || (g =? 45) then ([g], t) else ([], r')
                                     | [] => ([], r')
                                     end in
                   match span_digits r'' with
                   | ([], _) => ([], r2)
                   | (es, rest) => (e :: sg ++ es, rest)
                   end
                 else ([], r2)
             | [] => ([], r2)
             end) in H.
  assert (Hep : (length ep.2 ≤ length r2)%nat).
  { unfold ep. destruct r2 as [|e r']; [done|]. destruct ((e =? 101) || (e =? 69)); [|done].
    set (sp := match r' with
               | g :: t => if (g =? 43) || (g =? 45) then ([g], t) else ([], r')
               | [] => ([], r')
               end).
    assert (Hsp : (length sp.2 ≤ length r')%nat).
    { unfold sp. destruct r' as [|g t]; [done|]. destruct ((g =? 43) || (g =? 45)); simpl; lia. }
    destruct sp as [sg r'']. simpl in Hsp.
    destruct (span_digits r'') as [[|x es] rest] eqn:E; [done|]. simpl.
    apply span_digits_length in E. lia. }
  destruct ep as [exp r3]. simpl in Hep.
  assert (r = r3) as ->.
  { destruct frac, exp; [destruct (_ <? _)%nat; [done|] | | |]; by injection H as <- <-. }
  simpl in *. lia.
Qed.

Lemma scan_constant_length s v r :
  scan_constant s = Some (v, r) → (length r < length s)%nat.
Proof.
  unfold scan_constant. intros H.
  repeat match type of H with
         | match scan_word ?w ?x ?s with Some _ => _ | None => _ end = _ =>
             destruct (scan_word w x s) as [[v' r']|] eqn:E;
               [injection H as <- <-; by apply scan_word_length in E | clear E]
         | match scan_number ?s with Some _ => _ | None => _ end = _ =>
             destruct (scan_number s) as [[v' r']|] eqn:E;
               [injection H as <- <-; by apply scan_number_length in E | clear E]
         end.
  by apply scan_word_length in H.
Qed.

Lemma parse_value_step fuel s :
  parse_value (S fuel) s
  = match s with
    | [] => Malformed
    | c :: r =>
        if c =? 0x22 then
          match scan_string r with
          | Some (t, rest) => Parsed (PStr t) rest
          | None => Malformed
          end
        else if c =? 0x5B then
          match skip_ws r with
          | [] => Malformed
          | d :: r' =>
              if d =? 0x5D then Parsed (PList []) r'
              else match parse_elements fuel (d :: r') with
                   | Parsed vs rest => Parsed (PList vs) rest
                   | Malformed => Malformed
                   | OutOfFuel => OutOfFuel
                   end
          end
        else if c =? 0x7B then
          match skip_ws r with
          | [] => Malformed
          | d :: r' =>
              if d =? 0x7D then Parsed (PDict []) r'
              else match parse_members fuel (d :: r') with
                   | Parsed kvs rest =>
                       Parsed (PDict (fold_left (λ d kv, dict_set kv.1 kv.2 d) kvs [])) rest
                   | Malformed => Malformed
                   | OutOfFuel => OutOfFuel
                   end
          end
        else
          match scan_constant s with
          | Some (v, rest) => Parsed v rest
          | None => Malformed
          end
    end.
Proof. done. Qed.

Lemma parse_elements_step fuel s :
  parse_elements (S fuel) s
  = match parse_value fuel s with
    | Parsed v rest =>
        match skip_ws rest with
        | d :: r =>
            if d =? 0x5D then Parsed [v] r
            else if d =? 0x2C then
              match parse_elements fuel (skip_ws r) with
              | Parsed vs rest' => Parsed (v :: vs) rest'
              | Malformed => Malformed
              | OutOfFuel => OutOfFuel
              end
            else Malformed
        | [] => Malformed
        end
    | Malformed => Malformed
    | OutOfFuel => OutOfFuel
    end.
Proof. done. Qed.

Lemma parse_members_step fuel s :
  parse_members (S fuel) s
  = match s with
    | q :: r0 =>
        if q =? 0x22 then
          match scan_string r0 with
          | Some (k, rest0) =>
              match skip_ws rest0 with
              | colon :: r1 =>
                  if colon =? 0x3A then
                    match parse_value fuel (skip_ws r1) with
                    | Parsed v rest =>
                        match skip_ws rest with
                        | d :: r =>
                            if d =? 0x7D then Parsed [(k, v)] r
                            else if d =? 0x2C then
                              match parse_members fuel (skip_ws r) with
                              | Parsed kvs rest' => Parsed ((k, v) :: kvs) rest'
                              | Malformed => Malformed
                              | OutOfFuel => OutOfFuel
                              end
                            else Malformed
                        | [] => Malformed
                        end
                    | Malformed => Malformed
                    | OutOfFuel => OutOfFuel
                    end
                  else Malformed
              | [] => Malformed
              end
          | None => Malformed
          end
        else Malformed
    | [] => Malformed
    end.
Proof. done. Qed.

(** What a parse leaves is shorter than what it was given. *)
Lemma parse_consumes fuel :
  (∀ s v r, parse_value fuel s = Parsed v r → (length r < length s)%nat)
  ∧ (∀ s vs r, parse_elements fuel s = Parsed vs r → (length r < length s)%nat)
  ∧ (∀ s kvs r, parse_members fuel s = Parsed kvs r → (length r < length s)%nat).
Proof.
  induction fuel as [|fuel (IHv & IHe & IHm)]; [done|].
  split; [|split].
  - intros s v r. rewrite parse_value_step.
    destruct s as [|c s1]; [done|].
    destruct (c =? 34).
    { destruct (scan_string s1) as [[t rest]|] eqn:E; [|done].
      intros [= <- <-]. apply scan_string_length in E. simpl. lia. }
    destruct (c =? 91).
    { pose proof (skip_ws_length s1) as Hs.
      destruct (skip_ws s1) as [|d r'] eqn:Ew; [done|].
      destruct (d =? 93); [intros [= <- <-]; simpl in *; lia|].
      destruct (parse_elements fuel (d :: r')) as [vs rest| |] eqn:E; try done.
      intros [= <- <-]. apply IHe in E. simpl in *. lia. }
    destruct (c =? 123).
    { pose proof (skip_ws_length s1) as Hs.
      destruct (skip_ws s1) as [|d r'] eqn:Ew; [done|].
      destruct (d =? 125); [intros [= <- <-]; simpl in *; lia|].
      destruct (parse_members fuel (d :: r')) as [kvs rest| |] eqn:E; try done.
      intros [= <- <-]. apply IHm in E. simpl in *. lia. }
    destruct (scan_constant (c :: s1)) as [[v' rest]|] eqn:E; [|done].
    intros [= <- <-]. by apply scan_constant_length in E.
  - intros s vs r. rewrite parse_elements_step.
    destruct (parse_value fuel s) as [v rest| |] eqn:E; try done.
    apply IHv in E. pose proof (skip_ws_length rest) as Hs.
    destruct (skip_ws rest) as [|d r1]; [done|].
    destruct (d =? 93); [intros [= <- <-]; simpl in *; lia|].
    destruct (d =? 44); [|done].
    pose proof (skip_ws_length r1) as Hs1.
    destruct (parse_elements fuel (skip_ws r1)) as [vs' rest'| |] eqn:E'; try done.
    intros [= <- <-]. apply IHe in E'. simpl in *. lia.
  - intros s kvs r. rewrite parse_members_step.
    destruct s as [|q r0]; [done|]. destruct (q =? 34); [|done].
    destruct (scan_string r0) as [[k rest0]|] eqn:Ek; [|done].
    apply scan_string_length in Ek. pose proof (skip_ws_length rest0) as Hs0.
    destruct (skip_ws rest0) as [|colon r1]; [done|]. destruct (colon =? 58); [|done].
    pose proof (skip_ws_length r1) as Hs1.
    destruct (parse_value fuel (skip_ws r1)) as [v rest| |] eqn:E; try done.
    apply IHv in E. pose proof (skip_ws_length rest) as Hs.
    destruct (skip_ws rest) as [|d r2]; [done|].
    destruct (d =? 125); [intros [= <- <-]; simpl in *; lia|].
    destruct (d =? 44); [|done].
    pose proof (skip_ws_length r2) as Hs2.
    destruct (parse_members fuel (skip_ws r2)) as [kvs' rest'| |] eqn:E'; try done.
    intros [= <- <-]. apply IHm in E'. simpl in *. lia.
Qed.

(** With fuel for twice the length of the text, the parse never runs out. *)
Lemma parse_fuel_enough fuel :
  (∀ s, (2 * length s < fuel)%nat → parse_value fuel s ≠ OutOfFuel)
  ∧ (∀ s, (2 * length s + 1 < fuel)%nat → parse_elements fuel s ≠ OutOfFuel)
  ∧ (∀ s, (2 * length s + 1 < fuel)%nat → parse_members fuel s ≠ OutOfFuel).
Proof.
  induction fuel as [|fuel (IHv & IHe & IHm)]; [repeat split; intros; lia|].
  pose proof (parse_consumes fuel) as (Cv & Ce & Cm).
  split; [|split].
  - intros s Hf. rewrite parse_value_step.
    destruct s as [|c s1]; [done|].
    destruct (c =? 34); [by destruct (scan_string s1) as [[]|]|].
    destruct (c =? 91).
    { pose proof (skip_ws_length s1) as Hs.
      destruct (skip_ws s1) as [|d r'] eqn:Ew; [done|].
      destruct (d =? 93); [done|].
      destruct (parse_elements fuel (d :: r')) eqn:E; try done.
      exfalso. revert E. apply IHe. simpl in *. lia. }
    destruct (c =? 123).
    { pose proof (skip_ws_length s1) as Hs.
      destruct (skip_ws s1) as [|d r'] eqn:Ew; [done|].
      destruct (d =? 125); [done|].
      destruct (parse_members fuel (d :: r')) eqn:E; try done.
      exfalso. revert E. apply IHm. simpl in *. lia. }
    by destruct (scan_constant (c :: s1)) as [[]|].
  - intros s Hf. rewrite parse_elements_step.
    destruct (parse_value fuel s) as [v rest| |] eqn:E; try done.
    2:{ exfalso. revert E. apply IHv. lia. }
    apply Cv in E. pose proof (skip_ws_length rest) as Hs.
    destruct (skip_ws rest) as [|d r1]; [done|].
    destruct (d =? 93); [done|]. destruct (d =? 44); [|done].
    pose proof (skip_ws_length r1) as Hs1.
    destruct (parse_elements fuel (skip_ws r1)) eqn:E'; try done.
    exfalso. revert E'. apply IHe. simpl in *. lia.
  - intros s Hf. rewrite parse_members_step.
    destruct s as [|q r0]; [done|]. destruct (q =? 34); [|done].
    destruct (scan_string r0) as [[k rest0]|] eqn:Ek; [|done].
    apply scan_string_length in Ek. pose proof (skip_ws_length rest0) as Hs0.
    destruct (skip_ws rest0) as [|colon r1]; [done|]. destruct (colon =? 58); [|done].
    pose proof (skip_ws_length r1) as Hs1.
    destruct (parse_value fuel (skip_ws r1)) as [v rest| |] eqn:E; try done.
    2:{ exfalso. revert E. apply IHv. simpl in *. lia. }
    apply Cv in E. pose proof (skip_ws_length rest) as Hs.
    destruct (skip_ws rest) as [|d r2]; [done|].
    destruct (d =? 125); [done|]. destruct (d =? 44); [|done].
    pose proof (skip_ws_length r2) as Hs2.
    destruct (parse_members fuel (skip_ws r2)) eqn:E'; try done.
    exfalso. revert E'. apply IHm. simpl in *. lia.
Qed.

(** [json_loads] gives the parse its fill of fuel: [None] is a text that is
    not JSON, never a parse cut short. *)
Lemma json_loads_fuel s :
  parse_value (2 * length s + 2) (skip_ws s) ≠ OutOfFuel.
Proof.
  apply parse_fuel_enough. pose proof (skip_ws_length s). lia.
Qed.

(** ** The serialization of the posted ids *)

Lemma hex_value_digit d : d < 16 → hex_value (hex_digit d) = Some d.
Proof.
  intros H. unfold hex_value, hex_digit.
  destruct (N.ltb_spec d 10).
  - replace ((48 <=? 48 + d) && (48 + d <=? 57)) with true by (symmetry; apply andb_true_iff; split; apply N.leb_le; lia).
    f_equal. lia.
  - replace ((48 <=? 97 + (d - 10)) && (97 + (d - 10) <=? 57)) with false
      by (symmetry; apply andb_false_iff; right; apply N.leb_gt; lia).
    replace ((97 <=? 97 + (d - 10)) && (97 + (d - 10) <=? 102)) with true
      by (symmetry; apply andb_true_iff; split; apply N.leb_le; lia).
    f_equal. lia.
Qed.

Lemma hex4_escape n :
  n < 65536 →
  hex4 (hex_digit (n / 4096)) (hex_digit (n / 256 mod 16))
       (hex_digit (n / 16 mod 16)) (hex_digit (n mod 16)) = Some n.
Proof.
  intros H. unfold hex4.
  assert (n / 4096 < 16) by (apply N.Div0.div_lt_upper_bound; lia).
  assert (n / 256 mod 16 < 16) by (apply N.mod_lt; lia).
  assert (n / 16 mod 16 < 16) by (apply N.mod_lt; lia).
  assert (n mod 16 < 16) by (apply N.mod_lt; lia).
  rewrite !hex_value_digit by done.
  simpl. f_equal.
  pose proof (N.div_mod n 16 ltac:(lia)) as H4.
  pose proof (N.div_mod (n / 16) 16 ltac:(lia)) as H5.
  pose proof (N.div_mod (n / 256) 16 ltac:(lia)) as H6.
  rewrite (N.Div0.div_div n 16 16) in H5. change (16 * 16) with 256 in H5.
  rewrite (N.Div0.div_div n 256 16) in H6. change (256 * 16) with 4096 in H6.
  lia.
Qed.

Lemma escape_char_shape c : c ≤ 0x10FFFF → escape_shape c (escape_char c).
Proof.
  intros Hc. unfold escape_char.
  repeat match goal with
         | |- context [c =? ?k] =>
             destruct (N.eqb_spec c k) as [->|?]; [apply shape_short; by vm_compute|]
         end.
  destruct ((32 <=? c) && (c <=? 126)) eqn:Er.
  { apply andb_true_iff in Er as [?%N.leb_le _]. by apply shape_raw. }
  destruct (N.ltb_spec c 65536) as [Hlt|Hge]; [by apply shape_u|].
  apply shape_pair.
  - unfold is_high_surrogate. apply andb_true_iff.
    assert ((c - 65536) / 1024 mod 1024 < 1024) by (apply N.mod_lt; lia).
    set (x := (c - 65536) / 1024 mod 1024) in *. clearbody x.
    split; apply N.leb_le; lia.
  - unfold is_low_surrogate. apply andb_true_iff.
    assert ((c - 65536) mod 1024 < 1024) by (apply N.mod_lt; lia).
    set (x := (c - 65536) mod 1024) in *. clearbody x.
    split; apply N.leb_le; lia.
  - unfold join_surrogates.
    assert ((c - 65536) / 1024 < 1024) by (apply N.Div0.div_lt_upper_bound; lia).
    rewrite (N.mod_small ((c - 65536) / 1024)) by done.
    pose proof (N.div_mod (c - 65536) 1024 ltac:(lia)) as Hd.
    set (x := (c - 65536) / 1024) in *. set (y := (c - 65536) mod 1024) in *.
    clearbody x y. lia.
Qed.

Lemma escaped_low_head b t : b ≠ 0x5C → escaped_low_surrogate (b :: t) = Some None.
Proof.
  intros Hb%N.eqb_neq. destruct t as [|v [|l1 [|l2 [|l3 [|l4 ?]]]]]; try done.
  cbn [escaped_low_surrogate]. by rewrite Hb.
Qed.

Lemma escaped_low_second b v t : v ≠ 0x75 → escaped_low_surrogate (b :: v :: t) = Some None.
Proof.
  intros Hv%N.eqb_neq. destruct t as [|l1 [|l2 [|l3 [|l4 ?]]]]; try done.
  cbn [escaped_low_surrogate]. by rewrite Hv, andb_false_r.
Qed.

Lemma escaped_low_escape u t :
  u < 65536 →
  escaped_low_surrogate (escape_u u ++ t)
  = Some (if is_low_surrogate u then Some u else None).
Proof.
  intros Hu. unfold escape_u. cbn [app escaped_low_surrogate].
  rewrite hex4_escape by done. done.
Qed.

Lemma high_surrogate_bound u : is_high_surrogate u = true → u < 65536 ∧ is_low_surrogate u = false.
Proof.
  unfold is_high_surrogate, is_low_surrogate.
  intros [H1%N.leb_le H2%N.leb_le]%andb_true_iff. split; [lia|].
  apply andb_false_iff. left. apply N.leb_gt. lia.
Qed.

Lemma low_surrogate_bound u : is_low_surrogate u = true → u < 65536.
Proof.
  unfold is_low_surrogate. intros [H1%N.leb_le H2%N.leb_le]%andb_true_iff. lia.
Qed.

Lemma escaped_low_none c r rest :
  is_high_surrogate c = true → json_text (c :: r) →
  escaped_low_surrogate (flat_map escape_char r ++ 0x22 :: rest) = Some None.
Proof.
  intros Hc (_ & Hpair & Hr). destruct r as [|d r]; [by apply escaped_low_head|].
  destruct Hr as (Hd & _ & _).
  cbn [flat_map]. rewrite <- app_assoc.
  destruct (escape_char_shape d Hd) as [e He Hu|? ? ?|Hlt|hi lo Hhi Hlo Hj].
  - by apply escaped_low_second.
  - by apply escaped_low_head.
  - rewrite escaped_low_escape by done.
    destruct (is_low_surrogate d) eqn:El; [|done]. by destruct Hpair.
  - rewrite <- app_assoc. apply high_surrogate_bound in Hhi as [Hb Hl].
    rewrite escaped_low_escape by done. by rewrite Hl.
Qed.

Lemma scan_string_escape s rest :
  json_text s →
  scan_string (flat_map escape_char s ++ 0x22 :: rest) = Some (s, rest).
Proof.
  induction s as [|c r IH]; intros Hs; [done|].
  pose proof Hs as (Hc & _ & Hr). specialize (IH Hr).
  cbn [flat_map]. rewrite <- app_assoc.
  set (T := flat_map escape_char r ++ 0x22 :: rest) in *.
  destruct (escape_char_shape c Hc) as [e He Hu|H1 H2 H3|Hlt|hi lo Hhi Hlo Hj].
  - cbn [app scan_string]. apply N.eqb_neq in He. rewrite He.
    change (92 =? 34) with false. change (92 =? 92) with true. cbn iota.
    rewrite Hu, IH. done.
  - cbn [app scan_string].
    apply N.eqb_neq in H1, H2. rewrite H1, H2.
    replace (c <? 32) with false by (symmetry; apply N.ltb_ge; done).
    by rewrite IH.
  - unfold escape_u. cbn [app scan_string].
    change (92 =? 34) with false. change (92 =? 92) with true.
    change (117 =? 117) with true. cbn iota.
    rewrite hex4_escape by done.
    destruct (is_high_surrogate c) eqn:Eh.
    + fold T. unfold T at 1. rewrite (escaped_low_none c r rest Eh Hs).
      fold T. by rewrite IH.
    + by rewrite IH.
  - pose proof (high_surrogate_bound _ Hhi) as [Hb _].
    pose proof (low_surrogate_bound _ Hlo) as Hb'.
    rewrite <- app_assoc.
    unfold escape_u at 1. cbn [app scan_string].
    change (92 =? 34) with false. change (92 =? 92) with true.
    change (117 =? 117) with true. cbn iota.
    rewrite hex4_escape by done. rewrite Hhi.
    rewrite escaped_low_escape by done. rewrite Hlo.
    unfold escape_u. cbn [app]. rewrite IH. simpl. by rewrite Hj.
Qed.

Section RoundTrip.
Context {R : PyRuntime}.

Lemma parse_value_string fuel s rest :
  json_text s →
  parse_value (S fuel) (json_string s ++ rest) = Parsed (PStr s) rest.
Proof.
  intros Hs. unfold json_string. cbn [app parse_value].
  change (34 =? 34) with true. cbn iota.
  rewrite <- app_assoc. cbn [app]. by rewrite scan_string_escape.
Qed.

Lemma json_string_head s : ∃ t, json_string s = 0x22 :: t.
Proof. by eexists. Qed.

Lemma join_strings_head (strs : list pystr) :
  strs ≠ [] → ∃ t, join item_separator (json_string <$> strs) = 0x22 :: t.
Proof.
  destruct strs as [|x [|y strs]]; [done| |]; intros _; by eexists.
Qed.

Lemma parse_elements_strings strs fuel rest :
  strs ≠ [] → Forall json_text strs → (length strs < fuel)%nat →
  parse_elements fuel (join item_separator (json_string <$> strs) ++ 0x0A :: 0x5D :: rest)
  = Parsed (PStr <$> strs) rest.
Proof.
  revert fuel. induction strs as [|x strs IH]; intros fuel Hne Hall Hfuel; [done|].
  inversion Hall as [|? ? Hx Hstrs]; subst.
  destruct fuel as [|[|fuel]]; [simpl in Hfuel; lia..|].
  rewrite parse_elements_step.
  destruct strs as [|y strs].
  - cbn [fmap list_fmap join].
    rewrite parse_value_string by done. done.
  - change (join item_separator (json_string <$> x :: y :: strs))
      with (json_string x ++ item_separator ++ join item_separator (json_string <$> y :: strs)).
    rewrite <- !app_assoc.
    rewrite parse_value_string by done.
    destruct (join_strings_head (y :: strs)) as [t Ht]; [done|].
    specialize (IH (S fuel) ltac:(done) Hstrs ltac:(simpl in *; lia)).
    rewrite Ht in *.
    change (skip_ws (item_separator ++ (34 :: t) ++ 10 :: 93 :: rest))
      with (44 :: 10 :: 32 :: 32 :: (34 :: t) ++ 10 :: 93 :: rest).
    cbv iota. change (44 =? 93) with false. change (44 =? 44) with true. cbv iota.
    change (skip_ws (10 :: 32 :: 32 :: (34 :: t) ++ 10 :: 93 :: rest))
      with ((34 :: t) ++ 10 :: 93 :: rest).
    by rewrite IH.
Qed.

Lemma join_strings_length (strs : list pystr) :
  (length strs ≤ length (join item_separator (json_string <$> strs)))%nat.
Proof.
  induction strs as [|x [|y strs] IH]; [done| |].
  - simpl. lia.
  - change (join item_separator (json_string <$> x :: y :: strs))
      with (json_string x ++ item_separator ++ join item_separator (json_string <$> y :: strs)).
    rewrite !length_app. simpl in *. lia.
Qed.

Lemma json_atom_strings (strs : list pystr) :
  json_atom <$> (AStr <$> strs) = json_string <$> strs.
Proof. induction strs as [|x strs IH]; [done|]. cbn [fmap list_fmap] in *. by f_equal. Qed.

Lemma json_dumps_strings x (strs : list pystr) :
  json_dumps_list (AStr <$> x :: strs)
  = 0x5B :: 0x0A :: 0x20 :: 0x20 ::
    join item_separator (json_string <$> x :: strs) ++ [0x0A; 0x5D].
Proof. unfold json_dumps_list. rewrite <- json_atom_strings. done. Qed.

Lemma parse_value_step_array fuel r :
  parse_value (S fuel) (0x5B :: r)
  = match skip_ws r with
    | [] => Malformed
    | d :: r' =>
        if d =? 0x5D then Parsed (PList []) r'
        else match parse_elements fuel (d :: r') with
             | Parsed vs rest => Parsed (PList vs) rest
             | Malformed => Malformed
             | OutOfFuel => OutOfFuel
             end
    end.
Proof. done. Qed.

Lemma json_loads_dumps_strings (strs : list pystr) :
  Forall json_text strs →
  json_loads (json_dumps_list (AStr <$> strs)) = Some (PList (PStr <$> strs)).
Proof.
  intros Hall. destruct strs as [|x strs]; [done|].
  rewrite json_dumps_strings. unfold json_loads.
  set (items := join item_separator (json_string <$> x :: strs)).
  set (body := 91 :: 10 :: 32 :: 32 :: items ++ [10; 93]).
  assert (Hlen : (length (x :: strs) < 2 * length body + 1)%nat).
  { unfold body. cbn [length]. rewrite length_app.
    pose proof (join_strings_length (x :: strs)). cbn [length] in *. fold items in H. lia. }
  replace (2 * length body + 2)%nat with (S (2 * length body + 1)) by lia.
  pose proof (parse_elements_strings (x :: strs) (2 * length body + 1) [] ltac:(done) Hall Hlen) as Hp.
  fold items in Hp.
  destruct (join_strings_head (x :: strs)) as [t Ht]; [done|]. fold items in Ht.
  unfold body at 2. rewrite Ht in *.
  change (skip_ws (91 :: 10 :: 32 :: 32 :: (34 :: t) ++ [10; 93]))
    with (91 :: 10 :: 32 :: 32 :: (34 :: t) ++ [10; 93]).
  rewrite parse_value_step_array.
  change (skip_ws (10 :: 32 :: 32 :: (34 :: t) ++ [10; 93]))
    with (34 :: t ++ [10; 93]).
  cbv iota. change (34 =? 93) with false. cbv iota.
  change (34 :: t ++ [10; 93]) with ((34 :: t) ++ [10; 93]).
  by rewrite Hp.
Qed.

Lemma mapM_atom_str (strs : list pystr) : mapM atom_str (AStr <$> strs) = Some strs.
Proof. induction strs as [|x strs IH]; [done|]. cbn. rewrite IH. done. Qed.

Lemma atoms_of_strings (l : list atom) :
  (∀ a, a ∈ l → ∃ s, a = AStr s) → ∃ strs : list pystr, l = AStr <$> strs.
Proof.
  induction l as [|a l IH]; intros H; [by exists []|].
  destruct (H a) as [s ->]; [by left|].
  destruct IH as [strs ->]; [intros b Hb; apply H; by right|].
  by exists (s :: strs).
Qed.

Lemma py_set_strings (strs : list pystr) :
  py_set (PStr <$> strs) = Ok (list_to_set (AStr <$> strs)).
Proof. induction strs as [|x strs IH]; [done|]. cbn. rewrite IH. done. Qed.

(** The body written for a set of ids reads back as that set. *)
Lemma posted_body_round_trip (ids : gset pystr) :
  (∀ s, s ∈ ids → json_text s) →
  ∃ body,
    posted_body (set_map AStr ids) = Ok body
    ∧ body ≠ []
    ∧ parse_posted_body (PStr body) = set_map AStr ids.
Proof.
  intros Htext. set (posted := set_map AStr ids : pyset).
  destruct (atoms_of_strings (elements posted)) as [strs Hstrs].
  { intros a [s [-> _]]%elem_of_elements%elem_of_map. by exists s. }
  assert (Hin : ∀ s, s ∈ strs → s ∈ ids).
  { intros s Hs. assert (AStr s ∈ posted) as [s' [[= ->] ?]]%elem_of_map; [|done].
    apply elem_of_elements. rewrite Hstrs. by apply list_elem_of_fmap_2. }
  set (sorted := merge_sort str_le strs).
  assert (Hperm : sorted ≡ₚ strs) by apply merge_sort_Permutation.
  exists (json_dumps_list (AStr <$> sorted)). split; [|split].
  - unfold posted_body, py_sorted. by rewrite Hstrs, mapM_atom_str.
  - unfold json_dumps_list. by destruct (AStr <$> sorted).
  - unfold parse_posted_body, json_loads_val.
    rewrite json_loads_dumps_strings.
    2:{ apply Forall_forall. intros s Hs. apply Htext, Hin. by rewrite <- Hperm. }
    cbn. rewrite py_set_strings. cbn.
    rewrite Hperm, <- Hstrs. apply list_to_set_elements_L.
Qed.

(** C8, as the code has it. Writing a set of ids and reading it back
    gives the same set, whatever the order of its elements: once the issue
    holds the body that [write_posted_set_to_issue] sent,
    [read_posted_set_from_issue] returns the set. This holds for every finite
    set of strings in which no high surrogate stands right before a low
    surrogate ([json_text]). *)
Theorem dedup_set_round_trip (ids : gset pystr) patch :
  (∀ s, s ∈ ids → json_text s) →
  (∀ body, ∃ code js, patch body = Response code js ∧ ¬ (400 ≤ code < 600)%Z) →
  ∃ body,
    write_posted_set_to_issue patch (set_map AStr ids) = Ok body
    ∧ ∀ code issue,
        ¬ (400 ≤ code < 600)%Z →
        assoc (lit "body") issue = Some (PStr body) →
        read_posted_set_from_issue (Response code (Some (PDict issue)))
        = Ok (set_map AStr ids).
Proof.
  intros Htext Hpatch.
  destruct (posted_body_round_trip ids Htext) as (body & Hbody & Hne & Hread).
  exists body. split.
  - unfold write_posted_set_to_issue. rewrite Hbody. simpl.
    destruct (Hpatch body) as (code & js & -> & Hcode).
    unfold raise_for_status.
    destruct (Z.leb_spec 400 code), (Z.ltb_spec code 600); simpl; try done. lia.
  - intros code issue Hcode Hissue.
    rewrite read_posted_set_total by done. rewrite Hissue. simpl.
    unfold py_or. simpl. destruct body; [done|]. by rewrite Hread.
Qed.

End RoundTrip.

(** * More properties of the program *)

(** ** The normal form of a name *)

Section NormalForm.
Context `{L : UnicodeLaws}.

Lemma low_not_upper c : low c → ascii_upper c = false.
Proof.
  intros [Hc _]. unfold ascii_upper. destruct ((65 <=? c) && (c <=? 90)) eqn:E; [|done].
  exfalso. pose proof E as E'. apply andb_true_iff in E' as [H1%N.leb_le H2%N.leb_le].
  rewrite lower_ascii in Hc by lia. rewrite E in Hc. injection Hc. lia.
Qed.

Lemma clean_not_punctuation c : clean c → punctuation c = false.
Proof.
  intros (H1 & H2 & H3 & H4 & H5 & _). unfold punctuation.
  apply N.eqb_neq in H1, H2, H3, H4, H5. by rewrite H1, H2, H3, H4, H5.
Qed.

(** X1. What [normalize] returns for a string is a sequence of words
    separated by one space each: it has no whitespace at either end and no
    two whitespace characters in a row, and its words hold none of the
    characters [&], [.], [,], [-], ['] and no ASCII capital letter. *)
Theorem normalize_shape s t :
  normalize (PStr s) = Ok t →
  ∃ ws, t = join (lit " ") ws
        ∧ Forall word ws
        ∧ Forall (Forall (λ c, punctuation c = false ∧ ascii_upper c = false)) ws.
Proof.
  intros H. assert (t = normalize_str s) as ->.
  { destruct s; simpl in H; by injection H as <-. }
  clear H. unfold normalize_str.
  set (u := replace_all replace_table (strip (py_lower s))).
  exists (split_ws u). split; [done|]. split; [apply split_ws_words|].
  apply split_ws_Forall.
  assert (Hlow : Forall low u) by apply replace_all_low, strip_Forall, lower_from_low.
  assert (Hclean : Forall clean u) by apply replace_all_clean, strip_Forall, lower_from_low.
  rewrite Forall_forall in *. intros c Hc. split.
  - apply clean_not_punctuation. by apply Hclean.
  - apply low_not_upper. by apply Hlow.
Qed.

Lemma ascii_keys_replace_table :
  ascii_keys replace_table
  = [ (lit "&", lit " and "); (lit ".", []); (lit ",", []); (lit "-", lit " "); (lit "'", []) ].
Proof. vm_compute. reflexivity. Qed.

(** X2. The two keys of the replacement table of [normalize] that are not
    ASCII never match: the text they are looked for in has been through
    [lower], and both keys hold a capital letter. On every string,
    replacing with the whole table does what replacing with its five ASCII
    keys does. *)
Theorem non_ascii_keys_never_match s :
  replace_all replace_table (strip (py_lower s))
  = replace_all (ascii_keys replace_table) (strip (py_lower s)).
Proof.
  set (t := strip (py_lower s)).
  assert (Hlow : Forall low t) by apply strip_Forall, lower_from_low.
  clearbody t. rewrite ascii_keys_replace_table.
  unfold replace_all, replace_table. cbn [fst snd fold_left].
  set (t4 := replace (lit "-") (lit " ") _).
  assert (H4 : Forall low t4).
  { unfold t4. repeat (apply replace_Forall; [repeat constructor; by apply low_ascii|]). done. }
  assert (Habsent : ∀ u, Forall low u → 0xC4 ∉ u).
  { intros u Hu Hin. rewrite Forall_forall in Hu. by apply (low_not_C4 _ (Hu _ Hin)). }
  match goal with
  | |- replace ?k2 [] (replace ?q [] (replace ?k1 ?sp t4)) = _ =>
      rewrite (replace_absent k1 sp t4 0xC4); [|by right; left|by apply Habsent];
      apply (replace_absent k2 _ _ 0xC4); [by right; left|]
  end.
  apply Habsent. apply replace_Forall; [constructor | done].
Qed.

End NormalForm.

(** ** The lookup tables and the registry *)

Section Registry.
Context {R : PyRuntime}.

Lemma register_keys_lookup_Some cid ks al k c :
  register_keys cid ks al !! k = Some c → (k ∈ ks ∧ c = cid) ∨ al !! k = Some c.
Proof.
  destruct (decide (k ∈ ks)) as [Hin|Hout].
  - rewrite register_keys_lookup_in by done. intros [= <-]. by left.
  - rewrite register_keys_lookup_notin by done. by right.
Qed.

Lemma fold_left_register_keys cid (ids : list pyval) el :
  fold_left (λ el espn_id, <[py_str espn_id := cid]> el) ids el
  = register_keys cid (map py_str ids) el.
Proof. revert el. induction ids as [|x ids IH]; intros el; [done|]. simpl. apply IH. Qed.

(** One entry registers its ESPN ids, and nothing else, in the id table. *)
Lemma register_entry_espn_ids t cid info t' :
  register_entry t (cid, info) = Ok t' →
  ∃ ks, entry_espn_ids info = Ok ks
        ∧ espn_id_lookup t' = register_keys cid ks (espn_id_lookup t).
Proof.
  unfold register_entry, entry_espn_ids. intros H.
  step H as council Ec. step H as aliases Ea. step H as groups Eg.
  step H as al Eal. step H as name En. step H as official Eo.
  step H as al' Eal'. step H as ids Ei. step H as ids' Ei'.
  injection H as <-. simpl. rewrite Ei. simpl. rewrite Ei'. simpl.
  eexists. split; [done|]. apply fold_left_register_keys.
Qed.

(** What the two tables hold after the registration of some entries. *)
Lemma build_lookup_tables entries t0 t :
  foldM register_entry entries t0 = Ok t →
  (∀ k cid, alias_lookup t !! k = Some cid →
     alias_lookup t0 !! k = Some cid
     ∨ ∃ info ks, (cid, info) ∈ entries ∧ entry_aliases info = Ok ks ∧ k ∈ ks)
  ∧ (∀ k cid, espn_id_lookup t !! k = Some cid →
     espn_id_lookup t0 !! k = Some cid
     ∨ ∃ info ks, (cid, info) ∈ entries ∧ entry_espn_ids info = Ok ks ∧ k ∈ ks).
Proof.
  revert t0. induction entries as [|[cid info] entries IH]; intros t0 H; simpl in H.
  - injection H as <-. split; intros k c Hk; by left.
  - step H as t1 E1. apply IH in H as [Hal Hel].
    destruct (register_entry_aliases _ _ _ _ E1) as (ks & Hks & Eal).
    destruct (register_entry_espn_ids _ _ _ _ E1) as (es & Hes & Eel).
    split; intros k c Hk.
    + destruct (Hal k c Hk) as [H1|(i & ks' & Hin & Hi & Hk')].
      * rewrite Eal in H1. apply register_keys_lookup_Some in H1 as [[Hin ->]|H1]; [|by left].
        right. exists info, ks. split; [left|done].
      * right. exists i, ks'. split; [by right|done].
    + destruct (Hel k c Hk) as [H1|(i & ks' & Hin & Hi & Hk')].
      * rewrite Eel in H1. apply register_keys_lookup_Some in H1 as [[Hin ->]|H1]; [|by left].
        right. exists info, es. split; [left|done].
      * right. exists i, ks'. split; [by right|done].
Qed.

(** The registration that is not overwritten stays, in both tables. *)
Lemma build_lookup_last before cid info after t :
  build_lookup (PDict (before ++ (cid, info) :: after)) = Ok t →
  (∀ ks k, entry_aliases info = Ok ks → k ∈ ks →
     (∀ cid' info' ks', (cid', info') ∈ after → entry_aliases info' = Ok ks' → k ∉ ks') →
     alias_lookup t !! k = Some cid)
  ∧ (∀ ks k, entry_espn_ids info = Ok ks → k ∈ ks →
     (∀ cid' info' ks', (cid', info') ∈ after → entry_espn_ids info' = Ok ks' → k ∉ ks') →
     espn_id_lookup t !! k = Some cid).
Proof.
  unfold build_lookup. simpl. rewrite foldM_app. intros H.
  step H as t1 E1. simpl in H. step H as t2 E2.
  destruct (register_entry_aliases _ _ _ _ E2) as (ks1 & Hks1 & Hal).
  destruct (register_entry_espn_ids _ _ _ _ E2) as (es1 & Hes1 & Hel).
  split; intros ks k Hks Hk Hafter.
  - rewrite Hks in Hks1. injection Hks1 as <-.
    revert H. apply (foldM_invariant_in (λ t, alias_lookup t !! k = Some cid)).
    + intros t3 [cid' info'] t4 Hin Ht3 Hreg.
      apply register_entry_aliases in Hreg as (ks2 & Hks2 & ->).
      rewrite register_keys_lookup_notin; [done|]. by eapply Hafter.
    + rewrite Hal. by apply register_keys_lookup_in.
  - rewrite Hks in Hes1. injection Hes1 as <-.
    revert H. apply (foldM_invariant_in (λ t, espn_id_lookup t !! k = Some cid)).
    + intros t3 [cid' info'] t4 Hin Ht3 Hreg.
      apply register_entry_espn_ids in Hreg as (ks2 & Hks2 & ->).
      rewrite register_keys_lookup_notin; [done|]. by eapply Hafter.
    + rewrite Hel. by apply register_keys_lookup_in.
Qed.

(** X3. The alias table never maps a name to a council that did not
    register it: when [build_lookup] maps the key [k] to [cid], the registry
    has an entry [cid] one of whose aliases (or whose official name) has the
    normal form [k]. *)
Theorem alias_table_sound entries t k cid :
  build_lookup (PDict entries) = Ok t →
  alias_lookup t !! k = Some cid →
  ∃ info ks, (cid, info) ∈ entries ∧ entry_aliases info = Ok ks ∧ k ∈ ks.
Proof.
  unfold build_lookup. simpl. intros [Hal _]%build_lookup_tables Hk.
  destruct (Hal k cid Hk) as [H|H]; [|done]. simpl in H. by rewrite lookup_empty in H.
Qed.

(** X4. Builder and matcher together, by name: a participant whose id is
    not a registered ESPN id and whose display name has the normal form of
    an alias of the entry [cid] resolves to [cid], when no later entry of
    the registry registers that normal form. *)
Theorem registered_alias_resolves before cid info after t ks team_obj team name :
  build_lookup (PDict (before ++ (cid, info) :: after)) = Ok t →
  entry_aliases info = Ok ks →
  (∀ cid' info' ks', (cid', info') ∈ after → entry_aliases info' = Ok ks' →
     normalize_str name ∉ ks') →
  dict_get team_obj (lit "team") (PDict []) = Ok (PDict team) →
  (∀ team_id, assoc (lit "id") team = Some team_id → truthy team_id = true →
     espn_id_lookup t !! py_str team_id = None) →
  assoc (lit "displayName") team = Some (PStr name) →
  name ≠ [] →
  normalize_str name ∈ ks →
  resolve_team team_obj (alias_lookup t) (espn_id_lookup t) = Ok (Some cid).
Proof.
  intros [Hal _]%build_lookup_last Hks Hafter Hteam Hid Hname Hne Hin.
  specialize (Hal ks _ Hks Hin Hafter).
  unfold resolve_team. rewrite Hteam. simpl. rewrite Hname. simpl.
  destruct name as [|c name]; [done|]. simpl.
  destruct (assoc (lit "id") team) as [team_id|] eqn:Ei; simpl.
  - destruct (truthy team_id) eqn:Et.
    + rewrite (Hid team_id eq_refl Et). by rewrite Hal.
    + by rewrite Hal.
  - by rewrite Hal.
Qed.

(** X5. Builder and matcher together, by id: ids are compared as strings.
    A participant whose id, as [str] prints it, is an ESPN id of the entry
    [cid], as [str] prints it, resolves to [cid] whatever its names are,
    when no later entry of the registry registers that id. *)
Theorem registered_espn_id_resolves before cid info after t ks team_obj team team_id :
  build_lookup (PDict (before ++ (cid, info) :: after)) = Ok t →
  entry_espn_ids info = Ok ks →
  (∀ cid' info' ks', (cid', info') ∈ after → entry_espn_ids info' = Ok ks' →
     py_str team_id ∉ ks') →
  dict_get team_obj (lit "team") (PDict []) = Ok (PDict team) →
  assoc (lit "id") team = Some team_id →
  truthy team_id = true →
  py_str team_id ∈ ks →
  resolve_team team_obj (alias_lookup t) (espn_id_lookup t) = Ok (Some cid).
Proof.
  intros [_ Hel]%build_lookup_last Hks Hafter Hteam Hid Ht Hin.
  specialize (Hel ks (py_str team_id) Hks Hin Hafter).
  unfold resolve_team. rewrite Hteam. simpl. rewrite Hid. simpl.
  destruct (truthy (default (PStr []) (assoc (lit "displayName") team))); simpl;
    by rewrite Ht, Hel.
Qed.

Lemma resolve_fallback_Some team al keys cid :
  resolve_fallback team al keys = Ok (Some cid) → ∃ k, al !! k = Some cid.
Proof.
  induction keys as [|key keys IH]; simpl; [done|]. intros H.
  step H as v Ev. destruct (truthy v); [|by apply IH].
  step H as k Ek. destruct (al !! k) as [c|] eqn:E; [|by apply IH].
  injection H as <-. by exists k.
Qed.

(** The id that [resolve_team] returns comes from one of the two tables. *)
Lemma resolve_team_Some team_obj al el cid :
  resolve_team team_obj al el = Ok (Some cid) →
  (∃ k, el !! k = Some cid) ∨ (∃ k, al !! k = Some cid).
Proof.
  unfold resolve_team. intros H.
  step H as team Et. step H as team_id Ei. step H as d Ed. step H as display Edisp.
  destruct (if truthy team_id then el !! py_str team_id else None) as [c|] eqn:E.
  - injection H as <-. left. destruct (truthy team_id); [|done]. by eexists.
  - step H as norm En. destruct (al !! norm) as [c|] eqn:Ea.
    + injection H as <-. right. by eexists.
    + right. by eapply resolve_fallback_Some.
Qed.

Lemma assoc_Some_elem k (d : list (pystr * pyval)) v :
  (k, v) ∈ d → ∃ v', assoc k d = Some v'.
Proof.
  induction d as [|[k' v'] d IH]; intros H; [by apply elem_of_nil in H|].
  simpl. destruct (decide (k = k')); [by eexists|].
  apply elem_of_cons in H as [[= -> ->]|H]; [done | by apply IH].
Qed.

(** The id that [resolve_team] returns belongs to an entry of the registry. *)
Lemma resolved_in_registry entries t team_obj cid :
  build_lookup (PDict entries) = Ok t →
  resolve_team team_obj (alias_lookup t) (espn_id_lookup t) = Ok (Some cid) →
  ∃ info, (cid, info) ∈ entries.
Proof.
  unfold build_lookup. simpl. intros [Hal Hel]%build_lookup_tables Hres.
  apply resolve_team_Some in Hres as [[k Hk]|[k Hk]].
  - destruct (Hel k cid Hk) as [H|(info & ? & ? & _)]; [|by exists info].
    simpl in H. by rewrite lookup_empty in H.
  - destruct (Hal k cid Hk) as [H|(info & ? & ? & _)]; [|by exists info].
    simpl in H. by rewrite lookup_empty in H.
Qed.

(** X6. The id that [resolve_team] returns from the tables of
    [build_lookup] is a key of the registry: [councils[home_cid]] and
    [councils[away_cid]] in [main] never raise a [KeyError]. *)
Theorem resolved_id_is_registry_key entries t team_obj cid :
  build_lookup (PDict entries) = Ok t →
  resolve_team team_obj (alias_lookup t) (espn_id_lookup t) = Ok (Some cid) →
  ∃ info, subscript_key (PDict entries) cid = Ok info.
Proof.
  intros Ht Hres. destruct (resolved_in_registry _ _ _ _ Ht Hres) as [info Hin].
  apply assoc_Some_elem in Hin as [v Hv]. exists v. simpl. by rewrite Hv.
Qed.

Lemma normalize_name_like v : name_like v → ∃ k, normalize v = Ok k.
Proof. intros [->|[s ->]]; [by eexists|]. unfold normalize. destruct s; by eexists. Qed.

Lemma resolve_fallback_normalized d al keys :
  (∀ key v, key ∈ keys → assoc key d = Some v → ∃ k, normalize v = Ok k) →
  ∃ r, resolve_fallback (PDict d) al keys = Ok r.
Proof.
  induction keys as [|key keys IH]; intros H; [by eexists|].
  cbn [resolve_fallback dict_get mbind exc_bind].
  assert (IH' : ∃ r, resolve_fallback (PDict d) al keys = Ok r).
  { apply IH. intros k v Hk. apply H. by right. }
  destruct (assoc key d) as [v|] eqn:E; cbn [default from_option id]; [|done].
  destruct (truthy v); [|done].
  destruct (H key v) as [k ->]; [left|done|].
  cbn [mbind exc_bind]. destruct (al !! k); [by eexists | done].
Qed.

(** [resolve_team] ends well when [normalize] does on the name fields. *)
Lemma resolve_team_normalized team_obj team al el :
  dict_get team_obj (lit "team") (PDict []) = Ok (PDict team) →
  (∀ key v, key ∈ lit "shortDisplayName" :: fallback_keys →
            assoc key team = Some v → ∃ k, normalize v = Ok k) →
  ∃ r, resolve_team team_obj al el = Ok r.
Proof.
  intros Ht Hnames. unfold resolve_team. rewrite Ht. cbn [mbind exc_bind dict_get].
  set (d := default (PStr []) (assoc (lit "displayName") team)).
  set (sd := default (PStr []) (assoc (lit "shortDisplayName") team)).
  assert (Hd : ∃ k, normalize d = Ok k).
  { unfold d. destruct (assoc (lit "displayName") team) as [v|] eqn:E; [|by eexists].
    apply (Hnames (lit "displayName")); [|done]. right; right; left. }
  assert (Hsd : ∃ k, normalize sd = Ok k).
  { unfold sd. destruct (assoc (lit "shortDisplayName") team) as [v|] eqn:E; [|by eexists].
    apply (Hnames (lit "shortDisplayName")); [left | done]. }
  assert (Hdisp : ∃ x, (if truthy d then Ok d else Ok sd) = Ok x ∧ ∃ k, normalize x = Ok k).
  { destruct (truthy d); by eexists. }
  destruct Hdisp as (x & -> & k & Hx). cbn [mbind exc_bind].
  destruct (if truthy _ then el !! _ else None); [by eexists|].
  rewrite Hx. cbn [mbind exc_bind].
  destruct (al !! k); [by eexists|].
  apply resolve_fallback_normalized. intros key v Hk. apply Hnames. by right.
Qed.

(** X7. [resolve_team] raises nothing on a participant whose team is an
    object and whose name fields, where it has them, hold strings or null:
    whatever the id and the other fields hold, and whatever the tables are,
    it returns an id or [None]. *)
Theorem resolve_team_never_raises_on_names team_obj team al el :
  dict_get team_obj (lit "team") (PDict []) = Ok (PDict team) →
  (∀ key v, key ∈ lit "shortDisplayName" :: fallback_keys →
            assoc key team = Some v → name_like v) →
  ∃ r, resolve_team team_obj al el = Ok r.
Proof.
  intros Ht Hnames. eapply resolve_team_normalized; [exact Ht|].
  intros key v Hk Hv. apply normalize_name_like. by eapply Hnames.
Qed.

Lemma register_names_total (cid : pystr) (names : list pyval) (al : gmap pystr pystr) :
  Forall name_like names →
  ∃ al', foldM (λ al a, k ← normalize a; Ok (<[k := cid]> al)) names al = Ok al'.
Proof.
  intros H. revert al. induction H as [|a names Ha _ IH]; intros al; [by eexists|].
  cbn [foldM]. destruct (normalize_name_like a Ha) as [k ->]. cbn [mbind exc_bind]. apply IH.
Qed.

Lemma register_group_list (cid : pystr) (al : gmap pystr pystr) (names : list pyval) :
  register_group cid al (PList names)
  = foldM (λ al a, k ← normalize a; Ok (<[k := cid]> al)) names al.
Proof. done. Qed.

Lemma register_groups_total (cid : pystr) (groups : list (pystr * pyval))
    (al : gmap pystr pystr) :
  Forall (λ g, ∃ names, g.2 = PList names ∧ Forall name_like names) groups →
  ∃ al', foldM (register_group cid) (map snd groups) al = Ok al'.
Proof.
  intros H. revert al. induction H as [|g groups (names & Hg & Hn) _ IH]; intros al; [by eexists|].
  cbn [map foldM]. rewrite Hg, register_group_list.
  destruct (register_names_total cid names al Hn) as [al1 ->]. cbn [mbind exc_bind]. apply IH.
Qed.

Lemma register_entry_total t cid info :
  well_formed_entry info → ∃ t', register_entry t (cid, info) = Ok t'.
Proof.
  intros (d & -> & (groups & Hal & Hgroups) & Hname & Hoff & (ids & Hids)).
  unfold register_entry. cbn [dict_get mbind exc_bind]. rewrite Hal. cbn [py_values mbind exc_bind].
  destruct (register_groups_total cid groups (alias_lookup t) Hgroups) as [al ->].
  cbn [mbind exc_bind].
  set (name := default PNone (assoc (lit "official_name") d)) in *.
  set (off := default (PStr []) (assoc (lit "official") d)) in *.
  assert (Ho : ∃ official, (if truthy name then Ok name else Ok off) = Ok official
                           ∧ name_like official).
  { destruct (truthy name); by eexists. }
  destruct Ho as (official & -> & Ho). cbn [mbind exc_bind].
  assert (Hal' : ∃ al', (if truthy official
                         then k ← normalize official; Ok (<[k := cid]> al)
                         else Ok al) = Ok al').
  { destruct (truthy official); [|by eexists].
    destruct (normalize_name_like official Ho) as [k ->]. by eexists. }
  destruct Hal' as [al' ->]. cbn [mbind exc_bind]. rewrite Hids. cbn [py_iter mbind exc_bind].
  by eexists.
Qed.

(** X25. [build_lookup] accepts every registry of the expected shape: when
    every entry is an object whose alias groups are lists of strings (or
    nulls), whose official name is a string or missing, and whose ESPN ids
    are a list, it raises nothing and returns the three tables. *)
Theorem build_lookup_accepts_well_formed_registry entries :
  Forall (λ entry, well_formed_entry entry.2) entries →
  ∃ t, build_lookup (PDict entries) = Ok t.
Proof.
  intros H. unfold build_lookup. cbn [py_items mbind exc_bind].
  generalize (Lookups ∅ ∅ ∅). induction H as [|[cid info] entries Hi _ IH]; intros t0.
  - by eexists.
  - cbn [foldM]. destruct (register_entry_total t0 cid info Hi) as [t1 ->].
    cbn [mbind exc_bind]. apply IH.
Qed.

End Registry.

(** ** The two sides of a game *)

Section Sides.
Context {R : PyRuntime}.

Lemma last_filter_cons {A} (p : A → bool) x l :
  last (List.filter p (x :: l))
  = match last (List.filter p l) with
    | Some y => Some y
    | None => if p x then Some x else None
    end.
Proof.
  simpl. destruct (p x); [|by destruct (last (List.filter p l))].
  rewrite last_cons. by destruct (last (List.filter p l)).
Qed.

Lemma pick_side_dict h0 a0 d :
  pick_side (h0, a0) (PDict d)
  = Ok (if side_is "home" (PDict d) then (PDict d, a0)
        else if side_is "away" (PDict d) then (h0, PDict d)
        else (h0, a0)).
Proof.
  unfold pick_side. cbn [dict_get mbind exc_bind fst snd side_is].
  set (side := default PNone (assoc (lit "homeAway") d)).
  by destruct (str_eq side (lit "home")), (str_eq side (lit "away")).
Qed.

Lemma side_is_home_away t : side_is "home" t = true → side_is "away" t = false.
Proof.
  destruct t as [| | | | | |d]; try done. simpl.
  destruct (default PNone (assoc (lit "homeAway") d)); try done. simpl.
  by intros ->%bool_decide_eq_true.
Qed.

(** The loop over the competitors keeps the last one marked for each side. *)
Lemma pick_sides ts h0 a0 :
  Forall is_dict ts →
  foldM pick_side ts (h0, a0)
  = Ok (default h0 (last (List.filter (side_is "home") ts)),
        default a0 (last (List.filter (side_is "away") ts))).
Proof.
  intros H. revert h0 a0. induction H as [|t ts [d ->] _ IH]; intros h0 a0; [done|].
  rewrite !last_filter_cons.
  change (foldM pick_side (PDict d :: ts) (h0, a0))
    with (pick_side (h0, a0) (PDict d) ≫= foldM pick_side ts).
  rewrite pick_side_dict. cbn [mbind exc_bind].
  destruct (side_is "home" (PDict d)) eqn:Eh.
  - rewrite (side_is_home_away _ Eh), IH.
    by destruct (last (List.filter _ ts)), (last (List.filter _ ts)).
  - destruct (side_is "away" (PDict d)); rewrite IH;
      by destruct (last (List.filter _ ts)), (last (List.filter _ ts)).
Qed.

Lemma marked_truthy side t l :
  last (List.filter (side_is side) l) = Some t → truthy t = true.
Proof.
  intros H. apply last_Some_elem_of, list_elem_of_In, filter_In in H as [_ H].
  destruct t as [| | | | | |d]; try done. simpl in H. destruct d; done.
Qed.

(** X8. The home and the away side of a game: when the competitors, all
    objects, have one marked home and one marked away, the two sides are the
    last competitor marked home and the last one marked away, wherever they
    stand in the list; when either mark is missing, the sides are the first
    and the second competitor, marks ignored, and fewer than two competitors
    are an [IndexError]. *)
Theorem home_and_away_spec ts :
  Forall is_dict ts →
  home_and_away (PList ts)
  = match last (List.filter (side_is "home") ts), last (List.filter (side_is "away") ts) with
    | Some home, Some away => Ok (home, away)
    | _, _ =>
        match ts with
        | first :: second :: _ => Ok (first, second)
        | _ => Raise IndexError
        end
    end.
Proof.
  intros H. unfold home_and_away. cbn [py_iter mbind exc_bind].
  rewrite pick_sides by done. cbn [mbind exc_bind fst snd].
  destruct (last (List.filter (side_is "home") ts)) as [h|] eqn:Eh;
    destruct (last (List.filter (side_is "away") ts)) as [a|] eqn:Ea; cbn [default from_option id].
  - by rewrite (marked_truthy _ _ _ Eh), (marked_truthy _ _ _ Ea).
  - rewrite (marked_truthy _ _ _ Eh). cbn. by destruct ts as [|? [|? ?]].
  - cbn. by destruct ts as [|? [|? ?]].
  - cbn. by destruct ts as [|? [|? ?]].
Qed.

End Sides.

(** ** The store issue *)

Section Issue.
Context {R : PyRuntime}.

Lemma raise_for_status_Ok code : ¬ (400 ≤ code < 600)%Z → raise_for_status code = Ok ().
Proof.
  intros H. unfold raise_for_status.
  destruct (Z.leb_spec 400 code), (Z.ltb_spec code 600); simpl; try done. lia.
Qed.

Lemma raise_for_status_Raise code :
  (400 ≤ code < 600)%Z → raise_for_status code = Raise HTTPError.
Proof.
  intros H. unfold raise_for_status.
  destruct (Z.leb_spec 400 code), (Z.ltb_spec code 600); simpl; try done; lia.
Qed.

(** A loop whose steps leave the state as it is. *)
Lemma foldM_fixed_in {A S} (f : S → A → exc S) l s :
  (∀ a, a ∈ l → f s a = Ok s) → foldM f l s = Ok s.
Proof.
  induction l as [|a l IH]; intros H; [done|]. simpl. rewrite H by left.
  simpl. apply IH. intros b Hb. apply H. by right.
Qed.

(** Every step of a loop that ends well has ended well. *)
Lemma foldM_Ok_in {A S} (f : S → A → exc S) l s0 s a :
  foldM f l s0 = Ok s → a ∈ l → ∃ s1 s2, f s1 a = Ok s2.
Proof.
  revert s0. induction l as [|b l IH]; intros s0 H Ha; [by apply elem_of_nil in Ha|].
  simpl in H. step H as s1 E. apply elem_of_cons in Ha as [->|Ha]; [by eexists _, _|].
  by eapply IH.
Qed.

(** X9. [find_or_create_issue] uses the first open issue that has the
    title: it returns its number and its body (the empty string for a body
    that is missing or null), whatever the issues listed after it are, and
    whatever the reply to a creation would be. *)
Theorem existing_issue_is_used token repository title code pre d post creation n :
  token ≠ [] → repository ≠ [] → ¬ (400 ≤ code < 600)%Z →
  Forall (other_issue title) pre →
  str_eq (default PNone (assoc (lit "title") d)) title = true →
  assoc (lit "number") d = Some n →
  find_or_create_issue token repository title
    (Response code (Some (PList (pre ++ PDict d :: post)))) creation
  = Ok (n, py_or (default PNone (assoc (lit "body") d)) (PStr [])).
Proof.
  intros Ht Hr Hcode Hpre Htitle Hn. unfold find_or_create_issue.
  destruct token as [|t0 token]; [done|]. destruct repository as [|r0 repository]; [done|].
  rewrite raise_for_status_Ok by done. cbn [mbind exc_bind response_json py_iter].
  rewrite foldM_app.
  match goal with |- context [foldM ?f pre None] => set (look := f) end.
  assert (Hlook : foldM look pre None = Ok None).
  { induction Hpre as [|i pre (di & -> & Hi) _ IH]; [done|].
    change (foldM look (PDict di :: pre) None) with (look None (PDict di) ≫= foldM look pre).
    replace (look None (PDict di)) with (Ok None : exc (option (pyval * pyval))); [done|].
    unfold look. cbn [dict_get mbind exc_bind]. by rewrite Hi. }
  rewrite Hlook.
  change (Ok None ≫= foldM look (PDict d :: post))
    with (look None (PDict d) ≫= foldM look post).
  replace (look None (PDict d))
    with (Ok (Some (n, py_or (default PNone (assoc (lit "body") d)) (PStr [])))
          : exc (option (pyval * pyval))).
  2:{ unfold look. cbn [dict_get mbind exc_bind subscript_key]. by rewrite Htitle, Hn. }
  cbn [mbind exc_bind]. by rewrite foldM_fixed_in.
Qed.

(** X10. When no open issue has the title, [find_or_create_issue] creates
    the issue: it returns the number and the body of the issue that the
    creation answers with, and it raises when the creation fails, with an
    [HTTPError] on a status from 400 to 599. *)
Theorem missing_issue_is_created token repository title code issues :
  token ≠ [] → repository ≠ [] → ¬ (400 ≤ code < 600)%Z →
  Forall (other_issue title) issues →
  let find creation :=
    find_or_create_issue token repository title
      (Response code (Some (PList issues))) creation in
  (∀ code2 d n, ¬ (400 ≤ code2 < 600)%Z → assoc (lit "number") d = Some n →
     find (Response code2 (Some (PDict d)))
     = Ok (n, py_or (default PNone (assoc (lit "body") d)) (PStr [])))
  ∧ (∀ code2 js, (400 ≤ code2 < 600)%Z → find (Response code2 js) = Raise HTTPError)
  ∧ find NoResponse = Raise RequestException.
Proof.
  intros Ht Hr Hcode Hall find.
  assert (Hfind : ∀ creation,
    find creation
    = match creation with
      | NoResponse => Raise RequestException
      | Response code2 js2 =>
          _ ← raise_for_status code2;
          issue ← response_json js2;
          number ← subscript_key issue (lit "number");
          body ← dict_get issue (lit "body") PNone;
          Ok (number, py_or body (PStr []))
      end).
  { intros creation. unfold find, find_or_create_issue.
    destruct token as [|t0 token]; [done|]. destruct repository as [|r0 repository]; [done|].
    rewrite raise_for_status_Ok by done. cbn [mbind exc_bind response_json py_iter].
    match goal with |- context [foldM ?f issues None] => set (look := f) end.
    assert (Hlook : foldM look issues None = Ok None).
    { induction Hall as [|i issues (di & -> & Hi) _ IH]; [done|].
      change (foldM look (PDict di :: issues) None)
        with (look None (PDict di) ≫= foldM look issues).
      replace (look None (PDict di)) with (Ok None : exc (option (pyval * pyval))); [done|].
      unfold look. cbn [dict_get mbind exc_bind]. by rewrite Hi. }
    by rewrite Hlook. }
  split; [|split].
  - intros code2 d n Hc Hn. rewrite Hfind, raise_for_status_Ok by done.
    cbn [mbind exc_bind response_json subscript_key dict_get]. by rewrite Hn.
  - intros code2 js Hc. by rewrite Hfind, raise_for_status_Raise.
  - by rewrite Hfind.
Qed.

End Issue.

(** ** The body of the store issue *)

Section Body.
Context {R : PyRuntime}.

Lemma str_leb_total a b : str_leb a b = true ∨ str_leb b a = true.
Proof.
  revert b. induction a as [|x a IH]; intros [|y b]; simpl; auto.
  destruct (N.ltb_spec x y); [by left|]. destruct (N.ltb_spec y x); [by right|].
  assert (x = y) as -> by lia. rewrite N.eqb_refl. simpl. apply IH.
Qed.

Lemma str_leb_trans a b c : str_leb a b = true → str_leb b c = true → str_leb a c = true.
Proof.
  revert b c. induction a as [|x a IH]; intros [|y b] [|z c]; simpl; try done.
  intros [H1%N.ltb_lt|[->%N.eqb_eq H1]%andb_true_iff]%orb_true_iff
         [H2%N.ltb_lt|[->%N.eqb_eq H2]%andb_true_iff]%orb_true_iff;
    apply orb_true_iff.
  - left. apply N.ltb_lt. lia.
  - left. by apply N.ltb_lt.
  - left. by apply N.ltb_lt.
  - right. rewrite N.eqb_refl. simpl. by eapply IH.
Qed.

#[local] Instance str_le_total : Total str_le.
Proof. intros a b. apply str_leb_total. Qed.

#[local] Instance str_le_trans : Transitive str_le.
Proof. intros a b c. apply str_leb_trans. Qed.

(** X11. The body that [write_posted_set_to_issue] sends for a set of ids
    is the JSON array of these ids in ascending order of their code points,
    each id once: the body depends on the set only, not on the order in
    which the ids came in. *)
Theorem stored_ids_sorted (ids : gset pystr) :
  ∃ l, posted_body (set_map AStr ids) = Ok (json_dumps_list (AStr <$> l))
       ∧ StronglySorted str_le l ∧ NoDup l ∧ ∀ s, s ∈ l ↔ s ∈ ids.
Proof.
  set (posted := set_map AStr ids : pyset).
  destruct (atoms_of_strings (elements posted)) as [strs Hstrs].
  { intros a [s [-> _]]%elem_of_elements%elem_of_map. by exists s. }
  assert (Hperm : merge_sort str_le strs ≡ₚ strs) by apply merge_sort_Permutation.
  exists (merge_sort str_le strs). split; [|split; [|split]].
  - unfold posted_body, py_sorted. fold posted. by rewrite Hstrs, mapM_atom_str.
  - apply StronglySorted_merge_sort; apply _.
  - rewrite Hperm. apply (NoDup_fmap_1 AStr). rewrite <- Hstrs. apply NoDup_elements.
  - intros s. rewrite Hperm. split.
    + intros Hs. assert (AStr s ∈ posted) as [s' [[= ->] ?]]%elem_of_map; [|done].
      apply elem_of_elements. rewrite Hstrs. by apply list_elem_of_fmap_2.
    + intros Hs. assert (AStr s ∈ elements posted) as Hin.
      { apply elem_of_elements, elem_of_map. by exists s. }
      rewrite Hstrs in Hin. apply list_elem_of_fmap in Hin as (s' & [= ->] & ?). done.
Qed.

Lemma mapM_atom_str_None l a : a ∈ l → atom_str a = None → mapM atom_str l = None.
Proof.
  intros Hin Ha. induction l as [|b l IH]; [by apply elem_of_nil in Hin|].
  cbn. apply elem_of_cons in Hin as [<-|Hin]; [by rewrite Ha|].
  rewrite (IH Hin). by destruct (atom_str b).
Qed.

(** X12. A set that holds an id, which is a string, and an element that
    is not a string (a number, a boolean or null read from the store)
    cannot be written: [sorted] raises a [TypeError] before any request is
    made, whatever the reply to the request would be. *)
Theorem mixed_types_write_fails patch (posted : pyset) s a :
  AStr s ∈ posted → a ∈ posted → atom_str a = None →
  write_posted_set_to_issue patch posted = Raise TypeError.
Proof.
  intros Hs Ha Hna. unfold write_posted_set_to_issue, posted_body, py_sorted.
  apply elem_of_elements in Hs, Ha.
  rewrite (mapM_atom_str_None _ a) by done.
  assert (Hnum : forallb is_number (elements posted) = false).
  { destruct (forallb is_number (elements posted)) eqn:E; [|done].
    rewrite forallb_forall in E. apply list_elem_of_In in Hs. by apply E in Hs. }
  rewrite Hnum.
  destruct (elements posted) as [|x [|y l]] eqn:El; [done| |done].
  apply list_elem_of_singleton in Hs, Ha. subst. discriminate Hna.
Qed.

End Body.

(** ** The announcement *)

Section Announcement.
Context {R : PyRuntime}.

Lemma str_items_strings (ws : list pystr) : str_items (PStr <$> ws) = Ok ws.
Proof. induction ws as [|w ws IH]; [done|]. cbn. rewrite IH. done. Qed.

Lemma gather_names bs nss (names : list pyval) :
  Forall2 broadcast_names bs nss →
  foldM (λ names b,
           ns ← dict_get b (lit "names") (PList []);
           ns ← py_iter ns;
           Ok (names ++ ns)) bs names
  = Ok (names ++ (PStr <$> concat nss)).
Proof.
  intros H. revert names. induction H as [|b ns bs nss (d & -> & Hd) _ IH]; intros names.
  - simpl. by rewrite app_nil_r.
  - cbn [foldM dict_get mbind exc_bind]. rewrite Hd. cbn [py_iter mbind exc_bind].
    rewrite IH. cbn [concat]. by rewrite fmap_app, app_assoc.
Qed.

(** X13. [get_tv_channel] on a competition whose broadcasts are objects
    with lists of names (a broadcast without names counts for none): the
    names of all the broadcasts, in their order, joined by a comma and a
    space; ["TBD"] when there is no broadcast or no name at all. *)
Theorem get_tv_channel_joins_names comp bs nss :
  default (PList []) (assoc (lit "broadcasts") comp) = PList bs →
  Forall2 broadcast_names bs nss →
  get_tv_channel (PDict comp)
  = Ok (match concat nss with
        | [] => lit "TBD"
        | names => join (lit ", ") names
        end).
Proof.
  intros Hb Hn. unfold get_tv_channel. cbn [dict_get mbind exc_bind]. rewrite Hb.
  destruct bs as [|b bs].
  - apply Forall2_nil_inv_l in Hn as ->. done.
  - cbn [truthy negb py_iter mbind exc_bind]. rewrite (gather_names _ nss) by done.
    cbn [app mbind exc_bind]. destruct (concat nss) as [|n ns] eqn:E; [done|].
    rewrite <- E.
    destruct (PStr <$> concat nss) as [|x xs] eqn:E'; [by rewrite E in E'|].
    rewrite <- E'. unfold py_join. by rewrite str_items_strings.
Qed.

(** X14. Without a role map, the announcement names each council by the
    registry entry found under its council number, not under its canonical
    id: a message is built only if the council number of the home entry and
    that of the away entry, as [str] prints them, are themselves keys of the
    registry. Otherwise [build_role_mentions] raises. *)
Theorem textual_mention_needs_number_key cfg councils role_id_map sport comp h a message :
  build_message cfg (PDict councils) role_id_map sport comp h a = Ok message →
  truthy role_id_map = false →
  ∃ home_info away_info home_num away_num,
    assoc h councils = Some home_info
    ∧ assoc a councils = Some away_info
    ∧ dict_get home_info (lit "council") PNone = Ok home_num
    ∧ dict_get away_info (lit "council") PNone = Ok away_num
    ∧ is_Some (assoc (py_str home_num) councils)
    ∧ is_Some (assoc (py_str away_num) councils).
Proof.
  unfold build_message. intros H Hrole.
  step H as home_info Eh. step H as away_info Ea. step H as hc Ehc. step H as ac Eac.
  step H as neutral En. step H as v Ev. step H as full Ef. step H as stadium Es.
  step H as address Ead. step H as city Ec. step H as address2 Ead2. step H as state Est.
  step H as site_label Esl. step H as start_iso Est2. step H as tv Etv.
  step H as role_mentions Erm. clear H.
  unfold build_role_mentions in Erm. rewrite Hrole in Erm.
  step Erm as name1 E1. step Erm as name2 E2. clear Erm.
  unfold council_label in E1, E2. step E1 as i1 Hi1. step E2 as i2 Hi2.
  cbn [subscript_key] in Eh, Ea, Hi1, Hi2.
  destruct (assoc h councils) as [hi|] eqn:Ah; [|done]. injection Eh as ->.
  destruct (assoc a councils) as [ai|] eqn:Aa; [|done]. injection Ea as ->.
  exists home_info, away_info, hc, ac. repeat split; try done.
  - by destruct (assoc (py_str hc) councils).
  - by destruct (assoc (py_str ac) councils).
Qed.

(** X15. The announcement of a game of which the scoreboard says nothing
    but the two sides: with no start date, no broadcast, no venue and no
    neutral-site flag (missing or falsy), and with a role id for each of the
    two councils, the message is the thirteen lines below, with ["TBD"] for
    the time, the channel and the place, and the game is a home game of the
    home side. *)
Theorem bare_competition_message cfg councils role_id_map sport comp h a
    home_info away_info home_id away_id :
  assoc h councils = Some (PDict home_info) →
  assoc a councils = Some (PDict away_info) →
  truthy (default (PBool false) (assoc (lit "neutralSite") comp)) = false →
  truthy (default (PDict []) (assoc (lit "venue") comp)) = false →
  truthy (default PNone (assoc (lit "startDate") comp)) = false →
  truthy (default (PList []) (assoc (lit "broadcasts") comp)) = false →
  let home_num := py_str (default PNone (assoc (lit "council") home_info)) in
  let away_num := py_str (default PNone (assoc (lit "council") away_info)) in
  let home_name := py_str (default PNone (assoc (lit "official_name") home_info)) in
  let away_name := py_str (default PNone (assoc (lit "official_name") away_info)) in
  assoc home_num role_id_map = Some home_id → truthy home_id = true →
  assoc away_num role_id_map = Some away_id → truthy away_id = true →
  build_message cfg (PDict councils) (PDict role_id_map) sport (PDict comp) h a
  = Ok (join [0x0A]
          [ lit "‚öîÔ∏è **COLLEGE COUNCIL MATCHUP**";
            [];
            sport;
            lit "üïñ " ++ lit "TBD";
            lit "üì∫ " ++ lit "TBD";
            lit "üìç " ++ lit "TBD";
            lit "üè† " ++ home_name ++ lit " home game";
            [];
            lit "üéì " ++ home_name ++ lit " (Council " ++ home_num ++ lit ")";
            lit "vs";
            lit "üéì " ++ away_name ++ lit " (Council " ++ away_num ++ lit ")";
            [];
            lit "<@&" ++ py_str home_id ++ lit "> <@&" ++ py_str away_id ++ lit ">" ]).
Proof.
  intros Hh Ha Hn Hv Hs Hb home_num away_num home_name away_name Hhid Hth Haid Hta.
  unfold build_message. cbn [subscript_key]. rewrite Hh, Ha.
  cbn [mbind exc_bind dict_get]. rewrite Hn.
  unfold py_or. rewrite Hv. cbn [assoc default from_option id truthy mbind exc_bind].
  rewrite Hs. unfold get_tv_channel. cbn [dict_get mbind exc_bind]. rewrite Hb.
  cbn [negb mbind exc_bind].
  unfold build_role_mentions. destruct role_id_map as [|kv m]; [done|].
  change (truthy (PDict (kv :: m))) with true. cbv iota.
  unfold dict_get. fold home_num away_num. rewrite Hhid, Haid.
  cbn [default from_option id mbind exc_bind]. unfold mention. rewrite Hth, Hta.
  cbn [mbind exc_bind]. do 2 f_equal. cbn [join]. by rewrite <- !app_assoc.
Qed.

End Announcement.

(** ** Whole runs *)

Section Runs.
Context {R : PyRuntime}.

(** X16. What [post_to_discord] makes of a reply: it returns the response
    exactly when there is one and its status is below 400 or from 600 on;
    no response and a status from 400 to 599 are an exception. A status
    from 600 on is printed as a failure and yet returned as a success. *)
Theorem post_to_discord_outcome reply r :
  post_to_discord reply = Ok r
  ↔ r = reply ∧ ∃ code js, reply = Response code js ∧ ¬ (400 ≤ code < 600)%Z.
Proof.
  unfold post_to_discord, raise_for_status. destruct reply as [|code js].
  - split; [done | by intros (_ & ? & ? & ? & _)].
  - destruct (Z.leb_spec 400 code), (Z.ltb_spec code 600); simpl; split;
      try (intros [= <-]; split; [done|]; exists code, js; split; [done | lia]);
      try done; try (by intros [-> _]).
    intros (_ & c & j & [= <- <-] & Hc). lia.
Qed.

(** The steps of a run whose configuration is complete. *)
Lemma main_steps cfg w :
  DISCORD_WEBHOOK cfg ≠ [] → GITHUB_TOKEN cfg ≠ [] → GITHUB_REPOSITORY cfg ≠ [] →
  main cfg w
  = (councils ← load_councils (council_file w);
     t ← build_lookup councils;
     '(issue_num, _) ← find_or_create_issue (GITHUB_TOKEN cfg) (GITHUB_REPOSITORY cfg)
                         (POSTED_STORE_ISSUE_TITLE cfg) (issue_listing w) (issue_creation w);
     posted ← read_posted_set_from_issue (issue_get w issue_num);
     to_post ← foldM (scan_source cfg councils (run_role_map cfg) t posted w) sources [];
     '(final, sent) ← post_all w 0 to_post posted;
     Ok (Run to_post sent final
           (match write_posted_set_to_issue (issue_patch w issue_num) final with
            | Ok body => Some body
            | Raise _ => None
            end))).
Proof.
  intros H1 H2 H3. unfold main, run_role_map.
  destruct (DISCORD_WEBHOOK cfg); [done|].
  destruct (GITHUB_TOKEN cfg); [done|]. by destruct (GITHUB_REPOSITORY cfg).
Qed.

(** A run whose configuration is not complete stops at once. *)
Lemma main_unconfigured cfg w :
  DISCORD_WEBHOOK cfg = [] ∨ GITHUB_TOKEN cfg = [] ∨ GITHUB_REPOSITORY cfg = [] →
  main cfg w = Raise SystemExit.
Proof.
  unfold main. intros [->|[H|H]]; [done | |].
  - rewrite H. by destruct (DISCORD_WEBHOOK cfg).
  - rewrite H. destruct (DISCORD_WEBHOOK cfg); [done|]. by destruct (GITHUB_TOKEN cfg).
Qed.

(** The webhook has no part in the way the loop ends: two worlds with one
    standard output end it alike and send the same messages. *)
Lemma post_all_same_stdout w w' k k' batch posted posted' :
  stdout_accepts w' = stdout_accepts w →
  match post_all w k batch posted, post_all w' k' batch posted' with
  | Ok out, Ok out' => out.2 = out'.2
  | Raise e, Raise e' => e = e'
  | _, _ => False
  end.
Proof.
  intros Hout. revert k k' posted posted'.
  induction batch as [|[gid msg] rest IH]; intros k k' posted posted'; [done|].
  rewrite !post_all_cons.
  assert (writable w' gid = writable w gid) as -> by (unfold writable; by rewrite Hout).
  destruct (writable w gid); [|done].
  specialize (IH (S k) (S k')
                (match post_to_discord (webhook w k msg) with
                 | Ok _ => {[AStr gid]} ∪ posted | Raise _ => posted end)
                (match post_to_discord (webhook w' k' msg) with
                 | Ok _ => {[AStr gid]} ∪ posted' | Raise _ => posted' end)).
  destruct (post_all w (S k) rest _) as [[final sent]|e],
           (post_all w' (S k') rest _) as [[final' sent']|e']; simpl in *; try done.
  by rewrite IH.
Qed.

Lemma main_configured cfg w r :
  main cfg w = Ok r →
  DISCORD_WEBHOOK cfg ≠ [] ∧ GITHUB_TOKEN cfg ≠ [] ∧ GITHUB_REPOSITORY cfg ≠ [].
Proof.
  unfold main. destruct (DISCORD_WEBHOOK cfg); [done|].
  destruct (GITHUB_TOKEN cfg); [done|]. destruct (GITHUB_REPOSITORY cfg); done.
Qed.

Lemma scan_source_step cfg councils role_id_map t posted w to_post source :
  scan_source cfg councils role_id_map t posted w to_post source
  = match fetch (scoreboard w source.1) with
    | None => Ok to_post
    | Some data =>
        events ← dict_get data (lit "events") (PList []);
        events ← py_iter events;
        foldM (λ to_post event,
                 r ← scan_event cfg councils role_id_map t posted source.2 event;
                 Ok (match r with Some p => to_post ++ [p] | None => to_post end))
              events to_post
    end.
Proof. done. Qed.

(** X17. A scoreboard that cannot be fetched is passed over. When the
    store can be read and neither scoreboard can be fetched (no response, a
    status from 400 to 599, or a body that is not JSON), the run ends
    normally: it finds no match, sends no message, and writes back the set
    it has read. *)
Theorem scoreboards_down_quiet_run cfg w councils t issue_num body posted :
  DISCORD_WEBHOOK cfg ≠ [] → GITHUB_TOKEN cfg ≠ [] → GITHUB_REPOSITORY cfg ≠ [] →
  load_councils (council_file w) = Ok councils →
  build_lookup councils = Ok t →
  find_or_create_issue (GITHUB_TOKEN cfg) (GITHUB_REPOSITORY cfg)
    (POSTED_STORE_ISSUE_TITLE cfg) (issue_listing w) (issue_creation w)
  = Ok (issue_num, body) →
  read_posted_set_from_issue (issue_get w issue_num) = Ok posted →
  (∀ source, source ∈ sources → fetch (scoreboard w source.1) = None) →
  main cfg w
  = Ok (Run [] [] posted
          (match write_posted_set_to_issue (issue_patch w issue_num) posted with
           | Ok stored => Some stored
           | Raise _ => None
           end)).
Proof.
  intros H1 H2 H3 Hc Ht Hi Hp Hdown. rewrite main_steps by done.
  rewrite Hc. cbn [mbind exc_bind]. rewrite Ht. cbn [mbind exc_bind].
  rewrite Hi. cbn [mbind exc_bind]. rewrite Hp. cbn [mbind exc_bind].
  rewrite foldM_fixed_in; [done|].
  intros source Hin. rewrite scan_source_step. by rewrite Hdown.
Qed.

(** A match whose id cannot be written ends the run in the loop that
    posts, on the exception of the print: the store is not written. *)
Lemma unwritable_id_ends_run cfg w councils t issue_num body posted to_post :
  DISCORD_WEBHOOK cfg ≠ [] → GITHUB_TOKEN cfg ≠ [] → GITHUB_REPOSITORY cfg ≠ [] →
  load_councils (council_file w) = Ok councils →
  build_lookup councils = Ok t →
  find_or_create_issue (GITHUB_TOKEN cfg) (GITHUB_REPOSITORY cfg)
    (POSTED_STORE_ISSUE_TITLE cfg) (issue_listing w) (issue_creation w)
  = Ok (issue_num, body) →
  read_posted_set_from_issue (issue_get w issue_num) = Ok posted →
  foldM (scan_source cfg councils (run_role_map cfg) t posted w) sources [] = Ok to_post →
  Exists (λ p, writable w p.1 = false) to_post →
  main cfg w = Raise UnicodeEncodeError.
Proof.
  intros H1 H2 H3 Hc Ht Hi Hp Hs Hex. rewrite main_steps by done.
  rewrite Hc. cbn [mbind exc_bind]. rewrite Ht. cbn [mbind exc_bind].
  rewrite Hi. cbn [mbind exc_bind]. rewrite Hp. cbn [mbind exc_bind].
  rewrite Hs. cbn [mbind exc_bind].
  destruct (post_all w 0 to_post posted) as [out|e] eqn:E.
  - exfalso. assert (Hall : Forall (λ p, writable w p.1 = true) to_post).
    { eapply post_all_writable. by eexists. }
    apply Exists_exists in Hex as (p & Hin & Hw). rewrite Forall_forall in Hall.
    specialize (Hall p Hin). congruence.
  - by apply post_all_raises in E as [-> _].
Qed.

(** X19. A run never posts without the store. With a complete
    configuration and a registry that loads, the exception of the search for
    the store issue (or of its creation), and the exception of the read of
    the issue that was found or created (no response, a status from 400 to
    599, a reply that is not a JSON object), are the exception on which the
    run ends. *)
Theorem unreadable_store_aborts_run cfg w councils t e :
  DISCORD_WEBHOOK cfg ≠ [] → GITHUB_TOKEN cfg ≠ [] → GITHUB_REPOSITORY cfg ≠ [] →
  load_councils (council_file w) = Ok councils →
  build_lookup councils = Ok t →
  find_or_create_issue (GITHUB_TOKEN cfg) (GITHUB_REPOSITORY cfg)
    (POSTED_STORE_ISSUE_TITLE cfg) (issue_listing w) (issue_creation w) = Raise e
  ∨ (∃ issue_num body,
       find_or_create_issue (GITHUB_TOKEN cfg) (GITHUB_REPOSITORY cfg)
         (POSTED_STORE_ISSUE_TITLE cfg) (issue_listing w) (issue_creation w)
       = Ok (issue_num, body)
       ∧ read_posted_set_from_issue (issue_get w issue_num) = Raise e) →
  main cfg w = Raise e.
Proof.
  intros H1 H2 H3 Hc Ht H. rewrite main_steps by done.
  rewrite Hc. cbn [mbind exc_bind]. rewrite Ht. cbn [mbind exc_bind].
  destruct H as [->|(issue_num & body & -> & Hr)]; [done|].
  cbn [mbind exc_bind]. by rewrite Hr.
Qed.

(** X20. Neither the webhook nor the final write decides how a run ends.
    With any other webhook and any other replies to the write, a run that
    ends normally still ends normally, with the same matches and the same
    messages sent, and a run that raises still raises the same exception:
    the loop that posts prints the id of a match whether its post succeeded
    or failed, and the exception of the write is caught. *)
Theorem replies_never_abort_run cfg w hook patch :
  (∀ r, main cfg w = Ok r →
     ∃ r', main cfg (with_replies w hook patch) = Ok r'
           ∧ run_batch r' = run_batch r ∧ run_sent r' = run_sent r)
  ∧ (∀ e, main cfg w = Raise e → main cfg (with_replies w hook patch) = Raise e).
Proof.
  destruct (decide (DISCORD_WEBHOOK cfg = [])) as [H1|H1].
  { rewrite !main_unconfigured by by left. split; [done | by intros e [= <-]]. }
  destruct (decide (GITHUB_TOKEN cfg = [])) as [H2|H2].
  { rewrite !main_unconfigured by (right; by left). split; [done | by intros e [= <-]]. }
  destruct (decide (GITHUB_REPOSITORY cfg = [])) as [H3|H3].
  { rewrite !main_unconfigured by (right; by right). split; [done | by intros e [= <-]]. }
  rewrite !main_steps by done.
  change (council_file (with_replies w hook patch)) with (council_file w).
  change (issue_listing (with_replies w hook patch)) with (issue_listing w).
  change (issue_creation (with_replies w hook patch)) with (issue_creation w).
  destruct (load_councils (council_file w)) as [councils|e0]; [|done].
  cbn [mbind exc_bind].
  destruct (build_lookup councils) as [t|e0]; [|done]. cbn [mbind exc_bind].
  destruct (find_or_create_issue _ _ _ _ _) as [[issue_num b]|e0]; [|done].
  cbn [mbind exc_bind].
  change (issue_get (with_replies w hook patch)) with (issue_get w).
  destruct (read_posted_set_from_issue _) as [posted|e0]; [|done]. cbn [mbind exc_bind].
  change (scan_source cfg councils (run_role_map cfg) t posted (with_replies w hook patch))
    with (scan_source cfg councils (run_role_map cfg) t posted w).
  destruct (foldM _ sources []) as [to_post|e0]; [|done]. cbn [mbind exc_bind].
  pose proof (post_all_same_stdout w (with_replies w hook patch) 0 0 to_post posted posted
                eq_refl) as Hsame.
  destruct (post_all w 0 to_post posted) as [[final sent]|e0],
           (post_all (with_replies w hook patch) 0 to_post posted) as [[final' sent']|e1];
    try done; cbn [mbind exc_bind].
  - split; [|done]. intros r [= <-]. eexists. split; [done|]. simpl in Hsame. by subst.
  - subst. split; [done|]. by intros e [= <-].
Qed.

(** X21. A run only adds to the set of posted ids: the set it hands to
    [write_posted_set_to_issue] holds every element of the set it has read,
    and nothing else but ids of the matches of this run. *)
Theorem posted_set_only_grows cfg w r :
  main cfg w = Ok r →
  ∃ issue_num body posted,
    find_or_create_issue (GITHUB_TOKEN cfg) (GITHUB_REPOSITORY cfg)
      (POSTED_STORE_ISSUE_TITLE cfg) (issue_listing w) (issue_creation w)
    = Ok (issue_num, body)
    ∧ read_posted_set_from_issue (issue_get w issue_num) = Ok posted
    ∧ posted ⊆ run_posted r
    ∧ ∀ a, a ∈ run_posted r → a ∈ posted ∨ ∃ gid, gid ∈ (run_batch r).*1 ∧ a = AStr gid.
Proof.
  intros (c & t & n & b & posted & _ & _ & Hf & Hr & _ & Hpost & _)%main_Ok.
  exists n, b, posted. split; [done|]. split; [done|]. split.
  - intros a Ha. apply (post_all_posted _ _ _ _ _ _ _ Hpost). by left.
  - intros a [Ha|(i & gid & m & reply & Hi & -> & _)]%(post_all_posted _ _ _ _ _ _ _ Hpost);
      [by left|].
    right. exists gid. split; [|done].
    apply list_elem_of_fmap. exists (gid, m). split; [done|]. by eapply list_elem_of_lookup_2.
Qed.

(** *** From one run to the next *)

(** The same event under a larger set of posted ids: skipped when its id is
    in the set, scanned to the same end otherwise. *)
Lemma scan_event_superset cfg councils role_id_map t posted posted' sport event o :
  scan_event cfg councils role_id_map t posted sport event = Ok o →
  posted ⊆ posted' →
  scan_event cfg councils role_id_map t posted' sport event
  = Ok (match o with
        | Some p => if bool_decide (AStr p.1 ∈ posted') then None else Some p
        | None => None
        end).
Proof.
  unfold scan_event. intros H Hsub. step H as gid Eid. rewrite Eid. cbn [mbind exc_bind].
  destruct (negb (truthy (PStr gid))) eqn:Et.
  { cbn [orb] in *. by injection H as <-. }
  cbn [orb] in *.
  destruct (bool_decide (AStr gid ∈ posted)) eqn:Ep.
  { injection H as <-. apply bool_decide_eq_true in Ep.
    by rewrite bool_decide_eq_true_2 by by apply Hsub. }
  assert (Hp : ∀ p, o = Some p → p.1 = gid).
  { intros p ->. step H as sides Es. destruct sides as [[[comp home] away]|]; [|done].
    step H as hc Eh. step H as ac Ea.
    destruct (resolved hc); [|done]. destruct (resolved ac); [|done].
    step H as m Em. by injection H as <-. }
  destruct (bool_decide (AStr gid ∈ posted')) eqn:Ep'.
  - destruct o as [p|]; [|done]. by rewrite (Hp p eq_refl), Ep'.
  - rewrite H. destruct o as [p|]; [|done]. by rewrite (Hp p eq_refl), Ep'.
Qed.

Lemma scan_events_superset cfg councils role_id_map t posted posted' sport evs acc acc' :
  foldM (λ to_post event,
           r ← scan_event cfg councils role_id_map t posted sport event;
           Ok (match r with Some p => to_post ++ [p] | None => to_post end)) evs acc
  = Ok acc' →
  posted ⊆ posted' →
  ∃ found, acc' = acc ++ found
    ∧ ∀ acc2,
        foldM (λ to_post event,
                 r ← scan_event cfg councils role_id_map t posted' sport event;
                 Ok (match r with Some p => to_post ++ [p] | None => to_post end)) evs acc2
        = Ok (acc2 ++ unrecorded posted' found).
Proof.
  intros H Hsub. revert acc H. induction evs as [|ev evs IH]; intros acc H.
  - injection H as <-. exists []. split; [by rewrite app_nil_r|].
    intros acc2. simpl. by rewrite app_nil_r.
  - cbn [foldM] in H. step H as acc1 E1. step E1 as o Eo. injection E1 as <-.
    destruct (IH _ H) as (found & -> & Hnext).
    pose proof (scan_event_superset _ _ _ _ _ _ _ _ _ Eo Hsub) as Eo'.
    destruct o as [p|].
    + exists (p :: found). split; [by rewrite <- app_assoc|].
      intros acc2. cbn [foldM]. rewrite Eo'. cbn [mbind exc_bind].
      unfold unrecorded. cbn [List.filter].
      destruct (bool_decide (AStr p.1 ∈ posted')); cbn [negb].
      * apply Hnext.
      * rewrite Hnext. by rewrite <- app_assoc.
    + exists found. split; [done|]. intros acc2. cbn [foldM]. rewrite Eo'. apply Hnext.
Qed.

Lemma unrecorded_app posted a b :
  unrecorded posted (a ++ b) = unrecorded posted a ++ unrecorded posted b.
Proof. apply List.filter_app. Qed.

Lemma unrecorded_nil posted batch :
  (∀ p, p ∈ batch → AStr p.1 ∈ posted) → unrecorded posted batch = [].
Proof.
  intros H. unfold unrecorded. induction batch as [|p batch IH]; [done|].
  cbn [List.filter]. rewrite bool_decide_eq_true_2 by (apply H; left).
  cbn [negb]. apply IH. intros q Hq. apply H. by right.
Qed.

Lemma scan_sources_superset cfg councils role_id_map t posted posted' w srcs acc acc' :
  foldM (scan_source cfg councils role_id_map t posted w) srcs acc = Ok acc' →
  posted ⊆ posted' →
  ∃ found, acc' = acc ++ found
    ∧ ∀ acc2, foldM (scan_source cfg councils role_id_map t posted' w) srcs acc2
              = Ok (acc2 ++ unrecorded posted' found).
Proof.
  intros H Hsub. revert acc H. induction srcs as [|src srcs IH]; intros acc H.
  - injection H as <-. exists []. split; [by rewrite app_nil_r|].
    intros acc2. simpl. by rewrite app_nil_r.
  - cbn [foldM] in H. step H as acc1 E1.
    destruct (IH _ H) as (found2 & -> & Hnext).
    rewrite scan_source_step in E1.
    destruct (fetch (scoreboard w src.1)) as [data|] eqn:Ef.
    + step E1 as events Ee. step E1 as evs Ev.
      destruct (scan_events_superset _ _ _ _ _ _ _ _ _ _ E1 Hsub) as (found1 & -> & Hev).
      exists (found1 ++ found2). split; [by rewrite <- app_assoc|].
      intros acc2. cbn [foldM]. rewrite scan_source_step, Ef, Ee. cbn [mbind exc_bind].
      rewrite Ev. cbn [mbind exc_bind]. rewrite Hev. cbn [mbind exc_bind]. rewrite Hnext.
      by rewrite unrecorded_app, <- app_assoc.
    + injection E1 as <-. exists found2. split; [done|]. intros acc2. cbn [foldM].
      rewrite scan_source_step, Ef. cbn [mbind exc_bind]. apply Hnext.
Qed.

(** The run that follows a run whose write succeeded, against the same
    scoreboards: it finds the matches of the first run whose ids were not
    recorded, and no other, and it can print their ids as the first run
    did. *)
Lemma next_run (cfg : config) (w : world) (r : run) (body : pystr) (ids : gset pystr)
    (get : pyval → http_result) :
  main cfg w = Ok r →
  run_stored r = Some body →
  run_posted r = set_map AStr ids →
  (∀ s, s ∈ ids → json_text s) →
  (∀ issue_num, ∃ code issue,
     get issue_num = Response code (Some (PDict issue))
     ∧ ¬ (400 ≤ code < 600)%Z
     ∧ assoc (lit "body") issue = Some (PStr body)) →
  ∃ issue_num final sent,
    post_all (with_store w get) 0 (unrecorded (run_posted r) (run_batch r)) (run_posted r)
    = Ok (final, sent)
    ∧ main cfg (with_store w get)
      = Ok (Run (unrecorded (run_posted r) (run_batch r)) sent final
              (match write_posted_set_to_issue (issue_patch w issue_num) final with
               | Ok stored => Some stored
               | Raise _ => None
               end)).
Proof.
  intros Hmain Hstored Hids Htext Hget.
  destruct (main_configured _ _ _ Hmain) as (H1 & H2 & H3).
  pose proof Hmain as Hmain'.
  apply main_Ok in Hmain' as (c0 & t0 & n0 & b0 & p0 & _ & _ & _ & _ & _ & Hpost0 & Hbody).
  specialize (Hbody body Hstored).
  assert (Hw : Forall (λ p, writable (with_store w get) p.1 = true)
                 (unrecorded (run_posted r) (run_batch r))).
  { assert (Hall : Forall (λ p, writable w p.1 = true) (run_batch r)).
    { eapply post_all_writable. by eexists. }
    rewrite Forall_forall in *. intros p Hp. apply Hall.
    by apply list_elem_of_In, filter_In in Hp as [?%list_elem_of_In _]. }
  eapply (post_all_writable _ 0%nat _ (run_posted r)) in Hw as [[final' sent'] Hnext].
  rewrite main_steps in * by done.
  change (council_file (with_store w get)) with (council_file w).
  change (issue_listing (with_store w get)) with (issue_listing w).
  change (issue_creation (with_store w get)) with (issue_creation w).
  change (issue_get (with_store w get)) with get.
  change (issue_patch (with_store w get)) with (issue_patch w).
  step Hmain as councils Ec. rewrite Ec. cbn [mbind exc_bind].
  step Hmain as t Et. rewrite Et. cbn [mbind exc_bind].
  step Hmain as issue Ei. rewrite Ei. cbn [mbind exc_bind]. destruct issue as [issue_num b].
  step Hmain as posted Ep. step Hmain as to_post Es. step Hmain as out Epost.
  destruct out as [final sent]. injection Hmain as Er. subst r.
  cbn [run_batch run_posted run_stored] in *.
  destruct (posted_body_round_trip ids Htext) as (body' & Hb' & Hne & Hread).
  rewrite <- Hids in Hb', Hread. rewrite Hbody in Hb'. injection Hb' as <-.
  destruct (Hget issue_num) as (code & issue & -> & Hcode & Hissue).
  rewrite read_posted_set_total by done. rewrite Hissue. cbn [default from_option id].
  assert (py_or (PStr body) (PStr []) = PStr body) as -> by by destruct body.
  rewrite Hread. cbn [mbind exc_bind].
  assert (Hsub : posted ⊆ final).
  { intros a Ha. apply (post_all_posted _ _ _ _ _ _ _ Epost). by left. }
  destruct (scan_sources_superset _ _ _ _ _ _ _ _ _ _ Es Hsub) as (found & -> & Hscan).
  change (scan_source cfg councils (run_role_map cfg) t final (with_store w get))
    with (scan_source cfg councils (run_role_map cfg) t final w).
  rewrite Hscan. cbn [app mbind exc_bind]. cbn [app] in Hnext. rewrite Hnext.
  cbn [mbind exc_bind]. by exists issue_num, final', sent'.
Qed.

(** X23. What is not recorded is tried again. After a run whose write
    succeeded, a run against the same scoreboards, with the store as the
    first run left it, ends normally; its matches are the matches of the
    first run whose ids are not in the set that the first run wrote, in the
    same order, and it sends their messages. The ids are strings that JSON
    carries unchanged. *)
Theorem unrecorded_matches_are_retried
    (cfg : config) (w : world) (r : run) (body : pystr) (ids : gset pystr)
    (get : pyval → http_result) :
  main cfg w = Ok r →
  run_stored r = Some body →
  run_posted r = set_map AStr ids →
  (∀ s, s ∈ ids → json_text s) →
  (∀ issue_num, ∃ code issue,
     get issue_num = Response code (Some (PDict issue))
     ∧ ¬ (400 ≤ code < 600)%Z
     ∧ assoc (lit "body") issue = Some (PStr body)) →
  ∃ r', main cfg (with_store w get) = Ok r'
        ∧ run_batch r' = unrecorded (run_posted r) (run_batch r)
        ∧ run_sent r' = (unrecorded (run_posted r) (run_batch r)).*2.
Proof.
  intros Hmain Hstored Hids Htext Hget.
  destruct (next_run _ _ _ _ _ _ Hmain Hstored Hids Htext Hget)
    as (n & final & sent & Hpost & Hnext).
  eexists. split; [exact Hnext|]. cbn [run_batch run_sent]. split; [done|].
  by eapply post_all_sent.
Qed.

(** X24. No game is announced twice. After a run in which every post
    succeeded and the write succeeded, a run against the same scoreboards,
    with the store as the first run left it, ends normally, finds no match,
    sends no message and leaves the set as it is. The ids are strings that
    JSON carries unchanged. *)
Theorem second_run_is_quiet
    (cfg : config) (w : world) (r : run) (body : pystr) (ids : gset pystr)
    (get : pyval → http_result) :
  main cfg w = Ok r →
  (∀ i gid message, run_batch r !! i = Some (gid, message) →
     ∃ reply, post_to_discord (webhook w i message) = Ok reply) →
  run_stored r = Some body →
  run_posted r = set_map AStr ids →
  (∀ s, s ∈ ids → json_text s) →
  (∀ issue_num, ∃ code issue,
     get issue_num = Response code (Some (PDict issue))
     ∧ ¬ (400 ≤ code < 600)%Z
     ∧ assoc (lit "body") issue = Some (PStr body)) →
  ∃ r', main cfg (with_store w get) = Ok r'
        ∧ run_batch r' = [] ∧ run_sent r' = [] ∧ run_posted r' = run_posted r.
Proof.
  intros Hmain Hposts Hstored Hids Htext Hget.
  destruct (next_run _ _ _ _ _ _ Hmain Hstored Hids Htext Hget)
    as (n & final & sent & Hpost & Hnext).
  assert (Hall : unrecorded (run_posted r) (run_batch r) = []).
  { apply unrecorded_nil. intros [gid m] Hin.
    apply main_Ok in Hmain as (c0 & t0 & n0 & b0 & p0 & _ & _ & _ & _ & _ & Hpost0 & _).
    apply list_elem_of_lookup in Hin as [i Hi].
    destruct (Hposts i gid m Hi) as [reply Hreply].
    apply (post_all_posted _ _ _ _ _ _ _ Hpost0). right. by exists i, gid, m, reply. }
  rewrite Hall in Hnext, Hpost. injection Hpost as <- <-.
  eexists. split; [exact Hnext|]. done.
Qed.

(** *** Which events are scanned, and to what end *)

(** X26. An event without two competitors is passed over, whatever its
    id and whatever else it holds: an event with no competitions field (the
    default is one empty competition), a competition with no competitors
    field, with none or with one competitor. *)
Theorem too_few_competitors_skipped
    cfg councils role_id_map t posted sport ev comp comps competitors :
  default (PList [PDict []]) (assoc (lit "competitions") ev) = PList (PDict comp :: comps) →
  default (PList []) (assoc (lit "competitors") comp) = PList competitors →
  (length competitors < 2)%nat →
  scan_event cfg councils role_id_map t posted sport (PDict ev) = Ok None.
Proof.
  intros Hc Hcs Hlen. unfold scan_event, game_id_of. cbn [dict_get mbind exc_bind].
  destruct (_ || _); [done|].
  unfold participants. cbn [dict_get mbind exc_bind]. rewrite Hc.
  cbn [subscript_index lookup list_lookup mbind exc_bind dict_get]. rewrite Hcs.
  cbn [py_len mbind exc_bind].
  destruct (Nat.ltb_spec (length competitors) 2); [done | lia].
Qed.

Lemma scan_events_matches cfg councils role_id_map t posted sport evs acc acc' :
  foldM (λ to_post event,
           r ← scan_event cfg councils role_id_map t posted sport event;
           Ok (match r with Some p => to_post ++ [p] | None => to_post end)) evs acc
  = Ok acc' →
  acc' = acc ++ event_matches cfg councils role_id_map t posted sport evs.
Proof.
  revert acc. induction evs as [|ev evs IH]; intros acc H.
  - injection H as <-. by rewrite app_nil_r.
  - cbn [foldM] in H. step H as acc1 E1. step E1 as o Eo. injection E1 as <-.
    apply IH in H as ->. unfold event_matches. cbn [omap list_omap]. rewrite Eo.
    destruct o as [p|]; [|done]. by rewrite <- app_assoc.
Qed.

Lemma scan_sources_matches cfg councils role_id_map t posted w srcs acc acc' :
  foldM (scan_source cfg councils role_id_map t posted w) srcs acc = Ok acc' →
  acc' = acc ++ flat_map (λ source,
                   event_matches cfg councils role_id_map t posted source.2
                     (source_events w source)) srcs.
Proof.
  revert acc. induction srcs as [|src srcs IH]; intros acc H.
  - injection H as <-. by rewrite app_nil_r.
  - cbn [foldM] in H. step H as acc1 E1. apply IH in H as ->.
    rewrite scan_source_step in E1. cbn [flat_map].
    destruct (fetch (scoreboard w src.1)) as [data|] eqn:Ef.
    + step E1 as events Ee. step E1 as evs Ev.
      assert (source_events w src = evs) as ->.
      { unfold source_events. rewrite Ef, Ee. cbn [mbind exc_bind]. by rewrite Ev. }
      apply scan_events_matches in E1 as ->. by rewrite <- app_assoc.
    + injection E1 as <-.
      assert (source_events w src = []) as -> by (unfold source_events; by rewrite Ef).
      done.
Qed.

(** X27. The batch of a run is the list of the matches of the events of
    the scoreboards that could be fetched, the basketball scoreboard first,
    each scoreboard in the order of its events: no match is left out, none
    is added, and the messages are sent in this order. *)
Theorem batch_is_the_matches_in_order cfg w r :
  main cfg w = Ok r →
  ∃ councils t issue_num body posted,
    load_councils (council_file w) = Ok councils
    ∧ build_lookup councils = Ok t
    ∧ find_or_create_issue (GITHUB_TOKEN cfg) (GITHUB_REPOSITORY cfg)
        (POSTED_STORE_ISSUE_TITLE cfg) (issue_listing w) (issue_creation w)
      = Ok (issue_num, body)
    ∧ read_posted_set_from_issue (issue_get w issue_num) = Ok posted
    ∧ run_batch r
      = flat_map (λ source,
                    event_matches cfg councils (run_role_map cfg) t posted source.2
                      (source_events w source)) sources.
Proof.
  intros H. destruct (main_configured _ _ _ H) as (H1 & H2 & H3).
  rewrite main_steps in H by done.
  step H as councils Ec. step H as t Et. step H as issue Ei. destruct issue as [issue_num b].
  step H as posted Ep. step H as to_post Es. step H as out Epost.
  destruct out as [final sent]. injection H as <-.
  exists councils, t, issue_num, b, posted. repeat split; try done.
  cbn [run_batch]. by apply scan_sources_matches in Es.
Qed.

Lemma assoc_elem k (d : list (pystr * pyval)) v : assoc k d = Some v → (k, v) ∈ d.
Proof.
  induction d as [|[k' v'] d IH]; [done|]. simpl.
  destruct (decide (k = k')) as [->|]; [intros [= ->]; left | intros H; right; by apply IH].
Qed.

Lemma foldM_total {A S} (f : S → A → exc S) l s :
  (∀ s a, a ∈ l → ∃ s', f s a = Ok s') → ∃ s', foldM f l s = Ok s'.
Proof.
  revert s. induction l as [|a l IH]; intros s H; [by eexists|].
  cbn [foldM]. destruct (H s a) as [s1 ->]; [left|]. cbn [mbind exc_bind].
  apply IH. intros s2 b Hb. apply H. by right.
Qed.

Lemma resolve_team_competitor c al el :
  well_formed_competitor c → ∃ r, resolve_team c al el = Ok r.
Proof.
  intros (d & team & -> & Ht & Hn). eapply resolve_team_normalized.
  - cbn [dict_get]. by rewrite Ht.
  - intros key v Hk Hv. apply normalize_name_like. by eapply Hn.
Qed.

(** The two sides are two of the competitors. *)
Lemma home_and_away_total ts :
  Forall is_dict ts → (2 ≤ length ts)%nat →
  ∃ home away, home_and_away (PList ts) = Ok (home, away) ∧ home ∈ ts ∧ away ∈ ts.
Proof.
  intros H Hlen. unfold home_and_away. cbn [py_iter mbind exc_bind].
  rewrite pick_sides by done. cbn [mbind exc_bind fst snd].
  assert (Hpos : ∃ home away,
            (home ← subscript_index (PList ts) 0; away ← subscript_index (PList ts) 1;
             Ok (home, away)) = Ok (home, away) ∧ home ∈ ts ∧ away ∈ ts).
  { destruct ts as [|x [|y ts]]; simpl in Hlen; try lia.
    exists x, y. split; [done|]. split; [left | right; left]. }
  assert (Hmem : ∀ side t, last (List.filter (side_is side) ts) = Some t → t ∈ ts).
  { intros side t Ht. by apply last_Some_elem_of, list_elem_of_In, filter_In in Ht as [?%list_elem_of_In _]. }
  destruct (last (List.filter (side_is "home") ts)) as [h|] eqn:Eh;
    destruct (last (List.filter (side_is "away") ts)) as [a|] eqn:Ea; cbn [default from_option id].
  - rewrite (marked_truthy _ _ _ Eh), (marked_truthy _ _ _ Ea). cbn [negb orb].
    exists h, a. split; [done|]. split; by eapply Hmem.
  - rewrite (marked_truthy _ _ _ Eh). cbn [negb orb truthy]. exact Hpos.
  - cbn [negb orb truthy]. exact Hpos.
  - cbn [negb orb truthy]. exact Hpos.
Qed.

Lemma get_tv_channel_total comp bs nss :
  default (PList []) (assoc (lit "broadcasts") comp) = PList bs →
  Forall2 broadcast_names bs nss →
  ∃ tv, get_tv_channel (PDict comp) = Ok tv.
Proof.
  intros Hb Hn. unfold get_tv_channel. cbn [dict_get mbind exc_bind]. rewrite Hb.
  destruct bs as [|b bs]; [by eexists|].
  cbn [truthy negb py_iter mbind exc_bind]. rewrite (gather_names _ nss) by done.
  cbn [app mbind exc_bind]. destruct (PStr <$> concat nss) as [|x xs] eqn:E; [by eexists|].
  rewrite <- E. unfold py_join. rewrite str_items_strings. by eexists.
Qed.

Lemma build_message_total cfg entries role_id_map sport comp h a :
  registry_with_roles entries role_id_map →
  is_Some (assoc h entries) → is_Some (assoc a entries) →
  well_formed_competition comp →
  ∃ message,
    build_message cfg (PDict entries) (PDict role_id_map) sport (PDict comp) h a = Ok message.
Proof.
  intros Hreg [hi Hh] [ai Ha] (_ & Hvenue & (bs & nss & Hbs & Hnss)).
  unfold registry_with_roles in Hreg. rewrite Forall_forall in Hreg.
  destruct (Hreg (h, hi)) as (hd & hid & Ehi & Hhid & Hth); [by apply assoc_elem|].
  destruct (Hreg (a, ai)) as (ad & aid & Eai & Haid & Hta); [by apply assoc_elem|].
  cbn [snd] in Ehi, Eai. subst hi ai.
  unfold build_message. cbn [subscript_key]. rewrite Hh, Ha.
  cbn [mbind exc_bind dict_get].
  set (v := default (PDict []) (assoc (lit "venue") comp)) in *.
  assert (Hv : ∃ vd, py_or v (PDict []) = PDict vd
                     ∧ is_dict (default (PDict []) (assoc (lit "address") vd))).
  { unfold py_or. destruct Hvenue as [->|(vd & -> & Hvd)].
    - exists []. split; [done|]. by eexists.
    - destruct vd; [exists []; split; [done | by eexists]|]. by eexists. }
  destruct Hv as (vd & -> & Haddr). cbn [dict_get mbind exc_bind].
  assert (Hst : ∃ stadium,
            (if truthy (default PNone (assoc (lit "fullName") vd))
             then Ok (default PNone (assoc (lit "fullName") vd))
             else Ok (py_or (default PNone (assoc (lit "name") vd)) (PStr (lit "TBD"))))
            = Ok stadium).
  { destruct (truthy (default PNone (assoc (lit "fullName") vd))); by eexists. }
  destruct Hst as [stadium ->]. cbn [mbind exc_bind].
  destruct Haddr as [address ->]. cbn [mbind exc_bind].
  assert (Hsl : ∃ site_label,
            (if truthy (default (PBool false) (assoc (lit "neutralSite") comp))
             then Ok (lit "üèüÔ∏è Neutral Site")
             else Ok (lit "üè† "
                      ++ py_str (default PNone (assoc (lit "official_name") hd))
                      ++ lit " home game")) = Ok site_label).
  { destruct (truthy (default (PBool false) (assoc (lit "neutralSite") comp))); by eexists. }
  destruct Hsl as [site_label ->]. cbn [mbind exc_bind].
  destruct (get_tv_channel_total comp bs nss Hbs Hnss) as [tv ->]. cbn [mbind exc_bind].
  unfold build_role_mentions. destruct role_id_map as [|kv m]; [done|].
  change (truthy (PDict (kv :: m))) with true. cbv iota.
  unfold dict_get. rewrite Hhid, Haid.
  cbn [default from_option id mbind exc_bind]. unfold mention. rewrite Hth, Hta.
  cbn [mbind exc_bind]. by eexists.
Qed.

(** An event of the expected shape is scanned to its end. *)
Lemma scan_event_well_formed
    cfg entries role_id_map t posted sport event :
  build_lookup (PDict entries) = Ok t →
  registry_with_roles entries role_id_map →
  well_formed_event event →
  ∃ o, scan_event cfg (PDict entries) (PDict role_id_map) t posted sport event = Ok o.
Proof.
  intros Ht Hreg (d & comp & comps & -> & Hcomps & Hcomp).
  unfold scan_event, game_id_of. cbn [dict_get mbind exc_bind].
  destruct (_ || _); [by eexists|].
  unfold participants. cbn [dict_get mbind exc_bind]. rewrite Hcomps.
  cbn [subscript_index lookup list_lookup mbind exc_bind dict_get].
  pose proof Hcomp as ((cs & -> & Hcs) & _). cbn [py_len mbind exc_bind].
  destruct (Nat.ltb_spec (length cs) 2) as [|Hlen]; [by eexists|].
  assert (Hdicts : Forall is_dict cs).
  { eapply Forall_impl; [exact Hcs|]. intros c (dc & ? & -> & _). by eexists. }
  destruct (home_and_away_total cs Hdicts Hlen) as (home & away & -> & Hhome & Haway).
  cbn [mbind exc_bind]. rewrite Forall_forall in Hcs.
  destruct (resolve_team_competitor home (alias_lookup t) (espn_id_lookup t) (Hcs _ Hhome))
    as [hc Hh]. rewrite Hh. cbn [mbind exc_bind].
  destruct (resolve_team_competitor away (alias_lookup t) (espn_id_lookup t) (Hcs _ Haway))
    as [ac Ha]. rewrite Ha. cbn [mbind exc_bind].
  destruct (resolved hc) as [h|] eqn:Erh; [|by eexists].
  destruct (resolved ac) as [a|] eqn:Era; [|by eexists].
  apply resolved_Some in Erh as [-> _], Era as [-> _].
  destruct (resolved_in_registry _ _ _ _ Ht Hh) as [hi Hhi].
  destruct (resolved_in_registry _ _ _ _ Ht Ha) as [ai Hai].
  destruct (build_message_total cfg entries role_id_map sport comp h a Hreg) as [m ->];
    [by eapply assoc_Some_elem.. | done |].
  by eexists.
Qed.


(** X28. A run on input of the expected shape raises nothing. With a
    complete configuration, a registry of objects with a role id for each
    council number, a store that is found and read, and scoreboards that
    either cannot be fetched or hold events of the expected shape whose ids
    the standard output can write, [main] ends normally. *)
Theorem well_formed_run_ends_normally cfg w entries role_id_map t issue_num body posted :
  DISCORD_WEBHOOK cfg ≠ [] → GITHUB_TOKEN cfg ≠ [] → GITHUB_REPOSITORY cfg ≠ [] →
  load_councils (council_file w) = Ok (PDict entries) →
  build_lookup (PDict entries) = Ok t →
  run_role_map cfg = PDict role_id_map →
  registry_with_roles entries role_id_map →
  find_or_create_issue (GITHUB_TOKEN cfg) (GITHUB_REPOSITORY cfg)
    (POSTED_STORE_ISSUE_TITLE cfg) (issue_listing w) (issue_creation w)
  = Ok (issue_num, body) →
  read_posted_set_from_issue (issue_get w issue_num) = Ok posted →
  (∀ source data, source ∈ sources → fetch (scoreboard w source.1) = Some data →
     ∃ events, dict_get data (lit "events") (PList []) ≫= py_iter = Ok events
               ∧ Forall well_formed_event events
               ∧ Forall (writable_id w) events) →
  ∃ r, main cfg w = Ok r.
Proof.
  intros H1 H2 H3 Hc Ht Hm Hreg Hi Hp Hsrc. rewrite main_steps by done.
  rewrite Hc. cbn [mbind exc_bind]. rewrite Ht. cbn [mbind exc_bind].
  rewrite Hi. cbn [mbind exc_bind]. rewrite Hp. cbn [mbind exc_bind]. rewrite Hm.
  destruct (foldM_total (scan_source cfg (PDict entries) (PDict role_id_map) t posted w)
              sources []) as [to_post Hscan].
  { intros acc source Hin. rewrite scan_source_step.
    destruct (fetch (scoreboard w source.1)) as [data|] eqn:Ef; [|by eexists].
    destruct (Hsrc source data Hin Ef) as (events & Hev & Hwf & _).
    step Hev as evs Ee. rewrite Ee. cbn [mbind exc_bind]. rewrite Hev. cbn [mbind exc_bind].
    apply foldM_total. intros acc2 ev Hin2. rewrite Forall_forall in Hwf.
    destruct (scan_event_well_formed cfg entries role_id_map t posted source.2 ev
                Ht Hreg (Hwf _ Hin2)) as [o ->].
    by eexists. }
  rewrite Hscan. cbn [mbind exc_bind].
  assert (Hw : Forall (λ p, writable w p.1 = true) to_post).
  { apply scan_sources_matches in Hscan as ->. cbn [app].
    rewrite Forall_forall. intros [gid msg] Hin.
    apply list_elem_of_In, in_flat_map in Hin as (source & Hs%list_elem_of_In & Hin%list_elem_of_In).
    unfold event_matches in Hin. apply list_elem_of_omap in Hin as (event & Hev & Hm').
    destruct (scan_event _ _ _ _ _ _ event) as [[q|]|] eqn:Escan; try done.
    injection Hm' as ->. apply scan_event_match in Escan as (Hid & _).
    unfold source_events in Hev.
    destruct (fetch (scoreboard w source.1)) as [data|] eqn:Ef; [|by apply elem_of_nil in Hev].
    destruct (Hsrc source data Hs Ef) as (events & Hevs & _ & Hout).
    rewrite Hevs in Hev. rewrite Forall_forall in Hout. by apply (Hout event Hev). }
  eapply (post_all_writable _ 0%nat _ posted) in Hw as [[final sent] ->].
  by eexists.
Qed.

(** X18. The loop over the events has no handler: the first event that
    raises ends the run. In a run with a complete configuration, whose
    registry loads and whose store is read, an event with an empty list of
    competitions and with an id that is not empty and not yet posted, which
    the scan reaches (the scoreboards before its own and the events before
    it are scanned without an exception), makes the run raise an
    [IndexError]: no message of the run is sent and the store is not
    written. *)
Theorem empty_competitions_abort_run
    cfg w councils t issue_num body posted before source after batch data pre ev post gid :
  DISCORD_WEBHOOK cfg ≠ [] → GITHUB_TOKEN cfg ≠ [] → GITHUB_REPOSITORY cfg ≠ [] →
  load_councils (council_file w) = Ok councils →
  build_lookup councils = Ok t →
  find_or_create_issue (GITHUB_TOKEN cfg) (GITHUB_REPOSITORY cfg)
    (POSTED_STORE_ISSUE_TITLE cfg) (issue_listing w) (issue_creation w)
  = Ok (issue_num, body) →
  read_posted_set_from_issue (issue_get w issue_num) = Ok posted →
  sources = before ++ source :: after →
  foldM (scan_source cfg councils (run_role_map cfg) t posted w) before [] = Ok batch →
  fetch (scoreboard w source.1) = Some data →
  dict_get data (lit "events") (PList []) ≫= py_iter = Ok (pre ++ PDict ev :: post) →
  (∀ event, event ∈ pre →
     ∃ o, scan_event cfg councils (run_role_map cfg) t posted source.2 event = Ok o) →
  assoc (lit "competitions") ev = Some (PList []) →
  game_id_of (PDict ev) = Ok gid → gid ≠ [] → AStr gid ∉ posted →
  main cfg w = Raise IndexError.
Proof.
  intros H1 H2 H3 Hc Ht Hi Hp Hsrcs Hbefore Hfetch Hevs Hpre Hcomp Hid Hne Hfresh.
  rewrite main_steps by done.
  rewrite Hc. cbn [mbind exc_bind]. rewrite Ht. cbn [mbind exc_bind].
  rewrite Hi. cbn [mbind exc_bind]. rewrite Hp. cbn [mbind exc_bind].
  rewrite Hsrcs, foldM_app, Hbefore. cbn [mbind exc_bind foldM].
  rewrite scan_source_step, Hfetch.
  step Hevs as events Ee. rewrite Ee. cbn [mbind exc_bind]. rewrite Hevs.
  cbn [mbind exc_bind]. rewrite foldM_app.
  destruct (foldM_total
              (λ to_post event,
                 r ← scan_event cfg councils (run_role_map cfg) t posted source.2 event;
                 Ok (match r with Some p => to_post ++ [p] | None => to_post end))
              pre batch) as [acc ->].
  { intros acc event Hin. destruct (Hpre event Hin) as [o ->]. by eexists. }
  cbn [mbind exc_bind foldM].
  assert (scan_event cfg councils (run_role_map cfg) t posted source.2 (PDict ev)
          = Raise IndexError) as ->; [|done].
  unfold scan_event. rewrite Hid. cbn [mbind exc_bind].
  destruct gid as [|c gid]; [done|]. cbn [truthy negb orb].
  rewrite bool_decide_eq_false_2 by done.
  unfold participants. cbn [dict_get mbind exc_bind]. by rewrite Hcomp.
Qed.

End Runs.

(** ** The small runtime has the properties of a runtime *)

Lemma latin_upper_spec c :
  latin_upper c = true ↔ 0x41 ≤ c ≤ 0x5A ∨ 0xC0 ≤ c ≤ 0xD6 ∨ 0xD8 ≤ c ≤ 0xDE.
Proof.
  unfold latin_upper. rewrite !orb_true_iff, !andb_true_iff, !N.leb_le. tauto.
Qed.

Lemma latin_upper_false c :
  ¬ (0x41 ≤ c ≤ 0x5A ∨ 0xC0 ≤ c ≤ 0xD6 ∨ 0xD8 ≤ c ≤ 0xDE) → latin_upper c = false.
Proof.
  intros H. destruct (latin_upper c) eqn:E; [|done]. by apply latin_upper_spec in E.
Qed.

Lemma latin_unicode_laws : UnicodeLaws latin_runtime.
Proof.
  split; simpl; unfold latin_lower.
  - intros c Hc. destruct ((65 <=? c) && (c <=? 90)) eqn:E.
    + replace (latin_upper c) with true; [done|]. symmetry. apply latin_upper_spec.
      apply andb_true_iff in E as [?%N.leb_le ?%N.leb_le]. lia.
    + rewrite latin_upper_false.
      * destruct (N.eqb_spec c 931); [lia|done].
      * apply andb_false_iff in E as [?%N.leb_gt|?%N.leb_gt]; lia.
  - intros c d Hd.
    assert (Hd' : latin_upper d = false ∧ d ≠ 931).
    { destruct (latin_upper c) eqn:E.
      - apply list_elem_of_singleton in Hd as ->. apply latin_upper_spec in E.
        split; [apply latin_upper_false|]; lia.
      - destruct (N.eqb_spec c 931); apply list_elem_of_singleton in Hd as ->.
        + split; [by apply latin_upper_false; lia | done].
        + done. }
    destruct Hd' as [-> ?%N.eqb_neq]. split; [|by apply N.eqb_neq].
    by replace (d =? 931) with false.
  - done.
  - done.
  - done.
Qed.

Lemma latin_repr_laws : ReprLaws latin_runtime.
Proof.
  split. simpl. intros [|[]|z|[|c x]|s|l|d]; simpl; try done.
  apply str_of_Z_nonempty.
Qed.

#[local] Existing Instance latin_runtime.

(** ** The model at work *)

(** Equivalent punctuation gives one normal form. *)
Example normalize_punctuation :
  normalize (PStr (lit "St. Mary's")) = normalize (PStr (lit "St Marys")).
Proof. vm_compute. reflexivity. Qed.

(** A start time in winter, as the code prints it. *)
Example format_time_example :
  format_time (lit "UTC") (PStr (lit "2025-01-05T07:00Z"))
  = PStr (lit "Jan 05, 2025 07:00 AM UTC").
Proof. vm_compute. reflexivity. Qed.

(** The registry of the examples and a game between its two councils give
    one message. *)
Example example_event_matches :
  ∃ message,
    scan_event example_config example_councils example_role_map example_lookups ∅
      (lit "Football") (example_event "'id': '401', ")
    = Ok (Some (lit "401", message)).
Proof. eexists. vm_compute. reflexivity. Qed.

(** With the default, empty role map and canonical ids that are not the
    council numbers, the textual mention looks a council up by its number
    and the run stops on a [KeyError]. *)
Example textual_mention_raises :
  scan_event example_config example_councils (PDict []) example_lookups ∅
    (lit "Football") (example_event "'id': '401', ")
  = Raise KeyError.
Proof. vm_compute. reflexivity. Qed.

(** A status beyond 599 is reported as a failure by [post_to_discord], but
    [raise_for_status] does not raise on it. *)
Example post_to_discord_beyond_599 :
  post_to_discord (Response 600 None) = Ok (Response 600 None).
Proof. reflexivity. Qed.

(** One scoreboard is down and the other has a game already posted and a
    new one: the run sends one message and stores both ids. *)
Example one_source_down_one_message :
  ∃ message,
    main example_config one_source_down_world
    = Ok (Run [(lit "401", message)] [message]
            {[AStr (lit "401"); AStr (lit "402")]}
            (Some (json_dumps_list [AStr (lit "401"); AStr (lit "402")]))).
Proof. eexists. vm_compute. reflexivity. Qed.

(** The second game of the scoreboard has an id that the standard output
    cannot write: the webhook takes the two messages, and the run ends on the
    exception of the print, before it writes the store. *)
Example unwritable_id_aborts_run :
  (∃ m1 m2,
     foldM (scan_source example_config example_councils example_role_map example_lookups ∅
              surrogate_id_world) sources []
     = Ok [(lit "401", m1); ([0xD800], m2)])
  ∧ main example_config surrogate_id_world = Raise UnicodeEncodeError.
Proof. split; [eexists _, _|]; vm_compute; reflexivity. Qed.

(** *** Witnesses *)

Lemma normalize_idempotent_witness :
  normalize (PStr (lit "  St. Mary's & Co-op  "))
    ≫= (λ t, normalize (PStr t))
  = normalize (PStr (lit "  St. Mary's & Co-op  ")).
Proof. apply (@normalize_idempotent latin_runtime latin_unicode_laws). Defined.

Lemma match_needs_both_participants_witness :
  ∃ comp home away h a,
    participants (example_event "'id': '401', ") = Ok (Some (comp, home, away))
    ∧ resolve_team home (alias_lookup example_lookups) (espn_id_lookup example_lookups)
      = Ok (Some h)
    ∧ resolve_team away (alias_lookup example_lookups) (espn_id_lookup example_lookups)
      = Ok (Some a).
Proof.
  eapply (match_needs_both_participants example_config example_councils example_role_map
            example_lookups ∅ (lit "Football") (example_event "'id': '401', ")).
  vm_compute. reflexivity.
Defined.

Lemma posted_event_skipped_witness :
  scan_event example_config example_councils example_role_map example_lookups
    {[AStr (lit "401")]} (lit "Football") (example_event "'id': '401', ")
  = Ok None.
Proof.
  apply (posted_event_skipped _ _ _ _ _ _ _ (lit "401")).
  - vm_compute. reflexivity.
  - apply elem_of_singleton. reflexivity.
Defined.

Lemma missing_id_is_None_witness :
  (∃ game_id, game_id_of (PDict [(lit "competitions", PList [])]) = Ok game_id
              ∧ truthy (PStr game_id) = true)
  ∧ (assoc (lit "id") [(lit "competitions", PList [])] = None →
       game_id_of (PDict [(lit "competitions", PList [])]) = Ok (lit "None")
       ∧ scan_event example_config example_councils example_role_map example_lookups ∅
           (lit "Football") (PDict [(lit "competitions", PList [])])
         = scan_event example_config example_councils example_role_map example_lookups ∅
             (lit "Football")
             (PDict [(lit "id", PStr (lit "None")); (lit "competitions", PList [])])).
Proof.
  apply (@missing_id_is_None latin_runtime latin_repr_laws).
  vm_compute. discriminate.
Defined.

Lemma post_failure_is_local_witness :
  let r := run_of (main example_config two_games_world) in
  (∀ code js, (400 ≤ code ≤ 599)%Z → post_to_discord (Response code js) = Raise HTTPError)
  ∧ (∀ gid, gid ∈ (run_batch r).*1 → writable two_games_world gid = true)
  ∧ run_sent r = (run_batch r).*2
  ∧ (∀ i gid message reply,
       run_batch r !! i = Some (gid, message) →
       post_to_discord (webhook two_games_world i message) = Ok reply →
       AStr gid ∈ run_posted r)
  ∧ (∀ gid,
       gid ∈ (run_batch r).*1 →
       (∀ i message, run_batch r !! i = Some (gid, message) →
                     ∃ e, post_to_discord (webhook two_games_world i message) = Raise e) →
       AStr gid ∉ run_posted r)
  ∧ (∀ stored, run_stored r = Some stored → posted_body (run_posted r) = Ok stored).
Proof.
  apply (post_failure_is_local example_config two_games_world).
  vm_compute. reflexivity.
Defined.


Lemma format_time_keeps_zero_padding_witness :
  format_time (lit "UTC") (PStr (lit "2025-01-05T07:00Z"))
  = PStr (strftime (LocalTime 2025 1 5 7 0 (lit "UTC")))
  ∧ ∃ before after,
      strftime (LocalTime 2025 1 5 7 0 (lit "UTC"))
      = before ++ two_digits 5 ++ lit ", " ++ str_of_N 2025
          ++ lit " " ++ two_digits (hour12 7) ++ after.
Proof.
  apply (format_time_keeps_zero_padding (lit "UTC") (lit "2025-01-05T07:00Z")
           (LocalTime 2025 1 5 7 0 (lit "UTC"))).
  - vm_compute. reflexivity.
  - simpl. lia.
Defined.

Lemma last_registered_alias_wins_witness :
  ∃ t,
    (load_councils (Some shared_alias_registry) ≫= build_lookup) = Ok t
    ∧ alias_lookup t !! lit "foo u" = Some (lit "second").
Proof.
  eexists. split; [vm_compute; reflexivity|].
  eapply (last_registered_alias_wins
            [(lit "first",
              PDict [(lit "council", PInt 1);
                     (lit "aliases", PDict [(lit "espn", PList [PStr (lit "Foo U")])])])]
            (lit "second")
            (PDict [(lit "council", PInt 2);
                    (lit "aliases", PDict [(lit "common", PList [PStr (lit "foo u.")])])])
            [] _ [lit "foo u"] (lit "foo u")).
  - vm_compute. reflexivity.
  - vm_compute. reflexivity.
  - vm_compute. left.
  - intros cid' info' ks' H. by apply elem_of_nil in H.
Defined.

Lemma dedup_set_round_trip_witness :
  ∃ body,
    write_posted_set_to_issue (λ _, Response 200 None)
      (set_map AStr ({[lit "401"]} : gset pystr)) = Ok body
    ∧ ∀ code issue,
        ¬ (400 ≤ code < 600)%Z →
        assoc (lit "body") issue = Some (PStr body) →
        read_posted_set_from_issue (Response code (Some (PDict issue)))
        = Ok (set_map AStr ({[lit "401"]} : gset pystr)).
Proof.
  apply (dedup_set_round_trip {[lit "401"]} (λ _, Response 200 None)).
  - intros s ->%elem_of_singleton. vm_compute.
    repeat split; try discriminate; intros [H _]; discriminate H.
  - intros body. exists 200%Z, None. split; [reflexivity | lia].
Defined.

(** *** Counterexamples *)

(** C1, as stated, fails: the two scoreboards have a game with the id 401;
    the post of the first one fails with the status 500, and yet the id is in
    the set that the run persists, because the post of the second succeeds. *)
Lemma failed_post_id_persisted :
  ∃ r m1 m2,
    main example_config same_id_world = Ok r
    ∧ run_batch r = [(lit "401", m1); (lit "401", m2)]
    ∧ post_to_discord (webhook same_id_world 0 m1) = Raise HTTPError
    ∧ run_posted r = {[AStr (lit "401")]}
    ∧ run_stored r = Some (json_dumps_list [AStr (lit "401")]).
Proof.
  eexists _, _, _. split; [vm_compute; reflexivity|].
  repeat split; vm_compute; reflexivity.
Qed.

(** C5, as stated, fails: two entries register the alias Foo U, and the
    table maps it to the second one, not to the first. *)
Lemma first_registered_alias_loses :
  ∃ t,
    (load_councils (Some shared_alias_registry) ≫= build_lookup) = Ok t
    ∧ alias_lookup t !! lit "foo u" = Some (lit "second")
    ∧ alias_lookup t !! lit "foo u" ≠ Some (lit "first").
Proof.
  eexists. split; [vm_compute; reflexivity|].
  split; [vm_compute; reflexivity | vm_compute; discriminate].
Qed.


(** C10, as stated, fails: the id of an event whose id field is the empty
    string is the empty string, and the guard on a falsy id skips the event,
    which would match under any other id. *)
Lemma empty_id_is_skipped :
  game_id_of (example_event "'id': '', ") = Ok []
  ∧ scan_event example_config example_councils example_role_map example_lookups ∅
      (lit "Football") (example_event "'id': '', ")
    = Ok None
  ∧ ∃ message,
      scan_event example_config example_councils example_role_map example_lookups ∅
        (lit "Football") (example_event "'id': 7, ")
      = Ok (Some (lit "7", message)).
Proof.
  split; [vm_compute; reflexivity|].
  split; [vm_compute; reflexivity|].
  eexists. vm_compute. reflexivity.
Qed.

(** C8, as stated, fails: a string made of a high surrogate and a low
    surrogate is written as two escapes, which are read back as the one
    character U+1F600. *)
Lemma split_surrogate_pair_read_as_one :
  ∃ body,
    write_posted_set_to_issue (λ _, Response 200 None) {[AStr [0xD83D; 0xDE00]]} = Ok body
    ∧ read_posted_set_from_issue
        (Response 200 (Some (PDict [(lit "body", PStr body)])))
      = Ok {[AStr [0x1F600]]}
    ∧ ({[AStr [0x1F600]]} : pyset) ≠ {[AStr [0xD83D; 0xDE00]]}.
Proof.
  eexists. split; [vm_compute; reflexivity|].
  split; [vm_compute; reflexivity|].
  intros H. assert (Hin : AStr [0x1F600] ∈ ({[AStr [0xD83D; 0xDE00]]} : pyset)).
  { rewrite <- H. by apply elem_of_singleton. }
  apply elem_of_singleton in Hin. discriminate Hin.
Qed.

(** *** Witnesses of the further properties *)

Lemma normalize_shape_witness :
  ∃ ws, lit "st marys and co op" = join (lit " ") ws
        ∧ Forall word ws
        ∧ Forall (Forall (λ c, punctuation c = false ∧ ascii_upper c = false)) ws.
Proof.
  apply (@normalize_shape latin_runtime latin_unicode_laws (lit "  St. Mary's & Co-op  ")).
  vm_compute. reflexivity.
Defined.

Lemma non_ascii_keys_never_match_witness :
  replace_all replace_table (strip (py_lower (lit "Notre-Dame, Ind.")))
  = replace_all (ascii_keys replace_table) (strip (py_lower (lit "Notre-Dame, Ind."))).
Proof. apply (@non_ascii_keys_never_match latin_runtime latin_unicode_laws). Defined.

Lemma alias_table_sound_witness :
  ∃ info ks,
    (lit "bar", info) ∈ example_entries
    ∧ entry_aliases info = Ok ks
    ∧ lit "bar tech inst" ∈ ks.
Proof.
  apply (alias_table_sound example_entries example_lookups).
  - vm_compute. reflexivity.
  - vm_compute. reflexivity.
Defined.

Lemma registered_alias_resolves_witness :
  ∃ t,
    build_lookup (PDict shared_alias_entries) = Ok t
    ∧ resolve_team
        (PDict [(lit "team", PDict [(lit "id", PStr (lit "77"));
                                   (lit "displayName", PStr (lit "FOO U."))])])
        (alias_lookup t) (espn_id_lookup t)
      = Ok (Some (lit "second")).
Proof.
  eexists. split; [vm_compute; reflexivity|].
  eapply (registered_alias_resolves
            (take 1 shared_alias_entries) (lit "second")
            (default PNone (assoc (lit "second") shared_alias_entries)) []
            _ [lit "foo u"] _
            [(lit "id", PStr (lit "77")); (lit "displayName", PStr (lit "FOO U."))]
            (lit "FOO U.")).
  - vm_compute. reflexivity.
  - vm_compute. reflexivity.
  - intros cid' info' ks' H. by apply elem_of_nil in H.
  - vm_compute. reflexivity.
  - intros team_id H _. vm_compute in H. injection H as <-. vm_compute. reflexivity.
  - vm_compute. reflexivity.
  - discriminate.
  - vm_compute. left.
Defined.

Lemma registered_espn_id_resolves_witness :
  resolve_team
    (PDict [(lit "team", PDict [(lit "id", PStr (lit "11"));
                               (lit "displayName", PStr (lit "Somebody Else"))])])
    (alias_lookup example_lookups) (espn_id_lookup example_lookups)
  = Ok (Some (lit "foo")).
Proof.
  eapply (registered_espn_id_resolves
            [] (lit "foo") (default PNone (assoc (lit "foo") example_entries))
            (drop 1 example_entries) example_lookups [lit "11"] _
            [(lit "id", PStr (lit "11")); (lit "displayName", PStr (lit "Somebody Else"))]
            (PStr (lit "11"))).
  - vm_compute. reflexivity.
  - vm_compute. reflexivity.
  - intros cid' info' ks' Hin Hks.
    apply list_elem_of_singleton in Hin. injection Hin as -> ->.
    vm_compute in Hks. injection Hks as <-. apply not_elem_of_nil.
  - vm_compute. reflexivity.
  - vm_compute. reflexivity.
  - reflexivity.
  - vm_compute. left.
Defined.

Lemma resolved_id_is_registry_key_witness :
  ∃ info, subscript_key (PDict example_entries) (lit "bar") = Ok info.
Proof.
  apply (resolved_id_is_registry_key example_entries example_lookups
           (PDict [(lit "team", PDict [(lit "displayName", PStr (lit "BAR-TECH INST."))])])).
  - vm_compute. reflexivity.
  - vm_compute. reflexivity.
Defined.

Lemma resolve_team_never_raises_on_names_witness :
  ∃ r,
    resolve_team
      (PDict [(lit "team", PDict [(lit "id", PInt 5); (lit "name", PNone);
                                 (lit "location", PStr (lit "Ames"))])])
      (alias_lookup example_lookups) (espn_id_lookup example_lookups)
    = Ok r.
Proof.
  eapply (resolve_team_never_raises_on_names _
            [(lit "id", PInt 5); (lit "name", PNone); (lit "location", PStr (lit "Ames"))]).
  - reflexivity.
  - intros key v Hk Hv.
    repeat (apply elem_of_cons in Hk as [->|Hk];
            [vm_compute in Hv; try discriminate Hv; injection Hv as <-;
             first [by left | right; by eexists]|]).
    by apply elem_of_nil in Hk.
Defined.

Lemma home_and_away_spec_witness :
  home_and_away
    (PList [PDict [(lit "homeAway", PStr (lit "away")); (lit "order", PInt 0)];
            PDict [(lit "homeAway", PStr (lit "home")); (lit "order", PInt 1)]])
  = Ok (PDict [(lit "homeAway", PStr (lit "home")); (lit "order", PInt 1)],
        PDict [(lit "homeAway", PStr (lit "away")); (lit "order", PInt 0)]).
Proof.
  apply (home_and_away_spec
           [PDict [(lit "homeAway", PStr (lit "away")); (lit "order", PInt 0)];
            PDict [(lit "homeAway", PStr (lit "home")); (lit "order", PInt 1)]]).
  repeat constructor; by eexists.
Defined.

Lemma existing_issue_is_used_witness :
  find_or_create_issue (lit "token") (lit "owner/repo") (lit "KofC-posted-games-store")
    (Response 200 (Some (PList example_listing))) NoResponse
  = Ok (PInt 7, PStr (lit "[]")).
Proof.
  apply (existing_issue_is_used (lit "token") (lit "owner/repo")
           (lit "KofC-posted-games-store") 200
           (take 1 example_listing)
           [(lit "title", PStr (lit "KofC-posted-games-store")); (lit "number", PInt 7);
            (lit "body", PStr (lit "[]"))]
           [] NoResponse (PInt 7)).
  - discriminate.
  - discriminate.
  - lia.
  - repeat constructor. eexists. split; reflexivity.
  - reflexivity.
  - reflexivity.
Defined.

Lemma missing_issue_is_created_witness :
  let find creation :=
    find_or_create_issue (lit "token") (lit "owner/repo") (lit "KofC-posted-games-store")
      (Response 200 (Some (PList (take 1 example_listing)))) creation in
  (∀ code2 d n, ¬ (400 ≤ code2 < 600)%Z → assoc (lit "number") d = Some n →
     find (Response code2 (Some (PDict d)))
     = Ok (n, py_or (default PNone (assoc (lit "body") d)) (PStr [])))
  ∧ (∀ code2 js, (400 ≤ code2 < 600)%Z → find (Response code2 js) = Raise HTTPError)
  ∧ find NoResponse = Raise RequestException.
Proof.
  apply (missing_issue_is_created (lit "token") (lit "owner/repo")
           (lit "KofC-posted-games-store") 200 (take 1 example_listing)).
  - discriminate.
  - discriminate.
  - lia.
  - repeat constructor. eexists. split; reflexivity.
Defined.

Lemma mixed_types_write_fails_witness :
  write_posted_set_to_issue (λ _, Response 200 None) {[AStr (lit "401"); AInt 401]}
  = Raise TypeError.
Proof.
  apply (mixed_types_write_fails _ _ (lit "401") (AInt 401)).
  - apply elem_of_union. left. by apply elem_of_singleton.
  - apply elem_of_union. right. by apply elem_of_singleton.
  - reflexivity.
Defined.

Lemma get_tv_channel_joins_names_witness :
  get_tv_channel
    (PDict [(lit "broadcasts",
             PList [PDict [(lit "names", PList [PStr (lit "ESPN"); PStr (lit "ABC")])];
                    PDict [(lit "market", PStr (lit "national"))];
                    PDict [(lit "names", PList [PStr (lit "BTN")])]])])
  = Ok (lit "ESPN, ABC, BTN").
Proof.
  eapply get_tv_channel_joins_names with (nss := [[lit "ESPN"; lit "ABC"]; []; [lit "BTN"]]).
  - reflexivity.
  - repeat constructor; eexists; split; reflexivity.
Defined.

Lemma textual_mention_needs_number_key_witness :
  ∃ home_info away_info home_num away_num,
    assoc (lit "100") numbered_entries = Some home_info
    ∧ assoc (lit "200") numbered_entries = Some away_info
    ∧ dict_get home_info (lit "council") PNone = Ok home_num
    ∧ dict_get away_info (lit "council") PNone = Ok away_num
    ∧ is_Some (assoc (py_str home_num) numbered_entries)
    ∧ is_Some (assoc (py_str away_num) numbered_entries).
Proof.
  eapply (textual_mention_needs_number_key example_config numbered_entries (PDict [])
            (lit "Football") (PDict []) (lit "100") (lit "200")).
  - vm_compute. reflexivity.
  - reflexivity.
Defined.

Lemma bare_competition_message_witness :
  ∃ message,
    build_message example_config (PDict example_entries) (PDict example_role_entries)
      (lit "Football") (PDict []) (lit "foo") (lit "bar")
    = Ok message.
Proof.
  eexists.
  eapply (bare_competition_message example_config example_entries example_role_entries
            (lit "Football") [] (lit "foo") (lit "bar")).
  - vm_compute. reflexivity.
  - vm_compute. reflexivity.
  - reflexivity.
  - reflexivity.
  - reflexivity.
  - reflexivity.
  - vm_compute. reflexivity.
  - reflexivity.
  - vm_compute. reflexivity.
  - reflexivity.
Defined.

Lemma scoreboards_down_quiet_run_witness :
  main example_config both_down_world
  = Ok (Run [] [] {[AStr (lit "402")]}
          (match write_posted_set_to_issue (issue_patch both_down_world (PInt 7))
                   {[AStr (lit "402")]} with
           | Ok stored => Some stored
           | Raise _ => None
           end)).
Proof.
  apply (scoreboards_down_quiet_run example_config both_down_world
           example_councils example_lookups (PInt 7) (PStr (lit "[]"))).
  - discriminate.
  - discriminate.
  - discriminate.
  - vm_compute. reflexivity.
  - vm_compute. reflexivity.
  - vm_compute. reflexivity.
  - vm_compute. reflexivity.
  - intros source Hin.
    repeat (apply elem_of_cons in Hin as [->|Hin]; [vm_compute; reflexivity|]).
    by apply elem_of_nil in Hin.
Defined.

Lemma empty_competitions_abort_run_witness :
  main example_config empty_competitions_world = Raise IndexError.
Proof.
  eapply empty_competitions_abort_run
    with (councils := example_councils) (t := example_lookups) (issue_num := PInt 7)
         (body := PStr (lit "[]")) (posted := ∅) (before := []) (batch := []) (pre := [])
         (ev := [(lit "id", PStr (lit "9")); (lit "competitions", PList [])])
         (gid := lit "9").
  - discriminate.
  - discriminate.
  - discriminate.
  - vm_compute. reflexivity.
  - vm_compute. reflexivity.
  - vm_compute. reflexivity.
  - vm_compute. reflexivity.
  - reflexivity.
  - reflexivity.
  - vm_compute. reflexivity.
  - vm_compute. reflexivity.
  - intros event H. by apply elem_of_nil in H.
  - reflexivity.
  - reflexivity.
  - discriminate.
  - apply not_elem_of_empty.
Defined.

Lemma unreadable_store_aborts_run_witness :
  main example_config unreadable_store_world = Raise HTTPError.
Proof.
  apply (unreadable_store_aborts_run example_config unreadable_store_world
           example_councils example_lookups).
  - discriminate.
  - discriminate.
  - discriminate.
  - vm_compute. reflexivity.
  - vm_compute. reflexivity.
  - right. exists (PInt 7), (PStr (lit "[]")). split; vm_compute; reflexivity.
Defined.

Lemma replies_never_abort_run_witness :
  let r := run_of (main example_config two_games_world) in
  (∃ r', main example_config
           (with_replies two_games_world (λ _ _, NoResponse) (λ _ _, NoResponse)) = Ok r'
         ∧ run_batch r' = run_batch r ∧ run_sent r' = run_sent r)
  ∧ main example_config
      (with_replies surrogate_id_world (λ _ _, NoResponse) (λ _ _, NoResponse))
    = Raise UnicodeEncodeError.
Proof.
  split.
  - apply (replies_never_abort_run example_config two_games_world). vm_compute. reflexivity.
  - apply (replies_never_abort_run example_config surrogate_id_world). vm_compute. reflexivity.
Defined.

Lemma posted_set_only_grows_witness :
  let r := run_of (main example_config one_source_down_world) in
  ∃ issue_num body posted,
    find_or_create_issue (GITHUB_TOKEN example_config) (GITHUB_REPOSITORY example_config)
      (POSTED_STORE_ISSUE_TITLE example_config) (issue_listing one_source_down_world)
      (issue_creation one_source_down_world)
    = Ok (issue_num, body)
    ∧ read_posted_set_from_issue (issue_get one_source_down_world issue_num) = Ok posted
    ∧ posted ⊆ run_posted r
    ∧ ∀ a, a ∈ run_posted r → a ∈ posted ∨ ∃ gid, gid ∈ (run_batch r).*1 ∧ a = AStr gid.
Proof.
  apply (posted_set_only_grows example_config one_source_down_world).
  vm_compute. reflexivity.
Defined.

Lemma unrecorded_matches_are_retried_witness :
  let r := run_of (main example_config two_games_world) in
  ∃ r', main example_config
          (with_store two_games_world (serving (json_dumps_list [AStr (lit "402")]))) = Ok r'
        ∧ run_batch r' = unrecorded (run_posted r) (run_batch r)
        ∧ run_sent r' = (unrecorded (run_posted r) (run_batch r)).*2.
Proof.
  apply (unrecorded_matches_are_retried example_config two_games_world _
           (json_dumps_list [AStr (lit "402")]) {[lit "402"]}).
  - vm_compute. reflexivity.
  - vm_compute. reflexivity.
  - vm_compute. reflexivity.
  - intros s ->%elem_of_singleton. vm_compute.
    repeat split; try discriminate; intros [H _]; discriminate H.
  - intros issue_num. eexists 200%Z, _. split; [reflexivity|]. split; [lia | reflexivity].
Defined.

Lemma second_run_is_quiet_witness :
  let r := run_of (main example_config one_source_down_world) in
  ∃ r', main example_config
          (with_store one_source_down_world
             (serving (json_dumps_list [AStr (lit "401"); AStr (lit "402")]))) = Ok r'
        ∧ run_batch r' = [] ∧ run_sent r' = [] ∧ run_posted r' = run_posted r.
Proof.
  apply (second_run_is_quiet example_config one_source_down_world _
           (json_dumps_list [AStr (lit "401"); AStr (lit "402")])
           {[lit "401"; lit "402"]}).
  - vm_compute. reflexivity.
  - intros i gid message Hi. eexists. reflexivity.
  - vm_compute. reflexivity.
  - vm_compute. reflexivity.
  - intros s [->%elem_of_singleton| ->%elem_of_singleton]%elem_of_union; vm_compute;
      repeat split; try discriminate; intros [H _]; discriminate H.
  - intros issue_num. eexists 200%Z, _. split; [reflexivity|]. split; [lia | reflexivity].
Defined.

Lemma build_lookup_accepts_well_formed_registry_witness :
  ∃ t,
    build_lookup
      (PDict [(lit "foo",
               PDict [(lit "official_name", PStr (lit "Foo University"));
                      (lit "council", PInt 100);
                      (lit "aliases", PDict [(lit "espn", PList [PStr (lit "Foo U"); PNone])]);
                      (lit "espn_ids", PList [PInt 11])]);
              (lit "bar", PDict [])])
    = Ok t.
Proof.
  apply build_lookup_accepts_well_formed_registry.
  constructor; [|constructor; [|constructor]].
  - eexists. split; [reflexivity|]. split; [|split; [|split]].
    + eexists. split; [reflexivity|]. constructor; [|constructor].
      eexists. split; [reflexivity|]. constructor; [|constructor; [|constructor]].
      * right. by eexists.
      * by left.
    + right. by eexists.
    + right. by eexists.
    + by eexists.
  - eexists. split; [reflexivity|]. split; [|split; [|split]].
    + eexists. split; [reflexivity|]. constructor.
    + by left.
    + right. by eexists.
    + by eexists.
Defined.

Lemma too_few_competitors_skipped_witness :
  scan_event example_config example_councils example_role_map example_lookups ∅
    (lit "Football")
    (PDict [(lit "id", PStr (lit "9"));
            (lit "competitions",
             PList [PDict [(lit "competitors", PList [PDict [(lit "homeAway", PStr (lit "home"))]])]])])
  = Ok None.
Proof.
  eapply too_few_competitors_skipped.
  - reflexivity.
  - reflexivity.
  - simpl. lia.
Defined.

Lemma batch_is_the_matches_in_order_witness :
  let r := run_of (main example_config same_id_world) in
  ∃ councils t issue_num body posted,
    load_councils (council_file same_id_world) = Ok councils
    ∧ build_lookup councils = Ok t
    ∧ find_or_create_issue (GITHUB_TOKEN example_config) (GITHUB_REPOSITORY example_config)
        (POSTED_STORE_ISSUE_TITLE example_config) (issue_listing same_id_world)
        (issue_creation same_id_world)
      = Ok (issue_num, body)
    ∧ read_posted_set_from_issue (issue_get same_id_world issue_num) = Ok posted
    ∧ run_batch r
      = flat_map (λ source,
                    event_matches example_config councils (run_role_map example_config) t
                      posted source.2 (source_events same_id_world source)) sources.
Proof.
  apply (batch_is_the_matches_in_order example_config same_id_world).
  vm_compute. reflexivity.
Defined.

Lemma well_formed_run_ends_normally_witness :
  ∃ r, main example_config plain_world = Ok r.
Proof.
  apply (well_formed_run_ends_normally example_config plain_world
           example_entries example_role_entries example_lookups (PInt 7) (PStr (lit "[]")) ∅).
  - discriminate.
  - discriminate.
  - discriminate.
  - vm_compute. reflexivity.
  - vm_compute. reflexivity.
  - vm_compute. reflexivity.
  - unfold registry_with_roles.
    let e := eval vm_compute in example_entries in change example_entries with e.
    repeat constructor; eexists _, _; (split; [reflexivity|]);
      (split; [vm_compute; reflexivity | reflexivity]).
  - vm_compute. reflexivity.
  - vm_compute. reflexivity.
  - intros source data Hin Hf.
    apply elem_of_cons in Hin as [->|Hin];
      [|apply elem_of_cons in Hin as [->|Hin]; [|by apply elem_of_nil in Hin]].
    + vm_compute in Hf. injection Hf as <-.
      exists [plain_event]. split; [vm_compute; reflexivity|].
      split; [|constructor; [|constructor]; by intros gid [= <-]].
      constructor; [|constructor].
      eexists _, _, _. split; [reflexivity|]. split; [reflexivity|].
      split; [|split].
      * eexists. split; [reflexivity|].
        repeat constructor; eexists _, _; (split; [reflexivity|]); (split; [reflexivity|]);
          intros key v Hk Hv;
          repeat (apply elem_of_cons in Hk as [->|Hk];
                  [vm_compute in Hv; try discriminate Hv; injection Hv as <-;
                   right; by eexists|]);
          by apply elem_of_nil in Hk.
      * by left.
      * exists [], []. split; [reflexivity | constructor].
    + vm_compute in Hf. discriminate Hf.
Defined.
